(** * dedup: the duplicate-detection engine of Travis-Britz/dedup

    A shallow embedding of package [dup] (internal/dup) and of the parts of
    main.go around it: the staging of the files into buckets of one size,
    the loop of [run] that hands the detected indexes to the handler, and
    the dry-run handler.

    - Go's [int] is modelled as [Z] with the 64-bit two's complement
      wrap-around written out ([GoInt.wrap]);
    - Go strings are byte strings: [string] of the Standard Library;
    - slices are lists, indexed with stdpp's lookup and insert, with the
      run-time panic of an out-of-range index made explicit;
    - loops with a counter are structural recursion on the number of
      iterations left; loops without a bound take fuel. *)

From Stdlib Require Import ZArith Lia Ascii DecimalString.
From stdpp Require Import base list strings gmap.

Local Open Scope Z_scope.

(** ** Go [int] arithmetic (64 bits, wrapping) *)

Module GoInt.

Definition bits : Z := 64.
Definition modulus : Z := 2 ^ bits.
Definition MaxInt : Z := 2 ^ (bits - 1) - 1.
Definition MinInt : Z := - 2 ^ (bits - 1).

(** The representative of [x] in [MinInt, MaxInt]. *)
Definition wrap (x : Z) : Z := (x + 2 ^ (bits - 1)) mod modulus - 2 ^ (bits - 1).

Definition add (x y : Z) : Z := wrap (x + y).
Definition sub (x y : Z) : Z := wrap (x - y).
Definition mul (x y : Z) : Z := wrap (x * y).
(** Go's [/] truncates toward zero. *)
Definition div (x y : Z) : Z := wrap (Z.quot x y).

Definition in_range (x : Z) : Prop := MinInt <= x <= MaxInt.

End GoInt.

(** ** Offset *)

(** [func Offset(n, row, col int) int]:
    [(n*row + col) - (((row+1)*(row+1)-(row+1))/2 + row + 1)]. *)
Definition Offset (n row col : Z) : Z :=
  GoInt.sub
    (GoInt.add (GoInt.mul n row) col)
    (GoInt.add
       (GoInt.add
          (GoInt.div
             (GoInt.sub (GoInt.mul (GoInt.add row 1) (GoInt.add row 1))
                        (GoInt.add row 1))
             2)
          row)
       1).

(** The largest [n] for which every pair below [n] is mapped exactly:
    [row * (row + 1)] must fit an [int] for every [row <= n - 2]. *)
Definition Offset_max_n : Z := 3037000501.

(** ** Outcomes of a Go call *)

(** A call returns, panics, or (for a loop without a bound, or a recursion
    without a base case) is still running when the fuel is spent. *)
Inductive outcome (A : Type) : Type :=
| Done (a : A)
| Panic (msg : string)
| OutOfFuel.
Arguments Done {A} a.
Arguments Panic {A} msg.
Arguments OutOfFuel {A}.

(** ** Go strings and the library functions the package calls *)

Module GoStr.

Definition bytes (s : string) : list ascii := String.list_ascii_of_string s.
Definition of_bytes (l : list ascii) : string := String.string_of_list_ascii l.
Definition len (s : string) : nat := String.length s.

(** [s[:n]] and [s[n:]]; every use below is within bounds. *)
Definition slice_to (s : string) (n : nat) : string := of_bytes (take n (bytes s)).
Definition slice_from (s : string) (n : nat) : string := of_bytes (drop n (bytes s)).

(** [strings.HasSuffix]:
    [len(s) >= len(suffix) && s[len(s)-len(suffix):] == suffix]. *)
Definition HasSuffix (s suffix : string) : bool :=
  (len suffix <=? len s)%nat && String.eqb (slice_from s (len s - len suffix)) suffix.

(** [strings.TrimSuffix]. *)
Definition TrimSuffix (s suffix : string) : string :=
  if HasSuffix s suffix then slice_to s (len s - len suffix) else s.

Definition is_digit (c : ascii) : bool :=
  (48 <=? nat_of_ascii c)%nat && (nat_of_ascii c <=? 57)%nat.
Definition digit_val (c : ascii) : Z := Z.of_nat (nat_of_ascii c) - 48.

(** [os.IsPathSeparator] (Unix: the slash). *)
Definition IsPathSeparator (c : ascii) : bool := Ascii.eqb c "/".

(** [filepath.Ext]: scan from the last byte down to the first path
    separator; the first dot met starts the extension.
    [r] is what is still to scan, last byte first; [acc] is the part
    already scanned, in reading order. *)
Fixpoint ext_scan (r acc : list ascii) : list ascii :=
  match r with
  | [] => []
  | c :: r' =>
      if IsPathSeparator c then []
      else if Ascii.eqb c "." then c :: acc
      else ext_scan r' (c :: acc)
  end.
Definition Ext (path : string) : string :=
  of_bytes (ext_scan (rev (bytes path)) []).

End GoStr.

(** ** strconv.Atoi *)

Module strconv.

Inductive NumError : Type := ErrSyntax | ErrRange.

Definition MaxUint64 : Z := 2 ^ 64 - 1.

(** The digit loop of [ParseUint(s, 10, 64)]: a byte that is not a decimal
    digit is a syntax error; the first digit that takes the value past
    [MaxUint64] ends the parse with [(MaxUint64, ErrRange)]. *)
Fixpoint parse_digits (s : string) (n : Z) : Z * option NumError :=
  match s with
  | EmptyString => (n, None)
  | String c r =>
      if GoStr.is_digit c then
        let n1 := n * 10 + GoStr.digit_val c in
        if MaxUint64 <? n1 then (MaxUint64, Some ErrRange)
        else parse_digits r n1
      else (0, Some ErrSyntax)
  end.

Definition ParseUint (s : string) : Z * option NumError :=
  match s with
  | EmptyString => (0, Some ErrSyntax)
  | _ => parse_digits s 0
  end.

(** [Atoi(s)] is [ParseInt(s, 10, 0)] with a fast path that agrees with it.
    An optional sign, then [ParseUint]; a syntax error returns 0, a value
    out of the [int] range returns the nearest bound with [ErrRange]. *)
Definition Atoi (s : string) : Z * option NumError :=
  match s with
  | EmptyString => (0, Some ErrSyntax)
  | String c r =>
      let neg := Ascii.eqb c "-" in
      let s' := if Ascii.eqb c "-" || Ascii.eqb c "+" then r else s in
      match ParseUint s' with
      | (_, Some ErrSyntax) => (0, Some ErrSyntax)
      | (un, _) =>
          if negb neg && (GoInt.MaxInt <? un) then (GoInt.MaxInt, Some ErrRange)
          else if neg && (- GoInt.MinInt <? un) then (GoInt.MinInt, Some ErrRange)
          else (if neg then - un else un, None)
      end
  end.

End strconv.

(** ** The two copy-suffix patterns *)

(** The longest run of decimal digits at the head of [r]. *)
Fixpoint span_digits (r : list ascii) : list ascii * list ascii :=
  match r with
  | c :: r' =>
      if GoStr.is_digit c then
        let '(ds, rest) := span_digits r' in (c :: ds, rest)
      else ([], r)
  | [] => ([], [])
  end.

(** The text ends with [ \((\d+)\)]: returns what precedes the match and the
    digits.  The text is scanned from its end; the digits must be preceded by
    an opening parenthesis, so the run taken is the only candidate. *)
Definition paren_number (s : string) : option (string * string) :=
  match rev (GoStr.bytes s) with
  | c :: r1 =>
      if Ascii.eqb c ")" then
        match span_digits r1 with
        | ((_ :: _) as ds, o :: sp :: r2) =>
            if Ascii.eqb o "(" && Ascii.eqb sp " "
            then Some (GoStr.of_bytes (rev r2), GoStr.of_bytes (rev ds))
            else None
        | _ => None
        end
      else None
  | [] => None
  end.

(** [windowsPattern.FindStringSubmatch]: the regular expression
    [ - Copy(?: \((\d+)\))?$].  The result is [wmatch[0]], [wmatch[1]];
    a group that did not take part is the empty string. *)
Definition windowsPattern (s : string) : option (string * string) :=
  if GoStr.HasSuffix s " - Copy" then Some (" - Copy", "")
  else
    match paren_number s with
    | Some (s0, ds) =>
        if GoStr.HasSuffix s0 " - Copy"
        then Some (" - Copy (" +:+ ds +:+ ")", ds)
        else None
    | None => None
    end.

(** [chromePattern.FindStringSubmatch]: the regular expression [ \((\d+)\)$]. *)
Definition chromePattern (s : string) : option (string * string) :=
  match paren_number s with
  | Some (_, ds) => Some (" (" +:+ ds +:+ ")", ds)
  | None => None
  end.

(** ** SplitFileBaseName *)

(** The [for] loop of [SplitFileBaseName]; [prefix] and [counter] are the
    named results it updates. *)
Fixpoint split_loop (fuel : nat) (prefix : string) (counter : Z)
  : outcome (string * Z) :=
  match fuel with
  | O => OutOfFuel
  | S fuel' =>
      match windowsPattern prefix with
      | Some (w0, w1) =>
          let prefix := GoStr.TrimSuffix prefix w0 in
          let n := fst (strconv.Atoi w1) in
          if n =? 0 then split_loop fuel' prefix (GoInt.add counter 1)
          else if n =? 1 then split_loop fuel' prefix (GoInt.add counter 2)
          else if n <? 0 then Panic "should not have been able to match a negative number"
          else split_loop fuel' prefix (GoInt.add counter n)
      | None =>
          match chromePattern prefix with
          | Some (c0, c1) =>
              let prefix := GoStr.TrimSuffix prefix c0 in
              let n := fst (strconv.Atoi c1) in
              if n =? 0 then split_loop fuel' prefix (GoInt.add counter 1)
              else if n <? 0 then Panic "should not have been able to match a negative number"
              else split_loop fuel' prefix (GoInt.add counter n)
          | None => Done (prefix, counter)
          end
      end
  end.

(** What the function computes before the deferred closure runs. *)
Definition split_parse (fuel : nat) (name : string) : outcome (string * Z * string) :=
  let ext := GoStr.Ext name in
  let prefix := GoStr.slice_to name (GoStr.len name - GoStr.len ext) in
  match split_loop fuel prefix 0 with
  | Done (prefix, counter) => Done (prefix, counter, ext)
  | Panic msg => Panic msg
  | OutOfFuel => OutOfFuel
  end.

(** The deferred closure: an empty prefix with an empty extension is
    replaced by the original name. *)
Definition split_defer (name : string) (r : string * Z * string) : string * Z * string :=
  let '(prefix, counter, ext) := r in
  if String.eqb prefix "" && String.eqb ext "" then (name, 0, "") else r.

Definition SplitFileBaseName_fuel (fuel : nat) (name : string)
  : outcome (string * Z * string) :=
  match split_parse fuel name with
  | Done r => Done (split_defer name r)
  | Panic msg => Panic msg
  | OutOfFuel => OutOfFuel
  end.

(** Every match removes at least one byte of the prefix, so the loop body
    runs at most [len name + 1] times. *)
Definition SplitFileBaseName (name : string) : outcome (string * Z * string) :=
  SplitFileBaseName_fuel (S (GoStr.len name)) name.

(** ** Errors *)

(** The [error] values of the package: the sentinels it tests by identity,
    values that only carry a message ([errors.New], the errors of [os]),
    the two [fmt.Errorf] values of [equalFile], and [errImpossible{e}]. *)
Inductive error : Type :=
| EOF                      (* io.EOF *)
| ErrUnexpectedEOF         (* io.ErrUnexpectedEOF *)
| Canceled                 (* ctx.Err() once ctx.Done() is closed *)
| errSameItem
| SkipRemaining
| errorString (s : string)
| errReadSizeMismatch      (* fmt.Errorf("read size mismatch: %w", ...) *)
| errReadFailure (n1 n2 : Z) (* fmt.Errorf("n1=%d, n2=%d, reader 1 error: ...") *)
| errImpossible (e : error).

Definition error_eqb_EOF (err : option error) : bool :=
  match err with Some EOF => true | _ => false end.

Definition is_nil (err : option error) : bool :=
  match err with None => true | Some _ => false end.

(** [func (e errImpossible) Unwrap() error { return e.e }] *)
Definition errImpossible_Unwrap (e : error) : error := e.

(** [func (e errImpossible) Error() string
       { return "error should not be possible: " + e.Error() }]
    The receiver [e] is the [errImpossible] value itself, so the call
    [e.Error()] is the method calling itself on the same receiver; [depth]
    is the number of stack frames left. *)
Fixpoint errImpossible_Error (depth : nat) (e : error) : outcome string :=
  match depth with
  | O => OutOfFuel
  | S depth' =>
      match errImpossible_Error depth' e with
      | Done s => Done ("error should not be possible: " +:+ s)
      | Panic msg => Panic msg
      | OutOfFuel => OutOfFuel
      end
  end.

(** [err.Error()] through the interface: the message of a sentinel or of a
    message-only value is at hand; an [errImpossible] runs its method. The
    text of a [fmt.Errorf] value was put together when the value was built. *)
Definition Error (depth : nat) (err : error) : outcome string :=
  match err with
  | EOF => Done "EOF"
  | ErrUnexpectedEOF => Done "unexpected EOF"
  | Canceled => Done "context canceled"
  | errSameItem => Done "comparing item with itself"
  | SkipRemaining => Done "skip remaining"
  | errorString s => Done s
  | errReadSizeMismatch => Done "read size mismatch"
  | errReadFailure _ _ => Done "reader error"
  | errImpossible e => errImpossible_Error depth e
  end.

(** ** selection *)

(** [type selection uint8] with [None], [Left], [Right] = 0, 1, 2; any other
    value of the type is [Invalid]. *)
Module Sel.
Inductive t : Type := None | Left | Right | Invalid (v : Z).
End Sel.
Definition selection : Type := Sel.t.

(** ** selectDup *)

(** What [Stat] reports of a file. [IsSymlink] is [Mode()&fs.ModeSymlink != 0];
    [ModTime] is the instant, in nanoseconds. *)
Record FileInfo : Type := mkFileInfo {
  Name : string;
  Size : Z;
  IsDir : bool;
  IsSymlink : bool;
  ModTime : Z
}.

(** An open [fs.File]: the result of its [Stat] and the bytes it holds. *)
Record File : Type := mkFile {
  Stat : error + FileInfo;
  Content : list ascii
}.

(** [isDigits]: [strconv.Atoi(s)] returns no error. *)
Definition isDigits (s : string) : bool :=
  match snd (strconv.Atoi s) with
  | None => true
  | Some _ => false
  end.

Definition heuristics (fi1 fi2 : FileInfo) (p1 p2 : string * Z * string)
  : selection * option error :=
  let '(f1BaseName, f1Counter, f1Ext) := p1 in
  let '(f2BaseName, f2Counter, f2Ext) := p2 in
  if f2Counter <? f1Counter then (Sel.Left, None)
  else if f1Counter <? f2Counter then (Sel.Right, None)
  else if negb (String.eqb f1Ext "") && String.eqb f2Ext "" then (Sel.Right, None)
  else if String.eqb f1Ext "" && negb (String.eqb f2Ext "") then (Sel.Left, None)
  else if isDigits f1BaseName && negb (isDigits f2BaseName) then (Sel.Left, None)
  else if negb (isDigits f1BaseName) && isDigits f2BaseName then (Sel.Right, None)
  else if ModTime fi1 <? ModTime fi2 then (Sel.Right, None)
  else if ModTime fi2 <? ModTime fi1 then (Sel.Left, None)
  else (Sel.Right, None).

Definition selectDup (f1 f2 : File) : outcome (selection * option error) :=
  match Stat f1 with
  | inl err => Done (Sel.None, Some err)
  | inr fi1 =>
      match Stat f2 with
      | inl err => Done (Sel.None, Some err)
      | inr fi2 =>
          if negb (Size fi1 =? Size fi2) then
            Done (Sel.None, Some (errImpossible (errorString "comparison on differently sized files")))
          else if (Size fi1 =? 0) || (Size fi2 =? 0) then
            Done (Sel.None, Some (errImpossible (errorString "duplicate selection on empty files")))
          else if IsDir fi1 || IsDir fi2 then
            Done (Sel.None, Some (errImpossible (errorString "duplicate comparison contained a directory")))
          else if IsSymlink fi1 || IsSymlink fi2 then
            Done (Sel.None, Some (errImpossible (errorString "duplicate comparison contained a symlink")))
          else
            match SplitFileBaseName (Name fi1) with
            | Done p1 =>
                match SplitFileBaseName (Name fi2) with
                | Done p2 => Done (heuristics fi1 fi2 p1 p2)
                | Panic msg => Panic msg
                | OutOfFuel => OutOfFuel
                end
            | Panic msg => Panic msg
            | OutOfFuel => OutOfFuel
            end
      end
  end.

(** ** equalFile *)

(** [io.Reader]: [Read(p)] with [len(p) = k] returns the bytes it put in
    [p[:n]] and an error, and leaves the reader in a new state. *)
Class Reader (R : Type) : Type :=
  Read : R -> nat -> list ascii * option error * R.

(** [io.ReadFull(r, buf)] is [io.ReadAtLeast(r, buf, len(buf))]:
    [for n < min && err == nil { nn, err = r.Read(buf[n:]); n += nn }], then
    [err = nil] when [n >= min], and an [EOF] after some bytes becomes
    [ErrUnexpectedEOF]. [got] holds [buf[:n]]. *)
Fixpoint ReadAtLeast {R} `{Reader R} (fuel : nat) (r : R) (len_buf min : nat)
    (got : list ascii) (err : option error)
  : outcome (list ascii * option error * R) :=
  if (length got <? min)%nat && is_nil err then
    match fuel with
    | O => OutOfFuel
    | S fuel' =>
        let '(bs, err', r') := Read r (len_buf - length got)%nat in
        ReadAtLeast fuel' r' len_buf min (got ++ bs) err'
    end
  else if (min <=? length got)%nat then Done (got, None, r)
  else if (0 <? length got)%nat && error_eqb_EOF err then Done (got, Some ErrUnexpectedEOF, r)
  else Done (got, err, r).

Definition ReadFull {R} `{Reader R} (fuel : nat) (r : R) (len_buf : nat)
  : outcome (list ascii * option error * R) :=
  ReadAtLeast fuel r len_buf len_buf [] None.

Definition bytes_Equal (a b : list ascii) : bool := bool_decide (a = b).

(** The context: [done k] tells whether [ctx.Done()] is closed at the
    [k]-th time it is polled. *)
Definition Context : Type := nat -> bool.

(** [context.Background()] is never done. *)
Definition Background : Context := fun _ => false.

(** The loop of [equalFile]; [br1] and [br2] are the two buffered readers,
    [iter] counts the iterations. The readers are returned with the verdict,
    so that what was consumed can be told. *)
Fixpoint equalFile_loop {R1 R2} `{Reader R1} `{Reader R2}
    (fuel : nat) (ctx : Context) (iter : nat) (br1 : R1) (br2 : R2)
  : outcome (bool * option error * (R1 * R2)) :=
  match fuel with
  | O => OutOfFuel
  | S fuel' =>
      if ctx iter then Done (false, Some Canceled, (br1, br2))
      else
        let '(buf1, err1, br1) := Read br1 4096%nat in
        let n1 := length buf1 in
        match ReadFull fuel br2 n1 with
        | Done (buf2, err2, br2) =>
            let n2 := length buf2 in
            if negb (n1 =? n2)%nat then
              Done (false, Some errReadSizeMismatch, (br1, br2))
            else if negb (bytes_Equal buf1 buf2) then
              Done (false, None, (br1, br2))
            else if error_eqb_EOF err1
                    && ((n1 =? 0)%nat && (n2 =? 0)%nat && is_nil err2) then
              Done (true, None, (br1, br2))
            else if error_eqb_EOF err1 && error_eqb_EOF err2 then
              Done (true, None, (br1, br2))
            else if negb (is_nil err1) || negb (is_nil err2) then
              Done (false, Some (errReadFailure (Z.of_nat n1) (Z.of_nat n2)), (br1, br2))
            else equalFile_loop fuel' ctx (S iter) br1 br2
        | Panic msg => Panic msg
        | OutOfFuel => OutOfFuel
        end
  end.

Definition equalFile {R1 R2} `{Reader R1} `{Reader R2}
    (fuel : nat) (ctx : Context) (f1 : R1) (f2 : R2)
  : outcome (bool * option error * (R1 * R2)) :=
  equalFile_loop fuel ctx 0 f1 f2.

(** A buffered reader over the bytes of a regular file that is read without
    error: while bytes are left, [Read] returns between one and [len(p)] of
    them ([chunk] says how many, from the number left) and no error; at the
    end it returns [0, EOF]. *)
Record stream : Type := mkStream {
  chunk : nat -> nat;
  remaining : list ascii
}.

Definition stream_Read (s : stream) (k : nat) : list ascii * option error * stream :=
  match remaining s with
  | [] => ([], Some EOF, s)
  | _ =>
      let n := (chunk s (length (remaining s)) `min` k)%nat in
      let n := (if (n =? 0)%nat then 1 `min` k else n)%nat in
      (take n (remaining s), None, mkStream (chunk s) (drop n (remaining s)))
  end.

#[global] Instance stream_Reader : Reader stream := stream_Read.

(** ** FilenameFn *)

(** [FilenameFn], over a file system [fsys] that maps a path to the result of
    [os.Open]. Both files are read whole-chunk ([chunk] is the identity). *)
Definition open_stream (f : File) : stream := mkStream (fun n => n) (Content f).

Definition FilenameFn (fsys : string -> error + File) (fuel : nat) (ctx : Context)
    (left right : string) : outcome (selection * option error) :=
  if String.eqb left right then Done (Sel.None, Some errSameItem)
  else
    match fsys left with
    | inl err => Done (Sel.None, Some err)
    | inr f1 =>
        match fsys right with
        | inl err => Done (Sel.None, Some err)
        | inr f2 =>
            match equalFile fuel ctx (open_stream f1) (open_stream f2) with
            | Done (eq, err, _) =>
                if negb eq || negb (is_nil err) then Done (Sel.None, err)
                else selectDup f1 f2
            | Panic msg => Panic msg
            | OutOfFuel => OutOfFuel
            end
        end
    end.

(** ** IndexesContext *)

(** Why a pass stops before its loops are over: a run-time panic, or a call
    that did not come back (fuel or stack spent). *)
Inductive halt : Type :=
| Panicked (msg : string)
| Overflowed.

(** [for i := lo; i < hi; i++ { body }], [k] iterations left; the loop stops
    at the first iteration that halts. *)
Fixpoint for_loop {St : Type} (body : Z -> St -> St * option halt)
    (k : nat) (i : Z) (st : St) : St * option halt :=
  match k with
  | O => (st, None)
  | S k' =>
      match body i st with
      | (st', None) => for_loop body k' (i + 1) st'
      | r => r
      end
  end.

Definition for_range {St : Type} (body : Z -> St -> St * option halt)
    (lo hi : Z) (st : St) : St * option halt :=
  for_loop body (Z.to_nat (hi - lo)) lo st.

(** [skipMatrix[i]] and [skipMatrix[i] = true]; an index out of range panics. *)
Definition skip_get (m : list bool) (i : Z) : option bool :=
  if i <? 0 then None else m !! Z.to_nat i.

Definition skip_set (m : list bool) (i : Z) : option (list bool) :=
  if (0 <=? i) && (i <? Z.of_nat (length m)) then Some (<[Z.to_nat i := true]> m)
  else None.

(** [for c := from; c < n; c++ { skipMatrix[Offset(n, r, c)] = true }];
    [None] is the panic of an index out of range. *)
Fixpoint mark_loop (n r : Z) (k : nat) (c : Z) (m : list bool) : option (list bool) :=
  match k with
  | O => Some m
  | S k' =>
      match skip_set m (Offset n r c) with
      | Some m' => mark_loop n r k' (c + 1) m'
      | None => None
      end
  end.

Definition mark_row (n r from : Z) (m : list bool) : option (list bool) :=
  mark_loop n r (Z.to_nat (n - from)) from m.

(** [make([]bool, size)]: the run time's [makeslice] panics when the length
    is negative or when the slice, of one byte an element, would be larger
    than [maxAlloc], which is 2^48 bytes on a 64-bit platform. A length it
    accepts is taken to be allocated. *)
Definition maxAlloc : Z := 2 ^ 48.

Definition makeslice_panics (len : Z) : bool := (len <? 0) || (maxAlloc <? len).

(** [fmt.Sprintf("%d", v)]: [v] in decimal digits, with a minus sign when it
    is negative. *)
Definition fmt_d (v : Z) : string := NilZero.string_of_int (Z.to_int v).

(** A call of the compare function: the pair of indexes it was issued for
    and what came of it. *)
Record call : Type := mkCall {
  call_row : Z;
  call_col : Z;
  call_ret : outcome (selection * option error)
}.

Section IndexesContext.

(** [T] is the type of the items; [S] is whatever the compare function
    keeps between calls (its closure, the context it is given). *)
Context {T S : Type}.

Definition CompareFuncContext : Type :=
  S -> T -> T -> outcome (selection * option error) * S.

(** What is sent to [slog]. *)
Inductive event : Type :=
| SkippingComparison (left right : T)
| ComparisonFailure (left right : T) (err : error)
| Comparison (left right : T) (duplicate : selection).

(** The variables of a pass, with the calls made and the events logged. *)
Record pass : Type := mkPass {
  skipMatrix : list bool;
  duplicates : list Z;
  cmp_state : S;
  calls : list call;
  events : list event
}.

Variable compareFn : CompareFuncContext.
(** Stack frames left for rendering an error that is logged. *)
Variable depth : nat.
Variable input : list T.

Definition n_of : Z := Z.of_nat (length input).

Definition log (e : event) (st : pass) : pass :=
  mkPass (skipMatrix st) (duplicates st) (cmp_state st) (calls st) (events st ++ [e]).

(** [input[i]]. *)
Definition item (i : Z) : option T :=
  if i <? 0 then None else input !! Z.to_nat i.

(** The [switch dup] that ends the body of the inner loop. *)
Definition record_duplicate (row col : Z) (dup : selection) (st : pass)
  : pass * option halt :=
  match dup with
  | Sel.None => (st, None)
  | Sel.Left =>
      match mark_row n_of row (col + 1) (skipMatrix st) with
      | Some m =>
          (mkPass m (duplicates st ++ [row]) (cmp_state st) (calls st) (events st),
           None)
      | None => (st, Some (Panicked "index out of range"))
      end
  | Sel.Right =>
      match mark_row n_of col (col + 1) (skipMatrix st) with
      | Some m =>
          (mkPass m (duplicates st ++ [col]) (cmp_state st) (calls st) (events st),
           None)
      | None => (st, Some (Panicked "index out of range"))
      end
  | Sel.Invalid v =>
      (st, Some (Panicked ("invalid selection option " +:+ fmt_d v)))
  end.

(** The body of the inner loop at [(row, col)]. *)
Definition compare_pair (row col : Z) (st : pass) : pass * option halt :=
  match skip_get (skipMatrix st) (Offset n_of row col) with
  | None => (st, Some (Panicked "index out of range"))
  | Some skip =>
      match item row, item col with
      | Some l, Some r =>
          if skip then (log (SkippingComparison l r) st, None)
          else
            let '(ret, s') := compareFn (cmp_state st) l r in
            let st := mkPass (skipMatrix st) (duplicates st) s'
                        (calls st ++ [mkCall row col ret]) (events st) in
            match ret with
            | Done (dup, Some e) =>
                (* slog.Error renders the error with its Error method *)
                match Error depth e with
                | Done _ => (log (ComparisonFailure l r e) st, None)
                | Panic msg => (st, Some (Panicked msg))
                | OutOfFuel => (st, Some Overflowed)
                end
            | Done (dup, None) =>
                record_duplicate row col dup (log (Comparison l r dup) st)
            | Panic msg => (st, Some (Panicked msg))
            | OutOfFuel => (st, Some Overflowed)
            end
      | _, _ => (st, Some (Panicked "index out of range"))
      end
  end.

Definition scan_row (row : Z) (st : pass) : pass * option halt :=
  for_range (compare_pair row) (row + 1) n_of st.

(** [size := (n*n - n) / 2; skipMatrix := make([]bool, size)]. *)
Definition matrix_size : Z :=
  GoInt.div (GoInt.sub (GoInt.mul n_of n_of) n_of) 2.

(** The whole pass: the state it ends in, and why it stopped early if it
    did. [make] panics on a length that [makeslice] refuses. *)
Definition IndexesContext_pass (s0 : S) : pass * option halt :=
  let st0 := mkPass (replicate (Z.to_nat matrix_size) false) [] s0 [] [] in
  if makeslice_panics matrix_size
  then (st0, Some (Panicked "runtime error: makeslice: len out of range"))
  else for_range scan_row 0 (n_of - 1) st0.

(** What the caller gets: the [duplicates] slice when the function returns. *)
Definition IndexesContext (s0 : S) : outcome (list Z) :=
  match IndexesContext_pass s0 with
  | (st, None) => Done (duplicates st)
  | (_, Some (Panicked msg)) => Panic msg
  | (_, Some Overflowed) => OutOfFuel
  end.

End IndexesContext.

Arguments pass : clear implicits.
Arguments event : clear implicits.
Arguments CompareFuncContext : clear implicits.

(** [Indexes]: the compare function takes no context. *)
Definition Indexes {T S : Type} (compareFn : CompareFuncContext T S) (depth : nat)
    (input : list T) (s0 : S) : outcome (list Z) :=
  IndexesContext compareFn depth input s0.

(** ** The loop of [run] over one size bucket *)

Section Run.

(** [H] is the state of the handler (the file system it removes from, the
    lines it printed). *)
Context {H : Type}.
Variable handle : H -> string -> option error * H.
Variable depth : nat.

(** [for _, i := range dups { err := config.H.handle(sizeBucket[i]); ... }]:
    returns the paths handed to the handler, in the order of the calls. *)
Fixpoint handle_dups (sizeBucket : list string) (dups : list Z) (h : H)
    (handled : list string) : list string * H * option halt :=
  match dups with
  | [] => (handled, h, None)
  | i :: dups' =>
      match (if i <? 0 then None else sizeBucket !! Z.to_nat i) with
      | None => (handled, h, Some (Panicked "index out of range"))
      | Some path =>
          let '(err, h') := handle h path in
          let handled := handled ++ [path] in
          match err with
          | None => handle_dups sizeBucket dups' h' handled
          | Some e =>
              match Error depth e with
              | Done _ => handle_dups sizeBucket dups' h' handled
              | Panic msg => (handled, h', Some (Panicked msg))
              | OutOfFuel => (handled, h', Some Overflowed)
              end
          end
      end
  end.

(** One iteration of [for sizeBucket := range buckets]. *)
Definition run_bucket {S : Type} (compareFn : CompareFuncContext string S) (s0 : S)
    (sizeBucket : list string) (h : H) : list string * H * option halt :=
  match IndexesContext_pass compareFn depth sizeBucket s0 with
  | (st, None) => handle_dups sizeBucket (duplicates st) h []
  | (_, Some why) => ([], h, Some why)
  end.

End Run.


(** ** main.go: the dry-run handler and the staging of the buckets *)

(** [dryRun(h)]: the handler it returns prints the path and returns nil; the
    handler [h] it was given is not called. The state of a handler is the
    world [W] it acts on, with the lines printed so far. *)
Definition dryRun {W : Type} (h : W * list string -> string -> option error * (W * list string))
  : W * list string -> string -> option error * (W * list string) :=
  fun st file => (None, (fst st, snd st ++ [file])).

(** A record of the scan: [fileResult{path, size}]. *)
Record fileResult : Type := mkFileResult {
  path : string;
  size : Z
}.

(** [buckets[size]]: the nil slice when the map has no such key. *)
Definition bucket_at (buckets : gmap Z (list string)) (sz : Z) : list string :=
  default [] (buckets !! sz).

(** The body of [for fr := range fileResults] in [stageBuckets]. *)
Definition stage_one (MinSize : Z) (buckets : gmap Z (list string)) (fr : fileResult)
  : gmap Z (list string) :=
  if size fr <? MinSize then buckets
  else if bool_decide (path fr ∈ bucket_at buckets (size fr)) then buckets
  else <[size fr := bucket_at buckets (size fr) ++ [path fr]]> buckets.

(** The map of the buckets once the channel of results is drained;
    [fileResults] holds the records in the order they arrived. *)
Definition stage_fill (MinSize : Z) (fileResults : list fileResult)
  : gmap Z (list string) :=
  foldl (stage_one MinSize) ∅ fileResults.

(** What [stageBuckets] sends when it is not cancelled: the buckets with
    more than one path, in the order of the map, which Go leaves open. *)
Definition stageBuckets (MinSize : Z) (fileResults : list fileResult)
  : list (list string) :=
  filter (fun v => (1 < length v)%nat) (map snd (map_to_list (stage_fill MinSize fileResults))).

(** ** The properties the pass is checked against *)

(** The call returned the selection [d] and no error: the outcome that puts
    an index in the result when [d] is [Left] or [Right]. *)
Definition chose (c : call) (d : selection) : Prop := call_ret c = Done (d, None).

(** Skip-soundness, on the calls issued to the compare function: once a call
    has chosen [Left], its row index is in no later call; once it has chosen
    [Right], its column index is the row of no later call. *)
Definition no_recompare (c1 c2 : call) : Prop :=
  (chose c1 Sel.Left ->
     call_row c2 <> call_row c1 /\ call_col c2 <> call_row c1)
  /\ (chose c1 Sel.Right -> call_row c2 <> call_col c1).

Definition skip_sound (tr : list call) : Prop := ForallOrdPairs no_recompare tr.

(** Skip-soundness read role for role: the index a call decided is in no
    later call in the role it was decided in, the row after [Left], the
    column after [Right]. *)
Definition no_recompare_same_role (c1 c2 : call) : Prop :=
  (chose c1 Sel.Left -> call_row c2 <> call_row c1)
  /\ (chose c1 Sel.Right -> call_col c2 <> call_col c1).

Definition skip_sound_same_role (tr : list call) : Prop :=
  ForallOrdPairs no_recompare_same_role tr.

(** The scan order of the pairs: row-major, ascending. *)
Definition scan_lt (c1 c2 : call) : Prop :=
  call_row c1 < call_row c2
  \/ (call_row c1 = call_row c2 /\ call_col c1 < call_col c2).

(** The index a call puts in the result, if any. *)
Definition decided_by (c : call) : list Z :=
  match call_ret c with
  | Done (Sel.Left, None) => [call_row c]
  | Done (Sel.Right, None) => [call_col c]
  | _ => []
  end.

Definition decided (tr : list call) : list Z := concat (map decided_by tr).

(** The compare function always comes back, with a selection the switch of
    the pass knows or with an error that can be rendered for the log. *)
Definition compare_returns {T S : Type} (compareFn : CompareFuncContext T S)
    (depth : nat) : Prop :=
  forall s l r,
    exists d err s', compareFn s l r = (Done (d, err), s')
      /\ (err = None -> forall v, d <> Sel.Invalid v)
      /\ (forall e, err = Some e -> exists msg, Error depth e = Done msg).

(** The largest number of items for which [make] accepts the length of the
    skip matrix: n(n-1)/2 is at most [maxAlloc] up to here, and larger from
    23726567 on. *)
Definition IndexesContext_max_n : Z := 23726566.

(** *** The invariant of a pass over [n] items *)

(** The call [c] was made before the scan reached [(row, col)]. *)
Definition before (n row col : Z) (c : call) : Prop :=
  (0 <= call_row c < call_col c /\ call_col c < n)
  /\ (call_row c < row \/ (call_row c = row /\ call_col c < col)).

(** The rest of the row of an index that was decided is marked. *)
Definition row_marked (n : Z) (m : list bool) (c : call) : Prop :=
  (chose c Sel.Left -> forall c', call_col c < c' < n ->
     skip_get m (Offset n (call_row c) c') = Some true)
  /\ (chose c Sel.Right -> forall c', call_col c < c' < n ->
     skip_get m (Offset n (call_col c) c') = Some true).

Record Inv {T S : Type} (n row col : Z) (st : pass T S) : Prop := mkInv {
  inv_before : Forall (before n row col) (calls st);
  inv_sorted : ForallOrdPairs scan_lt (calls st);
  inv_marked : Forall (row_marked n (skipMatrix st)) (calls st);
  inv_sound : skip_sound (calls st);
  inv_dups : duplicates st = decided (calls st);
  inv_range : Forall (fun i => 0 <= i < n) (duplicates st)
}.

(** "Composed entirely of decimal digits", as the specification words the
    third rule of the selection heuristic. *)
Definition spec_digits_only (s : string) : bool :=
  negb (String.eqb s "") && forallb GoStr.is_digit (GoStr.bytes s).

(** ** Fixtures *)

Definition regular_file (name : string) (mtime : Z) (content : string) : File :=
  mkFile (inr (mkFileInfo name (Z.of_nat (GoStr.len content)) false false mtime))
         (GoStr.bytes content).

(** A directory with three copies of one picture and two empty files. *)
Definition example_fs (path : string) : error + File :=
  if String.eqb path "d/a (2).jpg" then inr (regular_file "a (2).jpg" 5 "hello")
  else if String.eqb path "d/a (3).jpg" then inr (regular_file "a (3).jpg" 6 "hello")
  else if String.eqb path "d/a.jpg" then inr (regular_file "a.jpg" 7 "hello")
  else if String.eqb path "d/e1" then inr (regular_file "e1" 8 "")
  else if String.eqb path "d/e2" then inr (regular_file "e2" 9 "")
  else inl (errorString "open: no such file or directory").

(** [FilenameFn] as the compare function of a pass: it keeps no state. *)
Definition FilenameFn_compare (fsys : string -> error + File) (fuel : nat)
  : CompareFuncContext string unit :=
  fun s l r => (FilenameFn fsys fuel Background l r, s).

(** A call-counting stub comparator answering from a table. *)
Definition stub_compare (table : nat -> nat -> selection) : CompareFuncContext nat nat :=
  fun count l r => (Done (table l r, None), S count).

Definition stub_right_twice (l r : nat) : selection :=
  match l, r with
  | 0%nat, 2%nat => Sel.Right
  | 1%nat, 2%nat => Sel.Right
  | _, _ => Sel.None
  end.


(** ** More properties of the package *)

(** The number a run of decimal digits writes, continuing from [n]. *)
Fixpoint decimal_value (s : string) (n : Z) : Z :=
  match s with
  | EmptyString => n
  | String c r => decimal_value r (n * 10 + GoStr.digit_val c)
  end.

(** The defensive checks, as one test on the two [FileInfo]s. *)
Definition passes_checks (fi1 fi2 : FileInfo) : Prop :=
  Size fi1 = Size fi2 /\ Size fi1 <> 0
  /\ IsDir fi1 = false /\ IsDir fi2 = false
  /\ IsSymlink fi1 = false /\ IsSymlink fi2 = false.







(** No rule of the selection heuristic tells the two files apart: the
    counters are equal, the extensions are both empty or both not, the
    prefixes are both digits or both not, and the modification times are
    equal. *)
Definition no_rule_separates (fi1 fi2 : FileInfo) (p1 p2 : string * Z * string) : Prop :=
  snd (fst p1) = snd (fst p2)
  /\ String.eqb (snd p1) "" = String.eqb (snd p2) ""
  /\ isDigits (fst (fst p1)) = isDigits (fst (fst p2))
  /\ ModTime fi1 = ModTime fi2.

(** The pair of indexes a call was issued for. *)
Definition call_pair (c : call) : Z * Z := (call_row c, call_col c).

(** A compare function that never finds a duplicate: it always comes back
    with [None], with or without an error that can be logged. *)
Definition never_selects {T S : Type} (compareFn : CompareFuncContext T S)
    (depth : nat) : Prop :=
  forall s l r,
    exists err s', compareFn s l r = (Done (Sel.None, err), s')
      /\ (forall e, err = Some e -> exists msg, Error depth e = Done msg).

(** At the end of a pass the pair [(r, c)] is accounted for: it was
    compared, or its row index is in the result. *)
Definition covered {T S : Type} (st : pass T S) (r c : Z) : Prop :=
  (exists ret, mkCall r c ret ∈ calls st) \/ r ∈ duplicates st.

(** The invariant behind the coverage: the pairs the scan has passed are
    covered, and a marked slot belongs to a row whose index is in the
    result. *)
Definition Covers {T S : Type} (n row col : Z) (st : pass T S) : Prop :=
  (forall r c, 0 <= r < c -> c < n -> r < row \/ (r = row /\ c < col) ->
     covered st r c)
  /\ (forall r c, 0 <= r < c -> c < n ->
        skip_get (skipMatrix st) (Offset n r c) = Some true -> r ∈ duplicates st).

(** What is known of the calls of a pass wherever it stops. *)
Definition Calls_ok {T S : Type} (compareFn : CompareFuncContext T S)
    (n row col : Z) (st : pass T S) : Prop :=
  Forall (before n row col) (calls st)
  /\ ForallOrdPairs scan_lt (calls st)
  /\ Forall (fun c => exists s l r, call_ret c = fst (compareFn s l r)) (calls st).

(** A compare function that decides a relation of the items and takes the
    second one: [Right] with no error for two related items, [None] with no
    error for two that are not. *)
Definition selects_right {T S : Type} (compareFn : CompareFuncContext T S)
    (R : T -> T -> Prop) : Prop :=
  forall s l r, exists s',
    (R l r /\ compareFn s l r = (Done (Sel.Right, None), s'))
    \/ (~ R l r /\ compareFn s l r = (Done (Sel.None, None), s')).

(** The items at the indexes [i] and [j] are related. *)
Definition related {T : Type} (R : T -> T -> Prop) (input : list T) (i j : Z) : Prop :=
  exists l r, item input i = Some l /\ item input j = Some r /\ R l r.

(** The invariant of a pass with such a compare function, when the scan is
    at [(row, col)]: the result holds no index twice; each index in it is
    related to an earlier one by a pair the scan has passed; the later index
    of every related pair the scan has passed is in it; and the slots marked
    are those of the rows of the indexes in it. *)
Definition Later {T S : Type} (R : T -> T -> Prop) (input : list T)
    (row col : Z) (st : pass T S) : Prop :=
  NoDup (duplicates st)
  /\ (forall j, j ∈ duplicates st ->
        exists i, 0 <= i < j /\ j < n_of input /\ related R input i j
                  /\ (i < row \/ (i = row /\ j < col)))
  /\ (forall i j, 0 <= i < j -> j < n_of input ->
        i < row \/ (i = row /\ j < col) -> related R input i j ->
        j ∈ duplicates st)
  /\ (forall r c, 0 <= r < c -> c < n_of input ->
        (skip_get (skipMatrix st) (Offset (n_of input) r c) = Some true
         <-> r ∈ duplicates st)).

(** The same with the first one taken: [Left] with no error for two related
    items, [None] with no error for two that are not. *)
Definition selects_left {T S : Type} (compareFn : CompareFuncContext T S)
    (R : T -> T -> Prop) : Prop :=
  forall s l r, exists s',
    (R l r /\ compareFn s l r = (Done (Sel.Left, None), s'))
    \/ (~ R l r /\ compareFn s l r = (Done (Sel.None, None), s')).

(** The invariant of a pass with such a compare function, when the scan is
    at [(row, col)]: the result is ascending and below or at the row; each
    index in it is related to a later one by a pair the scan has passed,
    and the rest of its row is marked; the earlier index of every related
    pair the scan has passed is in it; and the slots marked are in the rows
    of the indexes in it. *)
Definition Earlier {T S : Type} (R : T -> T -> Prop) (input : list T)
    (row col : Z) (st : pass T S) : Prop :=
  ForallOrdPairs Z.lt (duplicates st)
  /\ (forall i, i ∈ duplicates st ->
        exists j, 0 <= i < j /\ j < n_of input /\ related R input i j
                  /\ (i < row \/ (i = row /\ j < col))
                  /\ forall c, j < c < n_of input ->
                       skip_get (skipMatrix st) (Offset (n_of input) i c) = Some true)
  /\ (forall i j, 0 <= i < j -> j < n_of input ->
        i < row \/ (i = row /\ j < col) -> related R input i j ->
        i ∈ duplicates st)
  /\ (forall r c, 0 <= r < c -> c < n_of input ->
        skip_get (skipMatrix st) (Offset (n_of input) r c) = Some true ->
        r ∈ duplicates st).

(** A stub comparator of numbers that takes the second of two equal ones,
    and one that takes the first. *)
Definition equal_takes_right (l r : nat) : selection :=
  if Nat.eqb l r then Sel.Right else Sel.None.

Definition equal_takes_left (l r : nat) : selection :=
  if Nat.eqb l r then Sel.Left else Sel.None.

(** What holds of the map after any number of records. *)
Definition stage_inv (MinSize : Z) (seen : list fileResult) (buckets : gmap Z (list string)) : Prop :=
  (forall sz v, buckets !! sz = Some v -> v <> [])
  /\ (forall sz, NoDup (bucket_at buckets sz))
  /\ (forall sz p, p ∈ bucket_at buckets sz <-> MinSize <= sz /\ mkFileResult p sz ∈ seen).

(** * Properties *)

Section GoIntFacts.
Import GoInt.

Lemma wrap_small x : in_range x -> wrap x = x.
Proof.
  unfold in_range, wrap, MinInt, MaxInt, modulus, bits. intros H.
  rewrite Z.mod_small; lia.
Qed.

Lemma wrap_in_range x : in_range (wrap x).
Proof.
  unfold in_range, wrap, MinInt, MaxInt, modulus, bits.
  pose proof (Z.mod_pos_bound (x + 2 ^ (64 - 1)) (2 ^ 64) ltac:(lia)). lia.
Qed.

Lemma wrap_congr x y : (x - y) mod modulus = 0 -> wrap x = wrap y.
Proof.
  unfold wrap, modulus, bits. intros H.
  apply Z.mod_divide in H; [|lia]. destruct H as [k Hk].
  replace (x + 2 ^ (64 - 1)) with (y + 2 ^ (64 - 1) + k * 2 ^ 64) by lia.
  rewrite Z.mod_add by lia. reflexivity.
Qed.

Lemma wrap_diff x : (wrap x - x) mod modulus = 0.
Proof.
  unfold wrap, modulus, bits.
  rewrite (Z.mod_eq (x + 2 ^ (64 - 1)) (2 ^ 64)) by lia.
  replace (x + 2 ^ (64 - 1) - 2 ^ 64 * ((x + 2 ^ (64 - 1)) / 2 ^ 64) - 2 ^ (64 - 1) - x)
    with ((- ((x + 2 ^ (64 - 1)) / 2 ^ 64)) * 2 ^ 64) by lia.
  apply Z.mod_mul. lia.
Qed.

Lemma wrap_exists x : exists k, wrap x = x + k * modulus.
Proof.
  pose proof (wrap_diff x) as H. apply Z.mod_divide in H; [|unfold modulus, bits; lia].
  destruct H as [k Hk]. exists k. lia.
Qed.

End GoIntFacts.

Section OffsetFacts.
Import GoInt.

(** The triangular number [row * (row + 1) / 2], as the code computes it. *)
Lemma triangle_fits row :
  0 <= row <= Offset_max_n - 2 ->
  div (sub (mul (add row 1) (add row 1)) (add row 1)) 2 = row * (row + 1) / 2.
Proof.
  unfold Offset_max_n. intros Hr.
  assert (Hmax : MaxInt = 9223372036854775807) by reflexivity.
  assert (Hmin : MinInt = -9223372036854775808) by reflexivity.
  unfold add at 1 2 3. rewrite (wrap_small (row + 1)) by (unfold in_range; lia).
  unfold sub, mul.
  rewrite (wrap_congr (wrap ((row + 1) * (row + 1)) - (row + 1)) (row * (row + 1))).
  2:{ destruct (wrap_exists ((row + 1) * (row + 1))) as [k ->].
      replace ((row + 1) * (row + 1) + k * modulus - (row + 1) - row * (row + 1))
        with (k * modulus) by lia.
      apply Z.mod_mul. unfold modulus, bits. lia. }
  assert (0 <= row * (row + 1) <= 9223372033963249500) by nia.
  rewrite (wrap_small (row * (row + 1))) by (unfold in_range; lia).
  unfold div. rewrite Z.quot_div_nonneg by lia.
  apply wrap_small. unfold in_range.
  pose proof (Z.div_le_upper_bound (row * (row + 1)) 2 9223372033963249500).
  pose proof (Z.div_pos (row * (row + 1)) 2). lia.
Qed.

(** Below [Offset_max_n] no step of the computation leaves the [int] range,
    so [Offset] is the closed formula over the integers. *)
Lemma Offset_exact n row col :
  2 <= n <= Offset_max_n -> 0 <= row < col -> col < n ->
  Offset n row col = row * n + col - row * (row + 1) / 2 - (row + 1).
Proof.
  unfold Offset_max_n. intros Hn Hr Hc.
  assert (Hmax : MaxInt = 9223372036854775807) by reflexivity.
  assert (Hmin : MinInt = -9223372036854775808) by reflexivity.
  unfold Offset. rewrite triangle_fits by (unfold Offset_max_n; lia).
  set (t := row * (row + 1) / 2).
  assert (Ht : 2 * t <= row * (row + 1) < 2 * t + 2).
  { subst t. pose proof (Z.mod_pos_bound (row * (row + 1)) 2).
    pose proof (Z.div_mod (row * (row + 1)) 2). lia. }
  assert (Ht0 : 0 <= t) by (subst t; apply Z.div_pos; nia).
  assert (Hrr : row * (row + 1) <= 9223372033963249500) by nia.
  unfold add at 2 3.
  rewrite (wrap_small (t + row)) by (unfold in_range; lia).
  rewrite (wrap_small (t + row + 1)) by (unfold in_range; lia).
  unfold sub, add, mul.
  rewrite (wrap_congr (wrap (wrap (n * row) + col) - (t + row + 1))
                      (row * n + col - t - (row + 1))).
  2:{ destruct (wrap_exists (n * row)) as [k ->].
      destruct (wrap_exists (n * row + k * modulus + col)) as [k' ->].
      replace (n * row + k * modulus + col + k' * modulus - (t + row + 1)
               - (row * n + col - t - (row + 1)))
        with ((k + k') * modulus) by lia.
      apply Z.mod_mul. unfold modulus, bits. lia. }
  apply wrap_small. unfold in_range. nia.
Qed.

Lemma Offset_range_formula n row col :
  2 <= n -> 0 <= row < col -> col < n ->
  0 <= row * n + col - row * (row + 1) / 2 - (row + 1) < n * (n - 1) / 2.
Proof.
  intros Hn Hr Hc.
  pose proof (Z.div_mod (row * (row + 1)) 2 ltac:(lia)) as Ht.
  pose proof (Z.mod_pos_bound (row * (row + 1)) 2 ltac:(lia)) as Ht'.
  pose proof (Z.div_mod (n * (n - 1)) 2 ltac:(lia)) as Hu.
  pose proof (Z.mod_pos_bound (n * (n - 1)) 2 ltac:(lia)) as Hu'.
  set (t := row * (row + 1) / 2) in *. set (u := n * (n - 1) / 2) in *.
  assert (Heven : (n * (n - 1)) mod 2 = 0).
  { destruct (Z.Even_or_Odd n) as [[k ->]|[k ->]].
    - replace (2 * k * (2 * k - 1)) with ((k * (2 * k - 1)) * 2) by lia.
      apply Z.mod_mul. lia.
    - replace ((2 * k + 1) * (2 * k + 1 - 1)) with (((2 * k + 1) * k) * 2) by lia.
      apply Z.mod_mul. lia. }
  split; nia.
Qed.

Lemma Offset_formula_inj n row col row' col' :
  2 <= n -> 0 <= row < col -> col < n -> 0 <= row' < col' -> col' < n ->
  row * n + col - row * (row + 1) / 2 - (row + 1)
  = row' * n + col' - row' * (row' + 1) / 2 - (row' + 1) ->
  row = row' /\ col = col'.
Proof.
  intros Hn Hr Hc Hr' Hc' Heq.
  pose proof (Z.div_mod (row * (row + 1)) 2 ltac:(lia)) as Ht.
  pose proof (Z.div_mod (row' * (row' + 1)) 2 ltac:(lia)) as Ht'.
  assert (Hev : forall k, (k * (k + 1)) mod 2 = 0).
  { intros k. destruct (Z.Even_or_Odd k) as [[j ->]|[j ->]].
    - replace (2 * j * (2 * j + 1)) with ((j * (2 * j + 1)) * 2) by lia.
      apply Z.mod_mul. lia.
    - replace ((2 * j + 1) * (2 * j + 1 + 1)) with (((2 * j + 1) * (j + 1)) * 2) by lia.
      apply Z.mod_mul. lia. }
  rewrite Hev in Ht, Ht'.
  set (t := row * (row + 1) / 2) in *. set (t' := row' * (row' + 1) / 2) in *.
  assert (row = row') as <-.
  { destruct (Z.lt_trichotomy row row') as [Hlt|[?|Hlt]]; [exfalso|assumption|exfalso].
    - assert (Hd : exists d, row' = row + 1 + d /\ 0 <= d) by (exists (row' - row - 1); lia).
      destruct Hd as (d & -> & Hd). nia.
    - assert (Hd : exists d, row = row' + 1 + d /\ 0 <= d) by (exists (row - row' - 1); lia).
      destruct Hd as (d & -> & Hd). nia. }
  split; [reflexivity|]. subst t t'. lia.
Qed.

Lemma Offset_bijection_range n row col :
  2 <= n <= Offset_max_n -> 0 <= row < col -> col < n ->
  0 <= Offset n row col < n * (n - 1) / 2.
Proof.
  intros Hn Hr Hc. rewrite Offset_exact by assumption.
  apply Offset_range_formula; lia.
Qed.

End OffsetFacts.

(** The table of TestOffset. *)
Example TestOffset :
  map (fun '(n, r, c) => Offset n r c)
    [(2, 0, 1);
     (3, 0, 1); (3, 0, 2); (3, 1, 2);
     (4, 0, 1); (4, 0, 2); (4, 0, 3); (4, 1, 2); (4, 1, 3); (4, 2, 3);
     (5, 0, 1); (5, 0, 2); (5, 0, 3); (5, 0, 4); (5, 1, 2); (5, 1, 3); (5, 1, 4);
     (5, 2, 3); (5, 2, 4); (5, 3, 4);
     (6, 0, 1); (6, 0, 2); (6, 1, 2)]
  = [0;
     0; 1; 2;
     0; 1; 2; 3; 4; 5;
     0; 1; 2; 3; 4; 5; 6; 7; 8; 9;
     0; 1; 5].
Proof. vm_compute. reflexivity. Qed.

(** C1 (as amended): for every n with 2 <= n <= 3037000501 and all
    0 <= row < col < n, [Offset n row col] equals the closed formula
    row*n + col - row*(row+1)/2 - (row+1), lies in [0, n(n-1)/2), and the map
    (row, col) |-> Offset n row col is injective on those pairs; every n in
    [2, 50] is covered. *)
Theorem Offset_bijection_bounded n row col :
  2 <= n <= Offset_max_n -> 0 <= row < col -> col < n ->
  Offset n row col = row * n + col - row * (row + 1) / 2 - (row + 1)
  /\ 0 <= Offset n row col < n * (n - 1) / 2
  /\ (forall row' col', 0 <= row' < col' -> col' < n ->
        Offset n row' col' = Offset n row col -> row' = row /\ col' = col).
Proof.
  intros Hn Hr Hc. split; [|split].
  - apply Offset_exact; assumption.
  - apply Offset_bijection_range; assumption.
  - intros row' col' Hr' Hc' Heq.
    rewrite !Offset_exact in Heq by assumption.
    eapply Offset_formula_inj; eauto; lia.
Qed.

Lemma Offset_bijection_bounded_witness :
  Offset 4 1 3 = 4
  /\ 0 <= Offset 4 1 3 < 4 * (4 - 1) / 2
  /\ (forall row' col', 0 <= row' < col' -> col' < 4 ->
        Offset 4 row' col' = Offset 4 1 3 -> row' = 1 /\ col' = 3).
Proof.
  apply (Offset_bijection_bounded 4 1 3); unfold Offset_max_n; lia.
Defined.

(** C1 as stated fails for large n: with n = 3037000502 the product
    (row+1)*(row+1) of the last row overflows the 64-bit int, and the slot of
    the pair (n-2, n-1) is negative. *)
Lemma Offset_overflow_counterexample :
  2 <= 3037000502
  /\ 0 <= 3037000500 < 3037000501 /\ 3037000501 < 3037000502
  /\ Offset 3037000502 3037000500 3037000501 = -4611686013799150058
  /\ ~ (0 <= Offset 3037000502 3037000500 3037000501
        < 3037000502 * (3037000502 - 1) / 2).
Proof.
  assert (H : Offset 3037000502 3037000500 3037000501 = -4611686013799150058)
    by (vm_compute; reflexivity).
  rewrite H. repeat split; lia.
Qed.

(** ** Strings *)

Section GoStrFacts.
Import GoStr.

Lemma bytes_of_bytes l : bytes (of_bytes l) = l.
Proof. apply String.list_ascii_of_string_of_list_ascii. Qed.

Lemma of_bytes_bytes s : of_bytes (bytes s) = s.
Proof. apply String.string_of_list_ascii_of_string. Qed.

Lemma bytes_inj s1 s2 : bytes s1 = bytes s2 -> s1 = s2.
Proof. intros E. rewrite <- (of_bytes_bytes s1), <- (of_bytes_bytes s2), E. reflexivity. Qed.

Lemma bytes_app s1 s2 : bytes (s1 +:+ s2) = bytes s1 ++ bytes s2.
Proof. induction s1 as [|c s1 IH]; simpl; [reflexivity|]. f_equal. exact IH. Qed.

Lemma len_bytes s : len s = length (bytes s).
Proof. induction s as [|c s IH]; simpl; [reflexivity|]. f_equal. exact IH. Qed.

Lemma len_of_bytes l : len (of_bytes l) = length l.
Proof. rewrite len_bytes, bytes_of_bytes. reflexivity. Qed.

Lemma len_slice_to s n : len (slice_to s n) = (n `min` len s)%nat.
Proof. unfold slice_to. rewrite len_of_bytes, length_take, <- len_bytes. reflexivity. Qed.

(** [HasSuffix] holds exactly of the strings that end with the suffix. *)
Lemma HasSuffix_true s suffix :
  HasSuffix s suffix = true -> exists pre, s = pre +:+ suffix.
Proof.
  unfold HasSuffix. intros Hs. apply andb_prop in Hs as [Hle Heq].
  apply Nat.leb_le in Hle. apply String.eqb_eq in Heq.
  exists (slice_to s (len s - len suffix)).
  apply bytes_inj. rewrite bytes_app. rewrite <- Heq at 2.
  unfold slice_to, slice_from. rewrite !bytes_of_bytes.
  symmetry. apply take_drop.
Qed.

Lemma HasSuffix_app pre suffix : HasSuffix (pre +:+ suffix) suffix = true.
Proof.
  unfold HasSuffix, slice_from.
  rewrite !len_bytes, bytes_app, length_app.
  apply andb_true_intro. split; [apply Nat.leb_le; lia|].
  apply String.eqb_eq.
  replace (length (bytes pre) + length (bytes suffix) - length (bytes suffix))%nat
    with (length (bytes pre)) by lia.
  rewrite drop_app_length. apply of_bytes_bytes.
Qed.

Lemma TrimSuffix_app pre suffix : TrimSuffix (pre +:+ suffix) suffix = pre.
Proof.
  unfold TrimSuffix. rewrite HasSuffix_app. unfold slice_to.
  rewrite !len_bytes, bytes_app, length_app.
  replace (length (bytes pre) + length (bytes suffix) - length (bytes suffix))%nat
    with (length (bytes pre)) by lia.
  rewrite take_app_length. apply of_bytes_bytes.
Qed.

Lemma len_app s1 s2 : len (s1 +:+ s2) = (len s1 + len s2)%nat.
Proof. rewrite !len_bytes, bytes_app, length_app. reflexivity. Qed.

Lemma digit_val_nonneg c : is_digit c = true -> 0 <= digit_val c <= 9.
Proof.
  unfold is_digit, digit_val. intros Hd. apply andb_prop in Hd as [H1 H2].
  apply Nat.leb_le in H1, H2. lia.
Qed.

End GoStrFacts.

(** ** Atoi *)

Section AtoiFacts.
Import strconv.

Lemma parse_digits_nonneg s n : 0 <= n -> 0 <= fst (parse_digits s n).
Proof.
  revert n. induction s as [|c s IH]; intros n Hn; simpl; [exact Hn|].
  destruct (GoStr.is_digit c) eqn:Hc; simpl; [|lia].
  pose proof (digit_val_nonneg c Hc).
  destruct (MaxUint64 <? n * 10 + GoStr.digit_val c); simpl.
  - unfold MaxUint64. lia.
  - apply IH. lia.
Qed.

(** A text that does not start with a minus sign never parses to a
    negative number, whether the parse succeeds or not. *)
Lemma Atoi_nonneg s :
  (forall c r, s = String c r -> c <> "-"%char) -> 0 <= fst (Atoi s).
Proof.
  intros Hs. destruct s as [|c r]; simpl; [lia|].
  assert (Hc : Ascii.eqb c "-" = false).
  { apply Ascii.eqb_neq. eapply Hs. reflexivity. }
  rewrite Hc. simpl.
  set (s' := if Ascii.eqb c "+" then r else String c r).
  assert (Hu : 0 <= fst (ParseUint s')).
  { unfold ParseUint. destruct s'; simpl; [lia|]. apply (parse_digits_nonneg (String _ _)). lia. }
  destruct (ParseUint s') as [un [[]|]]; simpl in *; try lia.
  - destruct (GoInt.MaxInt <? un); simpl; [unfold GoInt.MaxInt, GoInt.bits; lia | exact Hu].
  - destruct (GoInt.MaxInt <? un); simpl; [unfold GoInt.MaxInt, GoInt.bits; lia | exact Hu].
Qed.

End AtoiFacts.

(** ** The copy-suffix patterns *)

Section PatternFacts.
Import GoStr.

Lemma span_digits_spec r ds rest :
  span_digits r = (ds, rest) ->
  r = ds ++ rest /\ Forall (fun c => is_digit c = true) ds.
Proof.
  revert ds rest. induction r as [|c r IH]; intros ds rest Hs; simpl in Hs.
  - inversion Hs; subst. split; [reflexivity | constructor].
  - destruct (is_digit c) eqn:Hc.
    + destruct (span_digits r) as [ds' rest'] eqn:Hr. inversion Hs; subst.
      destruct (IH ds' rest eq_refl) as [-> Hall].
      split; [reflexivity | constructor; assumption].
    + inversion Hs; subst. split; [reflexivity | constructor].
Qed.

(** A match of [paren_number] is a suffix [ (ds)] with [ds] a non-empty
    run of decimal digits. *)
Lemma paren_number_spec s s0 ds :
  paren_number s = Some (s0, ds) ->
  s = s0 +:+ " (" +:+ ds +:+ ")"
  /\ bytes ds <> []
  /\ Forall (fun c => is_digit c = true) (bytes ds).
Proof.
  unfold paren_number. intros Hp.
  destruct (rev (bytes s)) as [|c r1] eqn:Hrev; [discriminate|].
  destruct (Ascii.eqb c ")") eqn:Hc; [|discriminate].
  apply Ascii.eqb_eq in Hc. subst c.
  destruct (span_digits r1) as [ds' rest] eqn:Hspan.
  destruct ds' as [|d ds']; [discriminate|].
  destruct rest as [|o [|sp r2]]; try discriminate.
  destruct (Ascii.eqb o "(") eqn:Ho; [|discriminate].
  destruct (Ascii.eqb sp " ") eqn:Hsp; [|discriminate].
  apply Ascii.eqb_eq in Ho, Hsp. subst o sp. simpl in Hp.
  inversion Hp; subst s0 ds. clear Hp.
  apply span_digits_spec in Hspan as [-> Hall].
  split; [|split].
  - apply bytes_inj. rewrite !bytes_app, !bytes_of_bytes.
    rewrite <- (rev_involutive (bytes s)), Hrev. simpl.
    rewrite !rev_app_distr. simpl. rewrite <- !app_assoc. reflexivity.
  - rewrite bytes_of_bytes. simpl. intros E. apply app_eq_nil in E as [_ E]. discriminate.
  - rewrite bytes_of_bytes. change (rev ds' ++ [d]) with (rev (d :: ds')).
    apply Forall_rev. exact Hall.
Qed.

Lemma digits_Atoi_nonneg ds :
  Forall (fun c => is_digit c = true) (bytes ds) -> 0 <= fst (strconv.Atoi ds).
Proof.
  intros Hall. apply Atoi_nonneg. intros c r -> Hc. subst c.
  simpl in Hall. inversion Hall as [|? ? Hd _]; subst. discriminate Hd.
Qed.

(** What a match of the platform-copy pattern looks like. *)
Lemma windowsPattern_spec s w0 w1 :
  windowsPattern s = Some (w0, w1) ->
  (exists pre, s = pre +:+ w0) /\ (0 < len w0)%nat /\ 0 <= fst (strconv.Atoi w1).
Proof.
  unfold windowsPattern. intros Hw.
  destruct (HasSuffix s " - Copy") eqn:Hs.
  - inversion Hw; subst. split; [apply HasSuffix_true; exact Hs|].
    split; [simpl; lia | simpl; lia].
  - destruct (paren_number s) as [[s0 ds]|] eqn:Hp; [|discriminate].
    destruct (HasSuffix s0 " - Copy") eqn:Hs0; [|discriminate].
    inversion Hw; subst w0 w1. clear Hw.
    apply paren_number_spec in Hp as (-> & _ & Hall).
    apply HasSuffix_true in Hs0 as [pre ->].
    split; [|split].
    + exists pre. apply bytes_inj. rewrite !bytes_app. simpl.
      rewrite <- !app_assoc. reflexivity.
    + rewrite len_app. simpl. lia.
    + apply digits_Atoi_nonneg. exact Hall.
Qed.

(** What a match of the browser-copy pattern looks like. *)
Lemma chromePattern_spec s c0 c1 :
  chromePattern s = Some (c0, c1) ->
  (exists pre, s = pre +:+ c0) /\ (0 < len c0)%nat /\ 0 <= fst (strconv.Atoi c1).
Proof.
  unfold chromePattern. intros Hc.
  destruct (paren_number s) as [[s0 ds]|] eqn:Hp; [|discriminate].
  inversion Hc; subst c0 c1. clear Hc.
  apply paren_number_spec in Hp as (-> & _ & Hall).
  split; [|split].
  - exists s0. reflexivity.
  - rewrite len_app. simpl. lia.
  - apply digits_Atoi_nonneg. exact Hall.
Qed.

Lemma TrimSuffix_shorter s suffix :
  (exists pre, s = pre +:+ suffix) -> (0 < len suffix)%nat ->
  (len (TrimSuffix s suffix) < len s)%nat.
Proof.
  intros [pre ->] Hpos. rewrite TrimSuffix_app, len_app. lia.
Qed.

Lemma span_digits_app l c rest :
  Forall (fun c => is_digit c = true) l -> is_digit c = false ->
  span_digits (l ++ c :: rest) = (l, c :: rest).
Proof.
  intros Hall Hc. induction Hall as [|d l Hd Hl IH]; simpl.
  - rewrite Hc. reflexivity.
  - rewrite Hd, IH. reflexivity.
Qed.

(** Every text that ends with a parenthesised run of digits after a space
    is matched, with that run. *)
Lemma paren_number_complete pre ds :
  bytes ds <> [] -> Forall (fun c => is_digit c = true) (bytes ds) ->
  paren_number (pre +:+ " (" +:+ ds +:+ ")") = Some (pre, ds).
Proof.
  intros Hne Hall. unfold paren_number.
  rewrite !bytes_app. simpl.
  rewrite !rev_app_distr. simpl. rewrite rev_app_distr. simpl.
  repeat (rewrite <- app_assoc; simpl).
  rewrite (span_digits_app (rev (bytes ds)) "(" (" "%char :: rev (bytes pre)));
    [|apply Forall_rev; exact Hall|reflexivity].
  destruct (rev (bytes ds)) as [|d l] eqn:Hrev.
  - exfalso. apply Hne. rewrite <- (rev_involutive (bytes ds)), Hrev. reflexivity.
  - cbv beta iota. rewrite !Ascii.eqb_refl. cbn [andb].
    rewrite <- Hrev, !rev_involutive, !of_bytes_bytes. reflexivity.
Qed.

(** A number with a minus sign is matched by neither pattern. *)
Lemma paren_number_negative pre ds :
  Forall (fun c => is_digit c = true) (bytes ds) ->
  paren_number (pre +:+ "(-" +:+ ds +:+ ")") = None.
Proof.
  intros Hall. unfold paren_number.
  rewrite !bytes_app. simpl.
  rewrite !rev_app_distr. simpl. rewrite rev_app_distr. simpl.
  repeat (rewrite <- app_assoc; simpl).
  rewrite (span_digits_app (rev (bytes ds)) "-" ("("%char :: rev (bytes pre)));
    [|apply Forall_rev; exact Hall|reflexivity].
  destruct (rev (bytes ds)) as [|d l]; reflexivity.
Qed.

Lemma HasSuffix_last_byte s c suffix d :
  c <> d -> HasSuffix (s +:+ String c "") (suffix +:+ String d "") = false.
Proof.
  intros Hcd. destruct (HasSuffix _ _) eqn:Hs; [|reflexivity].
  exfalso. apply HasSuffix_true in Hs as [pre Hpre].
  apply (f_equal bytes) in Hpre. rewrite !bytes_app in Hpre. simpl in Hpre.
  rewrite app_assoc in Hpre. apply app_inj_tail in Hpre as [_ E]. congruence.
Qed.

Lemma windowsPattern_negative pre ds :
  Forall (fun c => is_digit c = true) (bytes ds) ->
  windowsPattern (pre +:+ "(-" +:+ ds +:+ ")") = None.
Proof.
  intros Hall. unfold windowsPattern.
  rewrite paren_number_negative by exact Hall.
  replace (pre +:+ "(-" +:+ ds +:+ ")") with ((pre +:+ "(-" +:+ ds) +:+ String ")" "").
  2:{ apply bytes_inj. rewrite !bytes_app. rewrite <- !app_assoc. reflexivity. }
  rewrite (HasSuffix_last_byte _ ")" " - Cop" "y"); [reflexivity | discriminate].
Qed.

Lemma chromePattern_negative pre ds :
  Forall (fun c => is_digit c = true) (bytes ds) ->
  chromePattern (pre +:+ "(-" +:+ ds +:+ ")") = None.
Proof.
  intros Hall. unfold chromePattern. rewrite paren_number_negative by exact Hall.
  reflexivity.
Qed.

(** The browser-copy pattern matches every text that ends with a space and
    a parenthesised run of digits. *)
Lemma chromePattern_complete pre ds :
  bytes ds <> [] -> Forall (fun c => is_digit c = true) (bytes ds) ->
  chromePattern (pre +:+ " (" +:+ ds +:+ ")") = Some (" (" +:+ ds +:+ ")", ds).
Proof.
  intros Hne Hall. unfold chromePattern.
  rewrite paren_number_complete by assumption. reflexivity.
Qed.

(** The platform-copy pattern matches every text that ends with the marker,
    alone or followed by a parenthesised run of digits. *)
Lemma windowsPattern_complete pre :
  windowsPattern (pre +:+ " - Copy") = Some (" - Copy", "")
  /\ (forall ds, bytes ds <> [] -> Forall (fun c => is_digit c = true) (bytes ds) ->
        windowsPattern (pre +:+ " - Copy (" +:+ ds +:+ ")")
        = Some (" - Copy (" +:+ ds +:+ ")", ds)).
Proof.
  split.
  - unfold windowsPattern. rewrite HasSuffix_app. reflexivity.
  - intros ds Hne Hall. unfold windowsPattern.
    replace (pre +:+ " - Copy (" +:+ ds +:+ ")")
      with (((pre +:+ " - Copy") +:+ " (" +:+ ds) +:+ String ")" "").
    2:{ apply bytes_inj. rewrite !bytes_app. simpl. rewrite <- !app_assoc. reflexivity. }
    rewrite (HasSuffix_last_byte _ ")" " - Cop" "y") by discriminate.
    replace (((pre +:+ " - Copy") +:+ " (" +:+ ds) +:+ String ")" "")
      with ((pre +:+ " - Copy") +:+ " (" +:+ ds +:+ ")").
    2:{ apply bytes_inj. rewrite !bytes_app. simpl. rewrite <- !app_assoc. reflexivity. }
    rewrite paren_number_complete by assumption.
    rewrite HasSuffix_app. reflexivity.
Qed.

End PatternFacts.

(** ** SplitFileBaseName *)

Section SplitFacts.
Import GoStr.

(** The loop returns once the fuel exceeds the length of the prefix: every
    match strips at least one byte, and no matched number is negative. *)
Lemma split_loop_total fuel prefix counter :
  (len prefix < fuel)%nat ->
  exists p c, split_loop fuel prefix counter = Done (p, c).
Proof.
  revert prefix counter.
  induction fuel as [|fuel IH]; intros prefix counter Hlt; [lia|].
  simpl.
  destruct (windowsPattern prefix) as [[w0 w1]|] eqn:Hw.
  - apply windowsPattern_spec in Hw as (Hsuf & Hpos & Hn).
    pose proof (TrimSuffix_shorter prefix w0 Hsuf Hpos) as Hsh.
    destruct (fst (strconv.Atoi w1) =? 0); [apply IH; lia|].
    destruct (fst (strconv.Atoi w1) =? 1); [apply IH; lia|].
    destruct (fst (strconv.Atoi w1) <? 0) eqn:Hneg; [lia|].
    apply IH. lia.
  - destruct (chromePattern prefix) as [[c0 c1]|] eqn:Hc.
    + apply chromePattern_spec in Hc as (Hsuf & Hpos & Hn).
      pose proof (TrimSuffix_shorter prefix c0 Hsuf Hpos) as Hsh.
      destruct (fst (strconv.Atoi c1) =? 0); [apply IH; lia|].
      destruct (fst (strconv.Atoi c1) <? 0) eqn:Hneg; [lia|].
      apply IH. lia.
    + eauto.
Qed.

Lemma split_parse_total name :
  exists prefix counter,
    split_parse (S (len name)) name = Done (prefix, counter, Ext name).
Proof.
  unfold split_parse.
  destruct (split_loop_total (S (len name))
              (slice_to name (len name - len (Ext name))) 0) as (p & c & ->).
  - rewrite len_slice_to. lia.
  - eauto.
Qed.

(** [SplitFileBaseName] returns on every name: it neither panics nor loops
    forever. *)
Lemma SplitFileBaseName_total name :
  exists prefix counter ext, SplitFileBaseName name = Done (prefix, counter, ext).
Proof.
  unfold SplitFileBaseName, SplitFileBaseName_fuel.
  destruct (split_parse_total name) as (p & c & ->).
  destruct (split_defer name (p, c, Ext name)) as [[p' c'] e']. eauto.
Qed.

End SplitFacts.

(** C6: the literal filename cases of the specification; and no number
    with a minus sign matches either copy-suffix pattern, whatever precedes
    it and whatever its digits. *)
Theorem SplitFileBaseName_cases :
  SplitFileBaseName "flowers.jpg" = Done ("flowers", 0, ".jpg")
  /\ SplitFileBaseName "flowers (1).jpg" = Done ("flowers", 1, ".jpg")
  /\ SplitFileBaseName "flowers - Copy (1).jpg" = Done ("flowers", 2, ".jpg")
  /\ SplitFileBaseName "flowers - Copy (3) - Copy.jpg" = Done ("flowers", 4, ".jpg")
  /\ SplitFileBaseName "flowers (2) - Copy (4) - Copy - Copy.jpg"
     = Done ("flowers", 8, ".jpg")
  /\ SplitFileBaseName ".env" = Done ("", 0, ".env")
  /\ SplitFileBaseName "flowers - Copy (-1).jpg" = Done ("flowers - Copy (-1)", 0, ".jpg")
  /\ (forall pre ds,
        Forall (fun c => GoStr.is_digit c = true) (GoStr.bytes ds) ->
        windowsPattern (pre +:+ "(-" +:+ ds +:+ ")") = None
        /\ chromePattern (pre +:+ "(-" +:+ ds +:+ ")") = None).
Proof.
  repeat split; try (vm_compute; reflexivity).
  - apply windowsPattern_negative. assumption.
  - apply chromePattern_negative. assumption.
Qed.

(** The remaining rows of the table of TestSplitBaseFilename. *)
Example TestSplitBaseFilename :
  map SplitFileBaseName
    [""; "flowers (0).jpg"; "flowers (2).jpg"; "flowers (3).jpg"; "flowers).jpg";
     "flowers().jpg"; "flowers(1).jpg"; "flowers - Copy.jpg";
     "flowers - Copy (-2).jpg"; "flowers - Copy (2).jpg"; "flowers - Copy (3).jpg";
     "flowers - Copy (4) - Copy.jpg"; "flowers - Copy (4) - Copy - Copy.jpg";
     "env"; "env."; " - Copy.env"; "- Copy.env"; " (1).foo"; " (1)"; " - Copy"]
  = map Done
    [("", 0, ""); ("flowers", 1, ".jpg"); ("flowers", 2, ".jpg");
     ("flowers", 3, ".jpg"); ("flowers)", 0, ".jpg"); ("flowers()", 0, ".jpg");
     ("flowers(1)", 0, ".jpg"); ("flowers", 1, ".jpg");
     ("flowers - Copy (-2)", 0, ".jpg"); ("flowers", 2, ".jpg");
     ("flowers", 3, ".jpg"); ("flowers", 5, ".jpg"); ("flowers", 6, ".jpg");
     ("env", 0, ""); ("env", 0, "."); ("", 1, ".env"); ("- Copy", 0, ".env");
     ("", 1, ".foo"); (" (1)", 0, ""); (" - Copy", 0, "")].
Proof. vm_compute. reflexivity. Qed.

(** C7 (as amended): the parse is discarded, and the original name returned
    as prefix with counter 0 and empty extension, exactly when the prefix left
    after the copy suffixes were stripped is empty and the extension is
    empty; in every other case the parse is returned as it is. The function
    returns on every name. *)
Theorem SplitFileBaseName_guard name :
  exists prefix counter,
    split_parse (S (GoStr.len name)) name = Done (prefix, counter, GoStr.Ext name)
    /\ (prefix = "" /\ GoStr.Ext name = "" ->
        SplitFileBaseName name = Done (name, 0, ""))
    /\ (prefix <> "" \/ GoStr.Ext name <> "" ->
        SplitFileBaseName name = Done (prefix, counter, GoStr.Ext name)).
Proof.
  destruct (split_parse_total name) as (p & c & Hp).
  exists p, c. split; [exact Hp|].
  unfold SplitFileBaseName, SplitFileBaseName_fuel. rewrite Hp. unfold split_defer.
  split.
  - intros [-> ->]. reflexivity.
  - intros Hne.
    destruct (String.eqb p "") eqn:E1; [|reflexivity].
    destruct (String.eqb (GoStr.Ext name) "") eqn:E2; [|reflexivity].
    apply String.eqb_eq in E1, E2. destruct Hne; contradiction.
Qed.

Lemma SplitFileBaseName_guard_witness :
  SplitFileBaseName " (1)" = Done (" (1)", 0, "")
  /\ SplitFileBaseName " (1).foo" = Done ("", 1, ".foo").
Proof.
  split.
  - destruct (SplitFileBaseName_guard " (1)") as (p & c & Hp & Hdiscard & _).
    apply Hdiscard. vm_compute in Hp. inversion Hp. split; reflexivity.
  - destruct (SplitFileBaseName_guard " (1).foo") as (p & c & Hp & _ & Hkeep).
    vm_compute in Hp. inversion Hp; subst p c.
    rewrite Hkeep; [reflexivity | right; discriminate].
Defined.

(** C7 as stated fails: for the name " (1)" the extension split leaves the
    non-empty prefix " (1)", the loop strips it to the empty prefix with
    counter 1, and the parse is discarded all the same. *)
Lemma SplitFileBaseName_guard_counterexample :
  GoStr.Ext " (1)" = ""
  /\ GoStr.slice_to " (1)" (GoStr.len " (1)" - GoStr.len (GoStr.Ext " (1)")) = " (1)"
  /\ split_parse (S (GoStr.len " (1)")) " (1)" = Done ("", 1, "")
  /\ SplitFileBaseName " (1)" = Done (" (1)", 0, "")
  /\ SplitFileBaseName " (1)" <> split_parse (S (GoStr.len " (1)")) " (1)".
Proof. repeat split; try (vm_compute; reflexivity). vm_compute. discriminate. Qed.

(** C8: matched digits that overflow the integer type are not counted as
    N = 0. [Atoi] returns the largest int with its range error, the error is
    dropped, and the whole of it is added to the counter; a second such
    suffix wraps the counter below zero. No call panics. *)
Theorem SplitFileBaseName_overflowing_digits :
  chromePattern "flowers (99999999999999999999)"
    = Some (" (99999999999999999999)", "99999999999999999999")
  /\ strconv.Atoi "99999999999999999999" = (9223372036854775807, Some strconv.ErrRange)
  /\ SplitFileBaseName "flowers (99999999999999999999).jpg"
     = Done ("flowers", 9223372036854775807, ".jpg")
  /\ SplitFileBaseName "flowers - Copy (99999999999999999999).jpg"
     = Done ("flowers", 9223372036854775807, ".jpg")
  /\ SplitFileBaseName "a (99999999999999999999) (99999999999999999999).jpg"
     = Done ("a", -2, ".jpg").
Proof. repeat split; vm_compute; reflexivity. Qed.

(** ** Loops and the skip matrix *)

Section LoopFacts.
Context {St : Type}.

(** The invariant rule of the counted loop: [I] holds between iterations,
    [Q] of the state of a loop that halted. *)
Lemma for_loop_inv (body : Z -> St -> St * option halt)
    (I : Z -> St -> Prop) (Q : St -> Prop) k i st :
  (forall j s, i <= j < i + Z.of_nat k -> I j s ->
     match body j s with
     | (s', None) => I (j + 1) s'
     | (s', Some _) => Q s'
     end) ->
  I i st ->
  match for_loop body k i st with
  | (s', None) => I (i + Z.of_nat k) s'
  | (s', Some _) => Q s'
  end.
Proof.
  revert i st. induction k as [|k IH]; intros i st Hbody Hi; simpl.
  - replace (i + Z.of_nat 0) with i by lia. exact Hi.
  - pose proof (Hbody i st ltac:(lia) Hi) as Hstep.
    destruct (body i st) as [s' [why|]]; [exact Hstep|].
    replace (i + Z.of_nat (S k)) with ((i + 1) + Z.of_nat k) by lia.
    apply IH; [|exact Hstep].
    intros j s Hj. apply Hbody. lia.
Qed.

Lemma for_range_inv (body : Z -> St -> St * option halt)
    (I : Z -> St -> Prop) (Q : St -> Prop) lo hi st :
  lo <= hi ->
  (forall j s, lo <= j < hi -> I j s ->
     match body j s with
     | (s', None) => I (j + 1) s'
     | (s', Some _) => Q s'
     end) ->
  I lo st ->
  match for_range body lo hi st with
  | (s', None) => I hi s'
  | (s', Some _) => Q s'
  end.
Proof.
  intros Hle Hbody Hi. unfold for_range.
  pose proof (for_loop_inv body I Q (Z.to_nat (hi - lo)) lo st) as H.
  replace (lo + Z.of_nat (Z.to_nat (hi - lo))) with hi in H by lia.
  apply H; [|exact Hi]. intros j s Hj. apply Hbody. lia.
Qed.

End LoopFacts.

Section SkipMatrixFacts.

Lemma skip_set_get m i m' : skip_set m i = Some m' -> skip_get m' i = Some true.
Proof.
  unfold skip_set, skip_get. intros Hs.
  destruct ((0 <=? i) && (i <? Z.of_nat (length m))) eqn:Hr; [|discriminate].
  apply andb_prop in Hr as [H0 H1]. apply Z.leb_le in H0. apply Z.ltb_lt in H1.
  inversion Hs; subst m'.
  destruct (i <? 0) eqn:Hneg; [apply Z.ltb_lt in Hneg; lia|].
  apply list_lookup_insert_eq. lia.
Qed.

(** A slot once marked stays marked: the pass only ever writes [true]. *)
Lemma skip_set_keeps m i m' j :
  skip_set m i = Some m' -> skip_get m j = Some true -> skip_get m' j = Some true.
Proof.
  unfold skip_set, skip_get. intros Hs Hg.
  destruct ((0 <=? i) && (i <? Z.of_nat (length m))) eqn:Hr; [|discriminate].
  apply andb_prop in Hr as [H0 H1]. apply Z.leb_le in H0. apply Z.ltb_lt in H1.
  inversion Hs; subst m'.
  destruct (j <? 0) eqn:Hneg; [discriminate|]. apply Z.ltb_ge in Hneg.
  destruct (decide (Z.to_nat i = Z.to_nat j)) as [E|NE].
  - rewrite E. apply list_lookup_insert_eq. apply lookup_lt_Some in Hg. exact Hg.
  - rewrite list_lookup_insert_ne by exact NE. exact Hg.
Qed.

Lemma skip_set_length m i m' : skip_set m i = Some m' -> length m' = length m.
Proof.
  unfold skip_set. destruct ((0 <=? i) && (i <? Z.of_nat (length m))); [|discriminate].
  intros Hs. inversion Hs. apply length_insert.
Qed.

Lemma mark_loop_keeps n r k c m m' j :
  mark_loop n r k c m = Some m' -> skip_get m j = Some true -> skip_get m' j = Some true.
Proof.
  revert c m. induction k as [|k IH]; intros c m Hm Hg; simpl in Hm.
  - inversion Hm; subst. exact Hg.
  - destruct (skip_set m (Offset n r c)) as [m1|] eqn:Hs; [|discriminate].
    eapply IH; [exact Hm|]. eapply skip_set_keeps; eauto.
Qed.

Lemma mark_loop_marks n r k c m m' c' :
  mark_loop n r k c m = Some m' -> c <= c' < c + Z.of_nat k ->
  skip_get m' (Offset n r c') = Some true.
Proof.
  revert c m. induction k as [|k IH]; intros c m Hm Hc; simpl in Hm; [lia|].
  destruct (skip_set m (Offset n r c)) as [m1|] eqn:Hs; [|discriminate].
  destruct (decide (c' = c)) as [->|NE].
  - eapply mark_loop_keeps; [exact Hm|]. eapply skip_set_get; eauto.
  - eapply IH; [exact Hm|]. lia.
Qed.

Lemma mark_row_keeps n r from m m' j :
  mark_row n r from m = Some m' -> skip_get m j = Some true -> skip_get m' j = Some true.
Proof. apply mark_loop_keeps. Qed.

Lemma mark_row_marks n r from m m' c' :
  mark_row n r from m = Some m' -> from <= c' < n ->
  skip_get m' (Offset n r c') = Some true.
Proof.
  unfold mark_row. intros Hm Hc. eapply mark_loop_marks; [exact Hm|]. lia.
Qed.

End SkipMatrixFacts.

(** ** The invariant of a pass *)

Lemma ForallOrdPairs_snoc {A} (R : A -> A -> Prop) l x :
  ForallOrdPairs R l -> Forall (fun y => R y x) l -> ForallOrdPairs R (l ++ [x]).
Proof.
  induction 1 as [|a l Ha Hl IH]; intros Hx; simpl.
  - constructor; constructor.
  - inversion Hx; subst. constructor.
    + apply Forall_app. split; [exact Ha | constructor; [assumption | constructor]].
    + apply IH. assumption.
Qed.

Lemma decided_snoc tr c : decided (tr ++ [c]) = decided tr ++ decided_by c.
Proof.
  unfold decided. rewrite map_app, concat_app. simpl. rewrite app_nil_r. reflexivity.
Qed.

Section PassInvariant.
Context {T S : Type}.
Variable compareFn : CompareFuncContext T S.
Variable depth : nat.
Variable input : list T.

Let n : Z := n_of input.

Lemma before_mono row col row' col' c :
  row < row' \/ (row = row' /\ col <= col') -> before n row col c -> before n row' col' c.
Proof. unfold before. intros Hle [Hr Hb]. split; [exact Hr | lia]. Qed.

Lemma Inv_mono row col row' col' (st : pass T S) :
  row < row' \/ (row = row' /\ col <= col') -> Inv n row col st -> Inv n row' col' st.
Proof.
  intros Hle [Hb Hs Hm Hsd Hd Hr]. split; try assumption.
  eapply Forall_impl; [exact Hb|]. intros c. apply before_mono. exact Hle.
Qed.

Lemma row_marked_keeps m m' c :
  (forall j, skip_get m j = Some true -> skip_get m' j = Some true) ->
  row_marked n m c -> row_marked n m' c.
Proof.
  intros Hk [HL HR].
  split; intros Hd c' Hc'; apply Hk; [apply HL | apply HR]; assumption.
Qed.

(** A call that chose nothing marks nothing. *)
Lemma row_marked_vacuous m row col ret :
  (forall d, ret = Done (d, None) -> d <> Sel.Left /\ d <> Sel.Right) ->
  row_marked n m (mkCall row col ret).
Proof.
  intros Hret. split; intros Hd; unfold chose in Hd; simpl in Hd;
    destruct (Hret _ Hd) as [? ?]; congruence.
Qed.

(** A pair that reaches the compare function is not in the marked rest of a
    decided row: no decided call forbids it. *)
Lemma unmarked_no_recompare row col m c1 ret :
  0 <= row < col -> col < n ->
  skip_get m (Offset n row col) = Some false ->
  before n row col c1 -> row_marked n m c1 ->
  no_recompare c1 (mkCall row col ret).
Proof.
  intros Hrow Hcol Hget [[Hr1 Hc1] Hb] [HL HR]. simpl.
  split; intros Hd; simpl.
  - destruct (decide (call_row c1 = row)) as [E|NE].
    + specialize (HL Hd col ltac:(lia)). rewrite E in HL. congruence.
    + lia.
  - intros E. specialize (HR Hd col ltac:(lia)). rewrite <- E in HR. congruence.
Qed.

Lemma before_scan_lt row col c1 ret :
  before n row col c1 -> scan_lt c1 (mkCall row col ret).
Proof. unfold before, scan_lt. simpl. lia. Qed.

(** One pair preserves the invariant; a pass that halts leaves a sound
    trace behind. *)
Lemma compare_pair_inv row col (st : pass T S) :
  0 <= row < col -> col < n -> Inv n row col st ->
  match compare_pair compareFn depth input row col st with
  | (st', None) => Inv n row (col + 1) st'
  | (st', Some _) => skip_sound (calls st')
  end.
Proof.
  intros Hrow Hcol HI. pose proof HI as [Hb Hs Hm Hsd Hd Hr].
  unfold compare_pair. fold n.
  destruct (skip_get (skipMatrix st) (Offset n row col)) as [skip|] eqn:Hget;
    [|exact Hsd].
  destruct (item input row) as [l|]; [|exact Hsd].
  destruct (item input col) as [r|]; [|exact Hsd].
  destruct skip.
  { (* marked: skipped *)
    eapply Inv_mono; [|split; simpl; eassumption]. lia. }
  clear HI.
  destruct (compareFn (cmp_state st) l r) as [ret s']; simpl.
  set (c := mkCall row col ret).
  assert (Hb' : Forall (before n row (col + 1)) (calls st ++ [c])).
  { apply Forall_app. split.
    - eapply Forall_impl; [exact Hb|]. intros c1. apply before_mono. lia.
    - constructor; [|constructor]. unfold before, c. simpl. lia. }
  assert (Hs' : ForallOrdPairs scan_lt (calls st ++ [c])).
  { apply ForallOrdPairs_snoc; [exact Hs|].
    eapply Forall_impl; [exact Hb|]. intros c1. apply before_scan_lt. }
  assert (Hsd' : skip_sound (calls st ++ [c])).
  { apply ForallOrdPairs_snoc; [exact Hsd|].
    rewrite Forall_forall in Hb, Hm. apply Forall_forall. intros c1 Hin.
    eapply unmarked_no_recompare; eauto. }
  destruct ret as [[dup err]|msg|]; simpl; [|exact Hsd'|exact Hsd'].
  destruct err as [e|].
  { (* the comparison failed *)
    destruct (Error depth e); simpl; [|exact Hsd'|exact Hsd'].
    split; simpl; try assumption.
    - apply Forall_app. split; [exact Hm|].
      constructor; [|constructor]. apply row_marked_vacuous. intros d Hd'. discriminate Hd'.
    - rewrite decided_snoc, Hd. unfold decided_by, c. simpl.
      destruct dup; rewrite app_nil_r; reflexivity. }
  unfold record_duplicate. fold n. destruct dup as [| | |v]; simpl.
  - (* None *)
    split; simpl; try assumption.
    + apply Forall_app. split; [exact Hm|].
      constructor; [|constructor]. apply row_marked_vacuous.
      intros d Hd'. inversion Hd'; subst. split; discriminate.
    + rewrite decided_snoc, Hd. unfold decided_by, c. simpl.
      rewrite app_nil_r. reflexivity.
  - (* Left *)
    destruct (mark_row n row (col + 1) (skipMatrix st)) as [m|] eqn:Hmark; simpl;
      [|exact Hsd'].
    split; simpl; try assumption.
    + apply Forall_app. split.
      * eapply Forall_impl; [exact Hm|]. intros c1. apply row_marked_keeps.
        intros j. eapply mark_row_keeps; eauto.
      * constructor; [|constructor].
        split; intros Hd'; [|unfold chose in Hd'; simpl in Hd'; discriminate Hd'].
        intros c' Hc'. simpl in Hc'. eapply mark_row_marks; [exact Hmark|]. lia.
    + rewrite decided_snoc, Hd. reflexivity.
    + apply Forall_app. split; [exact Hr|]. constructor; [lia|constructor].
  - (* Right *)
    destruct (mark_row n col (col + 1) (skipMatrix st)) as [m|] eqn:Hmark; simpl;
      [|exact Hsd'].
    split; simpl; try assumption.
    + apply Forall_app. split.
      * eapply Forall_impl; [exact Hm|]. intros c1. apply row_marked_keeps.
        intros j. eapply mark_row_keeps; eauto.
      * constructor; [|constructor].
        split; intros Hd'; [unfold chose in Hd'; simpl in Hd'; discriminate Hd'|].
        intros c' Hc'. simpl in Hc'. eapply mark_row_marks; [exact Hmark|]. lia.
    + rewrite decided_snoc, Hd. reflexivity.
    + apply Forall_app. split; [exact Hr|]. constructor; [lia|constructor].
  - (* an invalid selection panics *)
    exact Hsd'.
Qed.

Lemma scan_row_inv row (st : pass T S) :
  0 <= row < n - 1 -> Inv n row (row + 1) st ->
  match scan_row compareFn depth input row st with
  | (st', None) => Inv n (row + 1) (row + 1 + 1) st'
  | (st', Some _) => skip_sound (calls st')
  end.
Proof.
  intros Hrow HI. unfold scan_row. fold n.
  pose proof (for_range_inv (compare_pair compareFn depth input row)
                (Inv n row) (fun s => skip_sound (calls s)) (row + 1) n st
                ltac:(lia)) as H.
  destruct (for_range (compare_pair compareFn depth input row) (row + 1) n st)
    as [st' [why|]].
  - apply H; [|exact HI]. intros j s Hj. apply compare_pair_inv; lia.
  - eapply Inv_mono; [|apply H; [|exact HI]].
    + lia.
    + intros j s Hj. apply compare_pair_inv; lia.
Qed.

(** The invariant at the end of a pass that returns; the soundness of the
    trace of one that does not. *)
Lemma pass_inv s0 :
  match IndexesContext_pass compareFn depth input s0 with
  | (st, None) => exists row, Inv n row (row + 1) st
  | (st, Some _) => skip_sound (calls st)
  end.
Proof.
  unfold IndexesContext_pass. fold n.
  set (st0 := mkPass _ _ _ _ _).
  assert (H0 : Inv n 0 (0 + 1) st0).
  { split; simpl; try constructor. }
  destruct (makeslice_panics (matrix_size input)); [constructor|].
  destruct (Z.le_gt_cases 0 (n - 1)) as [Hn|Hn].
  - pose proof (for_range_inv (scan_row compareFn depth input)
                  (fun row => Inv n row (row + 1)) (fun s => skip_sound (calls s))
                  0 (n - 1) st0 Hn) as H.
    destruct (for_range (scan_row compareFn depth input) 0 (n - 1) st0)
      as [st' [why|]].
    + apply H; [|exact H0]. intros j s Hj. apply scan_row_inv. lia.
    + exists (n - 1). apply H; [|exact H0]. intros j s Hj. apply scan_row_inv. lia.
  - unfold for_range. replace (Z.to_nat (n - 1 - 0)) with 0%nat by lia. simpl.
    exists 0. exact H0.
Qed.

End PassInvariant.

(** ** A pass returns *)

(** The length of the skip matrix is computed without wrap-around as long
    as n * n fits an [int]. *)
Lemma matrix_size_formula {T : Type} (input : list T) :
  n_of input <= 3037000500 ->
  matrix_size input = n_of input * (n_of input - 1) / 2.
Proof.
  intros Hn. unfold matrix_size. set (n := n_of input) in *.
  assert (H0 : 0 <= n) by (subst n; unfold n_of; lia).
  destruct (decide (n = 0)) as [->|Hpos]; [reflexivity|].
  pose proof (triangle_fits (n - 1)) as Ht.
  unfold GoInt.add in Ht at 1 2 3.
  replace (n - 1 + 1) with n in Ht by lia.
  rewrite (wrap_small n) in Ht.
  2:{ unfold GoInt.in_range, GoInt.MinInt, GoInt.MaxInt, GoInt.bits. lia. }
  rewrite Ht by (unfold Offset_max_n; lia).
  f_equal. lia.
Qed.

Lemma matrix_size_exact {T : Type} (input : list T) :
  n_of input <= IndexesContext_max_n ->
  matrix_size input = n_of input * (n_of input - 1) / 2.
Proof.
  unfold IndexesContext_max_n. intros Hn. apply matrix_size_formula. lia.
Qed.

(** Past that number of items [make] panics, before any call of the compare
    function: the bound of [IndexesContext_max_n] is the last for which the
    pass can return. *)
Lemma IndexesContext_makeslice_limit {T S : Type}
    (compareFn : CompareFuncContext T S) (depth : nat) (input : list T) (s0 : S) :
  IndexesContext_max_n < n_of input <= 3037000500 ->
  IndexesContext compareFn depth input s0
    = Panic "runtime error: makeslice: len out of range"
  /\ calls (fst (IndexesContext_pass compareFn depth input s0)) = [].
Proof.
  unfold IndexesContext_max_n. intros Hn.
  unfold IndexesContext, IndexesContext_pass.
  rewrite matrix_size_formula by lia.
  assert (Hbig : makeslice_panics (n_of input * (n_of input - 1) / 2) = true).
  { unfold makeslice_panics, maxAlloc. apply orb_true_intro. right.
    apply Z.ltb_lt.
    assert (2 ^ 48 + 1 <= n_of input * (n_of input - 1) / 2); [|lia].
    apply Z.div_le_lower_bound; [lia | nia]. }
  rewrite Hbig. split; reflexivity.
Qed.

Section PassReturns.
Context {T S : Type}.
Variable compareFn : CompareFuncContext T S.
Variable depth : nat.
Variable input : list T.

Let n : Z := n_of input.

Hypothesis compare_ok : compare_returns compareFn depth.
Hypothesis n_small : n <= IndexesContext_max_n.

Lemma skip_get_in_range (m : list bool) row col :
  Z.of_nat (length m) = n * (n - 1) / 2 -> 0 <= row < col -> col < n ->
  exists b, skip_get m (Offset n row col) = Some b.
Proof using n_small.
  intros Hm Hrow Hcol.
  destruct (Offset_bijection_range n row col) as [Hlo Hhi];
    [unfold Offset_max_n, IndexesContext_max_n in *; lia | lia | lia |].
  unfold skip_get. destruct (Offset n row col <? 0) eqn:E; [apply Z.ltb_lt in E; lia|].
  destruct (lookup_lt_is_Some_2 m (Z.to_nat (Offset n row col))) as [b Hb]; [lia|].
  exists b. exact Hb.
Qed.

Lemma mark_loop_in_range r k c (m : list bool) :
  Z.of_nat (length m) = n * (n - 1) / 2 -> 0 <= r < c -> c + Z.of_nat k <= n ->
  exists m', mark_loop n r k c m = Some m' /\ length m' = length m.
Proof using n_small.
  revert c m. induction k as [|k IH]; intros c m Hm Hr Hc; simpl; [eauto|].
  destruct (Offset_bijection_range n r c) as [Hlo Hhi];
    [unfold Offset_max_n, IndexesContext_max_n in *; lia | lia | lia |].
  destruct (skip_set m (Offset n r c)) as [m1|] eqn:Hs.
  - pose proof (skip_set_length _ _ _ Hs) as Hl.
    destruct (IH (c + 1) m1) as (m' & Hm' & Hl'); [lia | lia | lia |].
    exists m'. split; [exact Hm' | lia].
  - unfold skip_set in Hs.
    destruct (Z.leb_spec 0 (Offset n r c)); [|lia].
    destruct (Z.ltb_spec (Offset n r c) (Z.of_nat (length m))); [discriminate|lia].
Qed.

Lemma mark_row_in_range r from (m : list bool) :
  Z.of_nat (length m) = n * (n - 1) / 2 -> 0 <= r < from -> from <= n ->
  exists m', mark_row n r from m = Some m' /\ length m' = length m.
Proof using n_small.
  intros Hm Hr Hfrom. unfold mark_row. apply mark_loop_in_range; lia.
Qed.

Lemma compare_pair_returns row col (st : pass T S) :
  0 <= row < col -> col < n ->
  Z.of_nat (length (skipMatrix st)) = n * (n - 1) / 2 ->
  match compare_pair compareFn depth input row col st with
  | (st', None) => Z.of_nat (length (skipMatrix st')) = n * (n - 1) / 2
  | (_, Some _) => False
  end.
Proof using compare_ok n_small.
  intros Hrow Hcol Hm. unfold compare_pair. fold n.
destruct (skip_get_in_range (skipMatrix st) row col Hm Hrow Hcol) as [b ->].
assert (Hitem : forall i, 0 <= i < n -> exists x, item input i = Some x).
{ intros i Hi. unfold item. destruct (Z.ltb_spec i 0); [lia|].
  apply lookup_lt_is_Some_2. subst n; unfold n_of in *; lia. }
destruct (Hitem row ltac:(lia)) as [l ->].
destruct (Hitem col ltac:(lia)) as [r ->].
destruct b; [exact Hm|].
destruct (compare_ok (cmp_state st) l r) as (d & err & s' & -> & Hd & He).
simpl. destruct err as [e|].
- destruct (He e eq_refl) as [msg ->]. simpl. exact Hm.
- unfold record_duplicate. fold n. destruct d as [| | |v]; simpl.
  + exact Hm.
  + destruct (mark_row_in_range row (col + 1) (skipMatrix st) Hm) as (m' & -> & Hl);
      [lia | lia |]. simpl. lia.
  + destruct (mark_row_in_range col (col + 1) (skipMatrix st) Hm) as (m' & -> & Hl);
      [lia | lia |]. simpl. lia.
  + exfalso. eapply Hd; reflexivity.
Qed.

(** With such a compare function, and a skip matrix that can be made, the
    pass runs to its end. *)
Lemma IndexesContext_pass_returns s0 :
  exists st, IndexesContext_pass compareFn depth input s0 = (st, None).
Proof using compare_ok n_small.
  unfold IndexesContext_pass. fold n.
  set (st0 := mkPass _ _ _ _ _).
  assert (Hsize : matrix_size input = n * (n - 1) / 2) by (apply matrix_size_exact; exact n_small).
  assert (Hn0 : 0 <= n) by (subst n; unfold n_of; lia).
  assert (Hpos : 0 <= n * (n - 1) / 2).
  { apply Z.div_pos; [|lia]. destruct (decide (n = 0)) as [->|]; [lia|nia]. }
  assert (H0 : Z.of_nat (length (skipMatrix st0)) = n * (n - 1) / 2).
  { subst st0. simpl. rewrite length_replicate, Hsize. lia. }
  assert (Hmake : makeslice_panics (matrix_size input) = false).
  { rewrite Hsize. unfold makeslice_panics, maxAlloc.
    assert (n * (n - 1) / 2 <= 2 ^ 48).
    { apply Z.div_le_upper_bound; [lia|].
      unfold IndexesContext_max_n in n_small. fold n in n_small. nia. }
    apply orb_false_intro; [apply Z.ltb_ge | apply Z.ltb_ge]; lia. }
  rewrite Hmake.
  pose proof (for_loop_inv (scan_row compareFn depth input)
                (fun _ s => Z.of_nat (length (skipMatrix s)) = n * (n - 1) / 2)
                (fun _ => False) (Z.to_nat (n - 1 - 0)) 0 st0) as H.
  unfold for_range.
  destruct (for_loop (scan_row compareFn depth input) (Z.to_nat (n - 1 - 0)) 0 st0)
    as [st' [why|]]; [exfalso|eauto].
  apply H; [|exact H0]. clear H. intros row s Hrow Hs.
  unfold scan_row, for_range. fold n.
  pose proof (for_loop_inv (compare_pair compareFn depth input row)
                (fun _ s => Z.of_nat (length (skipMatrix s)) = n * (n - 1) / 2)
                (fun _ => False) (Z.to_nat (n - (row + 1))) (row + 1) s) as H.
  destruct (for_loop (compare_pair compareFn depth input row)
              (Z.to_nat (n - (row + 1))) (row + 1) s) as [s' [why'|]].
  - apply H; [|exact Hs]. intros col s1 Hcol Hs1. apply compare_pair_returns; lia.
  - apply H; [|exact Hs]. intros col s1 Hcol Hs1. apply compare_pair_returns; lia.
Qed.

End PassReturns.

(** ** The pass as a whole *)

(** C2 (as amended): skip-soundness. In the sequence of the calls issued to
    the compare function by a pass (whether the pass returns, panics or does
    not come back), once a call has put its row index in the result through
    [Left], no later call is about a pair that holds that index; once a call
    has put its column index in the result through [Right], no later call is
    about a pair that holds that index as its row. The column of a later
    call it can still be. *)
Theorem IndexesContext_skip_sound {T S : Type}
    (compareFn : CompareFuncContext T S) (depth : nat) (input : list T) (s0 : S) :
  skip_sound (calls (fst (IndexesContext_pass compareFn depth input s0))).
Proof.
  pose proof (pass_inv compareFn depth input s0) as H.
  destruct (IndexesContext_pass compareFn depth input s0) as [st [why|]]; simpl.
  - exact H.
  - destruct H as [row HI]. apply (inv_sound _ _ _ _ HI).
Qed.

(** C2 as stated fails: read role for role, an index decided as the column
    of a pair would be the column of no later call. A comparator that
    answers [Right] for the pairs (0,2) and (1,2) is called on (1,2) after
    (0,2) has put index 2 in the result. *)
Lemma IndexesContext_skip_same_role_counterexample :
  calls (fst (IndexesContext_pass (stub_compare stub_right_twice) 0 [0; 1; 2]%nat 0%nat))
  = [mkCall 0 1 (Done (Sel.None, None));
     mkCall 0 2 (Done (Sel.Right, None));
     mkCall 1 2 (Done (Sel.Right, None))]
  /\ ~ skip_sound_same_role
         (calls (fst (IndexesContext_pass (stub_compare stub_right_twice) 0
                        [0; 1; 2]%nat 0%nat))).
Proof.
  assert (Hcalls :
    calls (fst (IndexesContext_pass (stub_compare stub_right_twice) 0 [0; 1; 2]%nat 0%nat))
    = [mkCall 0 1 (Done (Sel.None, None));
       mkCall 0 2 (Done (Sel.Right, None));
       mkCall 1 2 (Done (Sel.Right, None))]) by (vm_compute; reflexivity).
  split; [exact Hcalls|]. rewrite Hcalls. intros Hs.
  inversion Hs as [|c0 tr0 _ Hs0]; subst.
  inversion Hs0 as [|c1 tr1 Hall _]; subst.
  inversion Hall as [|c2 tr2 [_ Hright] _]; subst.
  apply Hright; reflexivity.
Qed.

Section RunFacts.
Context {H : Type}.
Variable handle : H -> string -> option error * H.
Variable depth : nat.

(** The handler is called once for each entry of the list, in the order of
    the list, on the path at that index. *)
Lemma handle_dups_paths sizeBucket dups h acc handled h' :
  handle_dups handle depth sizeBucket dups h acc = (handled, h', None) ->
  exists paths,
    handled = acc ++ paths
    /\ Forall2 (fun i p => 0 <= i /\ sizeBucket !! Z.to_nat i = Some p) dups paths.
Proof.
  revert h acc. induction dups as [|i dups IH]; intros h acc Hrun; simpl in Hrun.
  - inversion Hrun; subst. exists []. rewrite app_nil_r. split; [reflexivity|constructor].
  - destruct (i <? 0) eqn:Hi; [discriminate|]. apply Z.ltb_ge in Hi.
    destruct (sizeBucket !! Z.to_nat i) as [path|] eqn:Hp; [|discriminate].
    destruct (handle h path) as [err h1].
    assert (Hrec : handle_dups handle depth sizeBucket dups h1 (acc ++ [path])
                   = (handled, h', None)).
    { destruct err as [e|]; [|exact Hrun].
      destruct (Error depth e); [exact Hrun|discriminate|discriminate]. }
    destruct (IH _ _ Hrec) as (paths & -> & Hall).
    exists (path :: paths). rewrite <- app_assoc. split; [reflexivity|].
    constructor; [split; assumption | exact Hall].
Qed.

End RunFacts.

(** C3 (as amended): the value a pass returns is a list, not a set: the
    indexes decided by the calls of the compare function, in the order of
    the scan (row-major over the deciding pairs); every entry is an index of
    the input; the handler is invoked once per entry of the list, in the
    order of the list, on the item at that index. *)
Theorem IndexesContext_result {T S : Type}
    (compareFn : CompareFuncContext T S) (depth : nat) (input : list T) (s0 : S)
    (st : pass T S) :
  IndexesContext_pass compareFn depth input s0 = (st, None) ->
  IndexesContext compareFn depth input s0 = Done (duplicates st)
  /\ duplicates st = decided (calls st)
  /\ ForallOrdPairs scan_lt (calls st)
  /\ Forall (fun i => 0 <= i < Z.of_nat (length input)) (duplicates st)
  /\ (forall (H : Type) (handle : H -> string -> option error * H) (d : nat)
        (sizeBucket : list string) (h h' : H) (handled : list string),
        handle_dups handle d sizeBucket (duplicates st) h [] = (handled, h', None) ->
        Forall2 (fun i p => 0 <= i /\ sizeBucket !! Z.to_nat i = Some p)
                (duplicates st) handled).
Proof.
  intros Hpass.
  pose proof (pass_inv compareFn depth input s0) as HI. rewrite Hpass in HI.
  destruct HI as [row [Hb Hs Hm Hsd Hd Hr]].
  split; [unfold IndexesContext; rewrite Hpass; reflexivity|].
  split; [exact Hd|]. split; [exact Hs|]. split; [exact Hr|].
  intros H handle d sizeBucket h h' handled Hrun.
  apply handle_dups_paths in Hrun as (paths & -> & Hall). exact Hall.
Qed.

Lemma stub_compare_returns table depth :
  (forall l r v, table l r <> Sel.Invalid v) -> compare_returns (stub_compare table) depth.
Proof.
  intros Hv s l r. exists (table l r), None, (S s).
  split; [reflexivity|]. split; [intros _ v; apply Hv | intros e He; discriminate He].
Qed.

Lemma IndexesContext_result_witness :
  IndexesContext_pass (stub_compare stub_right_twice) 0 [0; 1; 2]%nat 0%nat
    = (mkPass [false; false; false] [2; 2] 3%nat
         [mkCall 0 1 (Done (Sel.None, None));
          mkCall 0 2 (Done (Sel.Right, None));
          mkCall 1 2 (Done (Sel.Right, None))]
         [Comparison 0%nat 1%nat Sel.None;
          Comparison 0%nat 2%nat Sel.Right;
          Comparison 1%nat 2%nat Sel.Right], None)
  /\ IndexesContext (stub_compare stub_right_twice) 0 [0; 1; 2]%nat 0%nat = Done [2; 2]
  /\ Forall (fun i => 0 <= i < 3) [2; 2].
Proof.
  assert (Hrun : IndexesContext_pass (stub_compare stub_right_twice) 0 [0; 1; 2]%nat 0%nat
    = (mkPass [false; false; false] [2; 2] 3%nat
         [mkCall 0 1 (Done (Sel.None, None));
          mkCall 0 2 (Done (Sel.Right, None));
          mkCall 1 2 (Done (Sel.Right, None))]
         [Comparison 0%nat 1%nat Sel.None;
          Comparison 0%nat 2%nat Sel.Right;
          Comparison 1%nat 2%nat Sel.Right], None)) by (vm_compute; reflexivity).
  split; [exact Hrun|].
  destruct (IndexesContext_result (stub_compare stub_right_twice) 0
              [0; 1; 2]%nat 0%nat _ Hrun) as (H1 & _ & _ & H4 & _).
  split; [exact H1 | exact H4].
Defined.

(** C3 as stated fails twice over. A comparator that answers [Right] for the
    pairs (0,2) and (1,2) has index 2 recorded twice; and on three copies of
    one picture named "a (2).jpg", "a (3).jpg", "a.jpg" the pass with
    [FilenameFn] records index 1 before index 0. *)
Lemma IndexesContext_not_a_set_counterexample :
  IndexesContext (stub_compare stub_right_twice) 0 [0; 1; 2]%nat 0%nat = Done [2; 2]
  /\ ~ NoDup [2; 2]
  /\ IndexesContext (FilenameFn_compare example_fs 8) 0
       ["d/a (2).jpg"; "d/a (3).jpg"; "d/a.jpg"] tt = Done [1; 0]
  /\ ~ ForallOrdPairs Z.lt [1; 0].
Proof.
  split; [vm_compute; reflexivity|]. split.
  - intros Hnd. apply NoDup_cons in Hnd as [Hin _]. apply Hin. constructor.
  - split; [vm_compute; reflexivity|].
    intros Hs. inversion Hs as [|? ? Hall _]; subst.
    inversion Hall; subst. lia.
Qed.

(** C10: on an input of length 0 or 1 the pass issues no call of the compare
    function, leaves its state as it was, and returns the empty list. *)
Theorem IndexesContext_short_input {T S : Type}
    (compareFn : CompareFuncContext T S) (depth : nat) (input : list T) (s0 : S) :
  (length input <= 1)%nat ->
  IndexesContext_pass compareFn depth input s0 = (mkPass [] [] s0 [] [], None)
  /\ IndexesContext compareFn depth input s0 = Done [].
Proof.
  intros Hlen.
  assert (Hpass : IndexesContext_pass compareFn depth input s0
                  = (mkPass [] [] s0 [] [], None)).
  { destruct input as [|x [|y input]]; [reflexivity|reflexivity|simpl in Hlen; lia]. }
  split; [exact Hpass|]. unfold IndexesContext. rewrite Hpass. reflexivity.
Qed.

Lemma IndexesContext_short_input_witness :
  (length [7%nat] <= 1)%nat
  /\ IndexesContext_pass (stub_compare stub_right_twice) 0 [7%nat] 0%nat
    = (mkPass [] [] 0%nat [] [], None)
  /\ IndexesContext (stub_compare stub_right_twice) 0 [7%nat] 0%nat = Done [].
Proof.
  split; [simpl; lia|].
  apply (IndexesContext_short_input (stub_compare stub_right_twice) 0 [7%nat] 0%nat).
  simpl. lia.
Defined.

(** The end-to-end scenario: of "a.jpg" and its copy "a (2).jpg" the copy
    is the one duplicate; a file that cannot be opened is logged and
    skipped. *)
Example IndexesContext_end_to_end :
  IndexesContext (FilenameFn_compare example_fs 8) 1 ["d/a.jpg"; "d/a (2).jpg"] tt
    = Done [1]
  /\ IndexesContext (FilenameFn_compare example_fs 8) 1
       ["d/a.jpg"; "d/missing"; "d/a (2).jpg"] tt = Done [2].
Proof. split; vm_compute; reflexivity. Qed.

(** ** The impossible-precondition error *)

(** The method calls itself on its own receiver: no number of stack frames
    lets it return. *)
Lemma errImpossible_Error_overflows depth e : errImpossible_Error depth e = OutOfFuel.
Proof. induction depth as [|depth IH]; simpl; [reflexivity|]. rewrite IH. reflexivity. Qed.

(** A pass whose first comparison fails with an impossible-precondition
    error does not return: rendering the error for the log overflows. *)
Lemma IndexesContext_errImpossible_overflows {T S : Type}
    (compareFn : CompareFuncContext T S) (depth : nat) (a b : T) (s0 s1 : S) d e :
  compareFn s0 a b = (Done (d, Some (errImpossible e)), s1) ->
  IndexesContext compareFn depth [a; b] s0 = OutOfFuel.
Proof.
  intros Hcmp. unfold IndexesContext, IndexesContext_pass.
  change (matrix_size [a; b]) with 1. change (n_of [a; b]) with 2.
  change (makeslice_panics 1) with false. cbv iota.
  unfold for_range, scan_row, for_range. simpl Z.to_nat. simpl for_loop.
  unfold compare_pair. simpl. rewrite Hcmp. simpl.
  rewrite errImpossible_Error_overflows. reflexivity.
Qed.

(** C9: the code does not do what the specification says. The [Error] method of the
    impossible-precondition error never yields a string, whatever the stack
    it is given; the selection heuristic on two empty files returns such an
    error, and the pass that logs it does not survive: the pair is not
    skipped, the run ends there. *)
Theorem errImpossible_Error_never_returns :
  (forall depth e, errImpossible_Error depth e = OutOfFuel)
  /\ FilenameFn example_fs 8 Background "d/e1" "d/e2"
     = Done (Sel.None, Some (errImpossible (errorString "duplicate selection on empty files")))
  /\ (forall depth,
        IndexesContext (FilenameFn_compare example_fs 8) depth ["d/e1"; "d/e2"] tt
        = OutOfFuel).
Proof.
  split; [exact errImpossible_Error_overflows|].
  split; [vm_compute; reflexivity|].
  intros depth. eapply IndexesContext_errImpossible_overflows.
  unfold FilenameFn_compare. vm_compute. reflexivity.
Qed.

(** ** selectDup *)

(** The decision order of [selectDup] as the code has it, on two files that
    pass the defensive checks. *)
Lemma heuristics_order fi1 fi2 b1 c1 e1 b2 c2 e2 :
  let r := heuristics fi1 fi2 (b1, c1, e1) (b2, c2, e2) in
  (c2 < c1 -> r = (Sel.Left, None))
  /\ (c1 < c2 -> r = (Sel.Right, None))
  /\ (c1 = c2 -> e1 <> "" -> e2 = "" -> r = (Sel.Right, None))
  /\ (c1 = c2 -> e1 = "" -> e2 <> "" -> r = (Sel.Left, None))
  /\ (c1 = c2 -> (e1 = "" <-> e2 = "") ->
      isDigits b1 = true -> isDigits b2 = false -> r = (Sel.Left, None))
  /\ (c1 = c2 -> (e1 = "" <-> e2 = "") ->
      isDigits b1 = false -> isDigits b2 = true -> r = (Sel.Right, None))
  /\ (c1 = c2 -> (e1 = "" <-> e2 = "") -> isDigits b1 = isDigits b2 ->
      ModTime fi1 < ModTime fi2 -> r = (Sel.Right, None))
  /\ (c1 = c2 -> (e1 = "" <-> e2 = "") -> isDigits b1 = isDigits b2 ->
      ModTime fi2 < ModTime fi1 -> r = (Sel.Left, None))
  /\ (c1 = c2 -> (e1 = "" <-> e2 = "") -> isDigits b1 = isDigits b2 ->
      ModTime fi1 = ModTime fi2 -> r = (Sel.Right, None)).
Proof.
  unfold heuristics.
  destruct (Z.ltb_spec c2 c1), (Z.ltb_spec c1 c2);
    destruct (String.eqb_spec e1 ""), (String.eqb_spec e2 "");
    destruct (isDigits b1), (isDigits b2);
    destruct (Z.ltb_spec (ModTime fi1) (ModTime fi2)),
             (Z.ltb_spec (ModTime fi2) (ModTime fi1));
    simpl; repeat split; intros; try reflexivity; try lia; try tauto;
    try congruence.
Qed.

(** On two files that pass the defensive checks, [selectDup] returns what
    the heuristics say of the two parsed names. *)
Lemma selectDup_heuristics fi1 fi2 content1 content2 :
  Size fi1 = Size fi2 -> Size fi1 <> 0 ->
  IsDir fi1 = false -> IsDir fi2 = false ->
  IsSymlink fi1 = false -> IsSymlink fi2 = false ->
  exists p1 p2,
    SplitFileBaseName (Name fi1) = Done p1
    /\ SplitFileBaseName (Name fi2) = Done p2
    /\ selectDup (mkFile (inr fi1) content1) (mkFile (inr fi2) content2)
       = Done (heuristics fi1 fi2 p1 p2).
Proof.
  intros Hsize Hnz Hd1 Hd2 Hs1 Hs2.
  destruct (SplitFileBaseName_total (Name fi1)) as (b1 & c1 & e1 & Hp1).
  destruct (SplitFileBaseName_total (Name fi2)) as (b2 & c2 & e2 & Hp2).
  exists (b1, c1, e1), (b2, c2, e2). split; [exact Hp1|]. split; [exact Hp2|].
  unfold selectDup. simpl.
  rewrite <- Hsize, Z.eqb_refl. simpl.
  destruct (Z.eqb_spec (Size fi1) 0) as [E|_]; [contradiction|]. simpl.
  rewrite Hd1, Hd2, Hs1, Hs2, Hp1, Hp2. reflexivity.
Qed.

(** C5: the code departs from the specification at the third rule. [isDigits] asks
    [strconv.Atoi] instead of looking at the bytes: a prefix of twenty digits
    is out of the int range and does not count as digits-only, so the older
    file "12345678901234567890.jpg" is kept and "abc.jpg" is the duplicate;
    a prefix with a sign counts as digits-only, so "-5.jpg" is the duplicate
    although it is the older file and neither prefix is all digits. *)
Theorem selectDup_digits_rule_by_Atoi :
  spec_digits_only "12345678901234567890" = true
  /\ spec_digits_only "abc" = false
  /\ isDigits "12345678901234567890" = false
  /\ selectDup (regular_file "12345678901234567890.jpg" 100 "hello")
               (regular_file "abc.jpg" 200 "hello") = Done (Sel.Right, None)
  /\ spec_digits_only "-5" = false
  /\ isDigits "-5" = true
  /\ selectDup (regular_file "-5.jpg" 100 "hello")
               (regular_file "abc.jpg" 200 "hello") = Done (Sel.Left, None).
Proof. repeat split; vm_compute; reflexivity. Qed.

(** ** equalFile over two files read without error *)

Section EqualFileFacts.

(** What [Read] returns on a stream with bytes left: between one byte and
    the size of the buffer. *)
Lemma stream_Read_some c l k :
  l <> [] -> (0 < k)%nat ->
  exists n, (1 <= n <= k)%nat
    /\ Read (mkStream c l) k = (take n l, None, mkStream c (drop n l)).
Proof.
  intros Hl Hk. unfold Read, stream_Reader, stream_Read. simpl.
  destruct l as [|x l]; [contradiction|].
  set (n0 := (c (length (x :: l)) `min` k)%nat).
  destruct (n0 =? 0)%nat eqn:E.
  - exists (1 `min` k)%nat. split; [lia | reflexivity].
  - apply Nat.eqb_neq in E. exists n0. split; [subst n0; lia | reflexivity].
Qed.

(** [io.ReadFull] on a stream that holds enough bytes returns exactly the
    bytes asked for. *)
Lemma stream_ReadAtLeast fuel c l k got :
  (length got <= k)%nat -> (k - length got <= length l)%nat ->
  (k - length got <= fuel)%nat ->
  ReadAtLeast fuel (mkStream c l) k k got None
  = Done (got ++ take (k - length got) l, None, mkStream c (drop (k - length got) l)).
Proof.
  revert l got. induction fuel as [|fuel IH]; intros l got Hgot Hl Hfuel.
  - assert (E : (k - length got = 0)%nat) by lia.
    assert (Hk : (length got <? k)%nat = false) by (apply Nat.ltb_ge; lia).
    simpl. rewrite Hk. simpl.
    assert (Hk' : (k <=? length got)%nat = true) by (apply Nat.leb_le; lia).
    rewrite Hk', E, take_0, drop_0, app_nil_r. reflexivity.
  - simpl. destruct (length got <? k)%nat eqn:Hk; simpl.
    + apply Nat.ltb_lt in Hk.
      destruct (stream_Read_some c l (k - length got)) as (n & Hn & ->);
        [intros ->; simpl in Hl; lia | lia |].
      rewrite IH; rewrite ?length_app, ?length_take, ?length_drop; try lia.
      replace (n `min` length l)%nat with n by lia.
      rewrite <- app_assoc, take_take_drop, drop_drop.
      replace (n + (k - (length got + n)))%nat with (k - length got)%nat by lia.
      reflexivity.
    + apply Nat.ltb_ge in Hk.
      assert (E : (k - length got = 0)%nat) by lia.
      assert (Hk' : (k <=? length got)%nat = true) by (apply Nat.leb_le; lia).
      rewrite Hk', E, take_0, drop_0, app_nil_r. reflexivity.
Qed.

Lemma stream_ReadFull fuel c l k :
  (k <= length l)%nat -> (k <= fuel)%nat ->
  ReadFull fuel (mkStream c l) k = Done (take k l, None, mkStream c (drop k l)).
Proof.
  intros Hl Hfuel. unfold ReadFull.
  rewrite stream_ReadAtLeast; simpl; try lia.
  rewrite Nat.sub_0_r. reflexivity.
Qed.

(** Two lists that differ at position [length pre] differ in every prefix
    that reaches past it. *)
Lemma take_differ (pre : list ascii) x y ta tb n :
  x <> y -> take n (pre ++ x :: ta) = take n (pre ++ y :: tb) -> (n <= length pre)%nat.
Proof.
  intros Hxy Heq. destruct (le_lt_dec n (length pre)) as [Hle|Hlt]; [exact Hle|].
  exfalso. apply Hxy.
  assert (H1 : take n (pre ++ x :: ta) !! length pre = Some x).
  { rewrite lookup_take_lt by lia. apply list_lookup_middle. reflexivity. }
  assert (H2 : take n (pre ++ y :: tb) !! length pre = Some y).
  { rewrite lookup_take_lt by lia. apply list_lookup_middle. reflexivity. }
  rewrite Heq in H1. congruence.
Qed.

Variable ctx : Context.
Hypothesis ctx_live : forall k, ctx k = false.

(** The verdict of the loop on two streams of equal length, and the number
    [c] of bytes it took from each. *)
Lemma equalFile_loop_streams fuel : forall iter ca cb a b,
  length a = length b -> (length a < fuel)%nat ->
  exists c, (c <= length a)%nat
    /\ equalFile_loop fuel ctx iter (mkStream ca a) (mkStream cb b)
       = Done (bool_decide (a = b), None,
               (mkStream ca (drop c a), mkStream cb (drop c b)))
    /\ (a = b -> c = length a)
    /\ (forall pre x y ta tb, a = pre ++ x :: ta -> b = pre ++ y :: tb -> x <> y ->
          (length pre < c <= length pre + 4096)%nat).
Proof using ctx_live.
  induction fuel as [|fuel IH]; intros iter ca cb a b Hlen Hfuel; [lia|].
  simpl. rewrite ctx_live.
  destruct a as [|x0 a'].
  - (* end of both files *)
    destruct b as [|? ?]; [|discriminate Hlen].
    exists 0%nat. split; [simpl; lia|]. split; [reflexivity|].
    split; [reflexivity|].
    intros pre x y ta tb E. destruct pre; discriminate E.
  - assert (Hpos : (1 <= length (x0 :: a'))%nat) by (simpl; lia).
    assert (Hne0 : x0 :: a' <> []) by discriminate.
    remember (x0 :: a') as a eqn:Ea. clear Ea x0 a'.
    destruct (stream_Read_some ca a 4096) as (n & Hn & ->); [exact Hne0 | lia |].
    set (n1 := length (take n a)).
    assert (Hn1 : (1 <= n1 <= 4096)%nat /\ (n1 <= length a)%nat).
    { subst n1. rewrite length_take. lia. }
    assert (Htake : take n a = take n1 a).
    { subst n1. rewrite length_take.
      destruct (le_lt_dec n (length a)) as [Hle|Hlt].
      - replace (n `min` length a)%nat with n by lia. reflexivity.
      - replace (n `min` length a)%nat with (length a) by lia.
        rewrite !take_ge by lia. reflexivity. }
    assert (Hdrop : drop n a = drop n1 a).
    { subst n1. rewrite length_take.
      destruct (le_lt_dec n (length a)) as [Hle|Hlt].
      - replace (n `min` length a)%nat with n by lia. reflexivity.
      - replace (n `min` length a)%nat with (length a) by lia.
        rewrite !drop_ge by lia. reflexivity. }
    rewrite (stream_ReadFull (S fuel) cb b n1) by lia.
    rewrite length_take. replace (n1 `min` length b)%nat with n1 by lia.
    rewrite Nat.eqb_refl. simpl negb. cbv iota.
    rewrite Htake, Hdrop.
    unfold bytes_Equal.
    destruct (decide (take n1 a = take n1 b)) as [Heq|Hne].
    + (* the chunks agree: next iteration *)
      rewrite (bool_decide_eq_true_2 _ Heq). simpl.
      destruct (IH (S iter) ca cb (drop n1 a) (drop n1 b)) as (c & Hc & Hrun & Hall & Hdiff).
      { rewrite !length_drop. lia. }
      { rewrite length_drop. lia. }
      rewrite length_drop in Hc.
      exists (n1 + c)%nat. split; [lia|].
      split.
      * rewrite Hrun, !drop_drop. f_equal. f_equal. f_equal.
        apply bool_decide_ext. split.
        -- intros E. rewrite <- (take_drop n1 a), <- (take_drop n1 b), Heq, E. reflexivity.
        -- intros ->. reflexivity.
      * split.
        -- intros ->. rewrite Hall by reflexivity. rewrite length_drop. lia.
        -- intros pre x y ta tb Ea Eb Hxy.
           assert (Hpre : (n1 <= length pre)%nat).
           { eapply take_differ; [exact Hxy|]. rewrite <- Ea, <- Eb. exact Heq. }
           specialize (Hdiff (drop n1 pre) x y ta tb).
           rewrite Ea, Eb, !drop_app_le in Hdiff by lia.
           specialize (Hdiff eq_refl eq_refl Hxy).
           rewrite length_drop in Hdiff. lia.
    + (* a byte of the chunk differs: not equal, at once *)
      rewrite (bool_decide_eq_false_2 _ Hne). simpl.
      exists n1. split; [lia|].
      split.
      * f_equal. f_equal. f_equal. symmetry. apply bool_decide_eq_false_2.
        intros E. apply Hne. rewrite E. reflexivity.
      * split.
        -- intros E. exfalso. apply Hne. rewrite E. reflexivity.
        -- intros pre x y ta tb Ea Eb Hxy.
           split; [|lia].
           destruct (le_lt_dec n1 (length pre)) as [Hle|Hlt]; [|exact Hlt].
           exfalso. apply Hne. rewrite Ea, Eb, !take_app_le by lia. reflexivity.
Qed.

End EqualFileFacts.

(** C4: on two files of equal length read without error and without
    cancellation, [equalFile] returns [(true, nil)] exactly when the contents
    are the same bytes, and [(false, nil)] otherwise. [c] is the number of
    bytes taken from each file when it returns: all of them when the files
    are equal; at a mismatch, no more than the chunk that holds the first
    differing byte (a chunk has at most 4096 bytes), so nothing is compared
    after it; and all of them when the only difference is the last byte. *)
Theorem equalFile_verdict (ctx : Context) (ca cb : nat -> nat) (a b : list ascii)
    (fuel : nat) :
  (forall k, ctx k = false) -> length a = length b -> (length a < fuel)%nat ->
  exists c, (c <= length a)%nat
    /\ equalFile fuel ctx (mkStream ca a) (mkStream cb b)
       = Done (bool_decide (a = b), None,
               (mkStream ca (drop c a), mkStream cb (drop c b)))
    /\ (a = b -> c = length a)
    /\ (forall pre x y ta tb, a = pre ++ x :: ta -> b = pre ++ y :: tb -> x <> y ->
          (length pre < c <= length pre + 4096)%nat)
    /\ (forall pre x y, a = pre ++ [x] -> b = pre ++ [y] -> x <> y -> c = length a).
Proof.
  intros Hctx Hlen Hfuel.
  destruct (equalFile_loop_streams ctx Hctx fuel 0 ca cb a b Hlen Hfuel)
    as (c & Hc & Hrun & Hall & Hdiff).
  exists c. split; [exact Hc|]. split; [exact Hrun|]. split; [exact Hall|].
  split; [exact Hdiff|].
  intros pre x y Ea Eb Hxy. specialize (Hdiff pre x y [] [] Ea Eb Hxy).
  rewrite Ea, length_app in *. simpl in *. lia.
Qed.

Lemma equalFile_verdict_witness :
  (forall k, Background k = false)
  /\ length (GoStr.bytes "abc") = length (GoStr.bytes "abd")
  /\ (length (GoStr.bytes "abc") < 4)%nat
  /\ exists c, (c <= length (GoStr.bytes "abc"))%nat
    /\ equalFile 4 Background (mkStream (fun _ => 2%nat) (GoStr.bytes "abc"))
                              (mkStream (fun _ => 2%nat) (GoStr.bytes "abd"))
       = Done (bool_decide (GoStr.bytes "abc" = GoStr.bytes "abd"), None,
               (mkStream (fun _ => 2%nat) (drop c (GoStr.bytes "abc")),
                mkStream (fun _ => 2%nat) (drop c (GoStr.bytes "abd")))).
Proof.
  split; [reflexivity|]. split; [reflexivity|]. split; [simpl; lia|].
  destruct (equalFile_verdict Background (fun _ => 2%nat) (fun _ => 2%nat)
              (GoStr.bytes "abc") (GoStr.bytes "abd") 4)
    as (c & Hc & Hrun & _); [reflexivity | reflexivity | simpl; lia |].
  exists c. split; [exact Hc | exact Hrun].
Defined.

(** Two empty files compare equal; "abc" and "abd", read two bytes at a
    time, compare not equal once the second chunk has been read. *)
Example equalFile_empty_files :
  equalFile 1 Background (mkStream (fun n => n) []) (mkStream (fun n => n) [])
  = Done (true, None, (mkStream (fun n => n) [], mkStream (fun n => n) [])).
Proof. reflexivity. Qed.

Example equalFile_last_byte :
  equalFile 4 Background (mkStream (fun _ => 2%nat) (GoStr.bytes "abc"))
                         (mkStream (fun _ => 2%nat) (GoStr.bytes "abd"))
  = Done (false, None, (mkStream (fun _ => 2%nat) [], mkStream (fun _ => 2%nat) [])).
Proof. reflexivity. Qed.

(** A context cancelled before the first read: no verdict, no byte read. *)
Example equalFile_cancelled :
  equalFile 4 (fun _ => true) (mkStream (fun n => n) (GoStr.bytes "abc"))
                             (mkStream (fun n => n) (GoStr.bytes "abc"))
  = Done (false, Some Canceled,
          (mkStream (fun n => n) (GoStr.bytes "abc"),
           mkStream (fun n => n) (GoStr.bytes "abc"))).
Proof. reflexivity. Qed.

(** * Further properties *)

(** ** Offset numbers the pairs in the order of the scan *)

Lemma triangle_double k : 0 <= k -> 2 * (k * (k + 1) / 2) = k * (k + 1).
Proof.
  intros Hk. pose proof (Z.div_mod (k * (k + 1)) 2 ltac:(lia)) as Hd.
  assert (Hev : (k * (k + 1)) mod 2 = 0).
  { destruct (Z.Even_or_Odd k) as [[j ->]|[j ->]].
    - replace (2 * j * (2 * j + 1)) with ((j * (2 * j + 1)) * 2) by lia.
      apply Z.mod_mul. lia.
    - replace ((2 * j + 1) * (2 * j + 1 + 1)) with (((2 * j + 1) * (j + 1)) * 2) by lia.
      apply Z.mod_mul. lia. }
  lia.
Qed.

(** The closed formula grows along the scan, for every n. *)
Lemma Offset_formula_mono n row col row' col' :
  2 <= n -> 0 <= row < col -> col < n -> 0 <= row' < col' -> col' < n ->
  row < row' \/ (row = row' /\ col < col') ->
  row * n + col - row * (row + 1) / 2 - (row + 1)
  < row' * n + col' - row' * (row' + 1) / 2 - (row' + 1).
Proof.
  intros Hn Hr Hc Hr' Hc' Hlt.
  pose proof (triangle_double row ltac:(lia)) as Ht.
  pose proof (triangle_double row' ltac:(lia)) as Ht'.
  set (t := row * (row + 1) / 2) in *. set (t' := row' * (row' + 1) / 2) in *.
  destruct Hlt as [Hlt|[<- Hlt]]; [|subst t t'; lia].
  assert (Hd : exists d, row' = row + 1 + d /\ 0 <= d) by (exists (row' - row - 1); lia).
  destruct Hd as (d & -> & Hd). nia.
Qed.

(** X1: within the range where [Offset] is exact, a pair that comes earlier
    in the row-major scan has the smaller slot: the scan walks the skip
    matrix from its first slot upwards. *)
Theorem Offset_scan_order n row col row' col' :
  2 <= n <= Offset_max_n ->
  0 <= row < col -> col < n -> 0 <= row' < col' -> col' < n ->
  row < row' \/ (row = row' /\ col < col') ->
  Offset n row col < Offset n row' col'.
Proof.
  intros Hn Hr Hc Hr' Hc' Hlt.
  rewrite !Offset_exact by assumption.
  apply Offset_formula_mono; try assumption. lia.
Qed.

Lemma Offset_scan_order_witness :
  Offset 5 0 4 < Offset 5 1 2 /\ Offset 5 1 2 < Offset 5 1 3.
Proof.
  split.
  - apply (Offset_scan_order 5 0 4 1 2); unfold Offset_max_n; lia.
  - apply (Offset_scan_order 5 1 2 1 3); unfold Offset_max_n; lia.
Defined.

(** Every slot of the skip matrix is the slot of a pair. *)
Lemma Offset_onto n k :
  2 <= n <= Offset_max_n -> 0 <= k < n * (n - 1) / 2 ->
  exists row col, 0 <= row < col /\ col < n /\ Offset n row col = k.
Proof.
  intros Hn [Hk0 Hk]. revert Hk. pattern k. apply natlike_ind; [| |exact Hk0].
  - intros _. exists 0, 1. split; [lia|]. split; [lia|].
    rewrite Offset_exact by lia. reflexivity.
  - clear k Hk0. intros k Hk0 IH Hk.
    destruct IH as (row & col & Hr & Hc & Hoff); [lia|].
    rewrite Offset_exact in Hoff by assumption.
    pose proof (triangle_double row ltac:(lia)) as Ht.
    pose proof (triangle_double (n - 1) ltac:(lia)) as Hu.
    replace (n - 1 + 1) with n in Hu by lia.
    replace ((n - 1) * n) with (n * (n - 1)) in Hu by lia.
    destruct (decide (col + 1 < n)) as [Hnext|Hlast].
    + exists row, (col + 1). split; [lia|]. split; [lia|].
      rewrite Offset_exact by lia. lia.
    + assert (col = n - 1) as -> by lia.
      destruct (decide (row + 2 < n)) as [Hrow|Hend].
      * exists (row + 1), (row + 2). split; [lia|]. split; [lia|].
        rewrite Offset_exact by lia.
        pose proof (triangle_double (row + 1) ltac:(lia)) as Ht1.
        set (t := row * (row + 1) / 2) in *.
        set (t1 := (row + 1) * (row + 1 + 1) / 2) in *.
        assert (t1 = t + row + 1) by lia. lia.
      * exfalso. assert (row = n - 2) as -> by lia.
        set (t := (n - 2) * (n - 2 + 1) / 2) in *.
        set (u := n * (n - 1) / 2) in *.
        assert (u = t + n - 1) by lia. lia.
Qed.

(** X2: every slot of the skip matrix belongs to one pair and one only:
    within the range where it is exact, [Offset] is a bijection from the
    pairs 0 <= row < col < n onto [0, n(n-1)/2), so the matrix has no slot
    that is never used and none that is shared. *)
Theorem Offset_slot_of_one_pair n k :
  2 <= n <= Offset_max_n -> 0 <= k < n * (n - 1) / 2 ->
  exists row col,
    (0 <= row < col /\ col < n /\ Offset n row col = k)
    /\ (forall row' col', 0 <= row' < col' -> col' < n -> Offset n row' col' = k ->
          row' = row /\ col' = col).
Proof.
  intros Hn Hk.
  destruct (Offset_onto n k Hn Hk) as (row & col & Hr & Hc & Hoff).
  exists row, col. split; [auto|].
  intros row' col' Hr' Hc' Hoff'.
  rewrite <- Hoff in Hoff'. rewrite !Offset_exact in Hoff' by assumption.
  apply Offset_formula_inj in Hoff'; [tauto | lia..].
Qed.

Lemma Offset_slot_of_one_pair_witness :
  exists row col,
    (0 <= row < col /\ col < 4 /\ Offset 4 row col = 5)
    /\ (forall row' col', 0 <= row' < col' -> col' < 4 -> Offset 4 row' col' = 5 ->
          row' = row /\ col' = col).
Proof.
  apply (Offset_slot_of_one_pair 4 5); [unfold Offset_max_n; lia | split; [lia | reflexivity]].
Defined.


(** ** What SplitFileBaseName returns *)

Section SplitResultFacts.
Import GoStr.



(** What the loop returns is what it was given, less the suffixes it
    stripped; and nothing it could strip is left. *)
Lemma split_loop_strips fuel prefix counter p c :
  split_loop fuel prefix counter = Done (p, c) ->
  (exists stripped, prefix = p +:+ stripped)
  /\ windowsPattern p = None /\ chromePattern p = None.
Proof.
  revert prefix counter.
  induction fuel as [|fuel IH]; intros prefix counter Hrun; simpl in Hrun; [discriminate|].
  assert (Hstep : forall w0 counter',
             (exists pre, prefix = pre +:+ w0) ->
             split_loop fuel (TrimSuffix prefix w0) counter' = Done (p, c) ->
             (exists stripped, prefix = p +:+ stripped)
             /\ windowsPattern p = None /\ chromePattern p = None).
  { intros w0 counter' [pre ->] Hrec. rewrite TrimSuffix_app in Hrec.
    destruct (IH _ _ Hrec) as ([stripped ->] & Hw & Hc).
    split; [|split; assumption].
    exists (stripped +:+ w0). apply bytes_inj. rewrite !bytes_app, app_assoc. reflexivity. }
  destruct (windowsPattern prefix) as [[w0 w1]|] eqn:Hw.
  - apply windowsPattern_spec in Hw as (Hsuf & _ & _).
    destruct (fst (strconv.Atoi w1) =? 0); [eapply Hstep; eauto|].
    destruct (fst (strconv.Atoi w1) =? 1); [eapply Hstep; eauto|].
    destruct (fst (strconv.Atoi w1) <? 0); [discriminate|].
    eapply Hstep; eauto.
  - destruct (chromePattern prefix) as [[c0 c1]|] eqn:Hc.
    + apply chromePattern_spec in Hc as (Hsuf & _ & _).
      destruct (fst (strconv.Atoi c1) =? 0); [eapply Hstep; eauto|].
      destruct (fst (strconv.Atoi c1) <? 0); [discriminate|].
      eapply Hstep; eauto.
    + inversion Hrun; subst. split; [|split; assumption].
      exists "". apply bytes_inj. rewrite bytes_app, app_nil_r. reflexivity.
Qed.







End SplitResultFacts.


(** X4: the prefix that [SplitFileBaseName] returns ends with no copy suffix
    that either pattern would still match, unless the parse was discarded
    and the name returned as it was. *)
Theorem SplitFileBaseName_strips_every_suffix name :
  exists prefix counter ext,
    SplitFileBaseName name = Done (prefix, counter, ext)
    /\ ((windowsPattern prefix = None /\ chromePattern prefix = None)
        \/ (prefix = name /\ counter = 0 /\ ext = "")).
Proof.
  destruct (split_parse_total name) as (p & c & Hp).
  unfold SplitFileBaseName, SplitFileBaseName_fuel. rewrite Hp.
  unfold split_parse in Hp.
  destruct (split_loop _ _ 0) as [[p' c']| |] eqn:Hloop; try discriminate.
  inversion Hp; subst p' c'. clear Hp.
  apply split_loop_strips in Hloop as (_ & Hw & Hc).
  unfold split_defer.
  destruct (String.eqb p "" && String.eqb (GoStr.Ext name) "").
  - exists name, 0, "". split; [reflexivity|]. right. repeat split.
  - exists p, c, (GoStr.Ext name). split; [reflexivity|]. left. split; assumption.
Qed.


(** ** isDigits *)

Section IsDigitsFacts.
Import strconv.

Lemma decimal_value_ge s n :
  forallb GoStr.is_digit (GoStr.bytes s) = true -> 0 <= n -> n <= decimal_value s n.
Proof.
  revert n. induction s as [|c s IH]; intros n Hd Hn; simpl; [lia|].
  simpl in Hd. apply andb_prop in Hd as [Hc Hs].
  pose proof (digit_val_nonneg c Hc).
  specialize (IH (n * 10 + GoStr.digit_val c) Hs ltac:(lia)). lia.
Qed.

(** On a run of digits the loop of [ParseUint] returns the number written,
    or [MaxUint64] with a range error when that number is larger. *)
Lemma parse_digits_value s n :
  forallb GoStr.is_digit (GoStr.bytes s) = true -> 0 <= n <= MaxUint64 ->
  parse_digits s n
  = if decimal_value s n <=? MaxUint64 then (decimal_value s n, None)
    else (MaxUint64, Some ErrRange).
Proof.
  revert n. induction s as [|c s IH]; intros n Hd Hn; simpl.
  - destruct (Z.leb_spec n MaxUint64); [reflexivity | lia].
  - simpl in Hd. apply andb_prop in Hd as [Hc Hs]. rewrite Hc.
    pose proof (digit_val_nonneg c Hc).
    destruct (Z.ltb_spec MaxUint64 (n * 10 + GoStr.digit_val c)) as [Hover|Hfit].
    + pose proof (decimal_value_ge s (n * 10 + GoStr.digit_val c) Hs ltac:(lia)).
      destruct (Z.leb_spec (decimal_value s (n * 10 + GoStr.digit_val c)) MaxUint64);
        [lia | reflexivity].
    + apply IH; [exact Hs | lia].
Qed.

(** A byte that is not a digit makes the loop fail, one way or the other. *)
Lemma parse_digits_fails s n :
  forallb GoStr.is_digit (GoStr.bytes s) = false ->
  parse_digits s n = (0, Some ErrSyntax) \/ parse_digits s n = (MaxUint64, Some ErrRange).
Proof.
  revert n. induction s as [|c s IH]; intros n Hd; simpl in *; [discriminate|].
  destruct (GoStr.is_digit c); simpl in *; [|left; reflexivity].
  destruct (MaxUint64 <? n * 10 + GoStr.digit_val c); [right; reflexivity|].
  apply IH. exact Hd.
Qed.

(** What [Atoi] does once the sign is taken off: it succeeds exactly on a
    non-empty run of digits whose value fits the sign. *)
Lemma Atoi_after_sign (neg : bool) body :
  snd (match ParseUint body with
       | (_, Some ErrSyntax) => (0, Some ErrSyntax)
       | (un, _) =>
           if negb neg && (GoInt.MaxInt <? un) then (GoInt.MaxInt, Some ErrRange)
           else if neg && (- GoInt.MinInt <? un) then (GoInt.MinInt, Some ErrRange)
           else (if neg then - un else un, None)
       end) = None
  <-> spec_digits_only body = true
      /\ decimal_value body 0 <= (if neg then - GoInt.MinInt else GoInt.MaxInt).
Proof.
  assert (HM : GoInt.MaxInt = 9223372036854775807) by reflexivity.
  assert (Hm : GoInt.MinInt = -9223372036854775808) by reflexivity.
  assert (HU : MaxUint64 = 18446744073709551615) by reflexivity.
  unfold spec_digits_only.
  destruct body as [|c r]; [simpl; split; [discriminate | intros [? _]; discriminate]|].
  unfold ParseUint.
  change (negb (String.eqb (String c r) "")) with true. cbn [andb].
  destruct (forallb GoStr.is_digit (GoStr.bytes (String c r))) eqn:Hd.
  - rewrite parse_digits_value by (try exact Hd; lia).
    destruct (Z.leb_spec (decimal_value (String c r) 0) MaxUint64) as [Hfit|Hover].
    + destruct neg; cbn [negb andb].
      * destruct (Z.ltb_spec (- GoInt.MinInt) (decimal_value (String c r) 0)); cbn [snd].
        -- split; [discriminate | intros [_ ?]; lia].
        -- split; [intros _; split; [reflexivity | lia] | reflexivity].
      * destruct (Z.ltb_spec GoInt.MaxInt (decimal_value (String c r) 0)); cbn [snd].
        -- split; [discriminate | intros [_ ?]; lia].
        -- split; [intros _; split; [reflexivity | lia] | reflexivity].
    + destruct neg; cbn [negb andb].
      * destruct (Z.ltb_spec (- GoInt.MinInt) MaxUint64); [|lia]. cbn [snd].
        split; [discriminate | intros [_ ?]; lia].
      * destruct (Z.ltb_spec GoInt.MaxInt MaxUint64); [|lia]. cbn [snd].
        split; [discriminate | intros [_ ?]; lia].
  - destruct (parse_digits_fails (String c r) 0 Hd) as [-> | ->].
    + cbn [snd]. split; [discriminate | intros [? _]; discriminate].
    + destruct neg; cbn [negb andb].
      * destruct (Z.ltb_spec (- GoInt.MinInt) MaxUint64); [|lia]. cbn [snd].
        split; [discriminate | intros [? _]; discriminate].
      * destruct (Z.ltb_spec GoInt.MaxInt MaxUint64); [|lia]. cbn [snd].
        split; [discriminate | intros [? _]; discriminate].
Qed.

End IsDigitsFacts.

(** X5: [isDigits] holds exactly of an optional sign followed by a
    non-empty run of decimal digits whose value fits the int type: at most
    2^63 - 1, or 2^63 after a minus sign. A name of twenty digits is not
    "digits", and a signed number is. *)
Theorem isDigits_iff s :
  isDigits s = true
  <-> exists sign body,
        s = sign +:+ body
        /\ (sign = "" \/ sign = "+" \/ sign = "-")
        /\ spec_digits_only body = true
        /\ decimal_value body 0 <= (if String.eqb sign "-" then 2 ^ 63 else 2 ^ 63 - 1).
Proof.
  assert (Hsnd : isDigits s = true <-> snd (strconv.Atoi s) = None).
  { unfold isDigits. destruct (snd (strconv.Atoi s)); split; congruence. }
  rewrite Hsnd. clear Hsnd.
  split.
  - destruct s as [|c r]; [discriminate|].
    unfold strconv.Atoi.
    destruct (Ascii.eqb_spec c "-") as [->|Hm].
    + cbn [orb]. intros H. apply (Atoi_after_sign true) in H as [Hd Hv].
      exists "-", r. split; [reflexivity|]. split; [auto|]. split; [exact Hd | exact Hv].
    + destruct (Ascii.eqb_spec c "+") as [->|Hp]; cbn [orb].
      * intros H. apply (Atoi_after_sign false) in H as [Hd Hv].
        exists "+", r. split; [reflexivity|]. split; [auto|]. split; [exact Hd | exact Hv].
      * intros H. apply (Atoi_after_sign false) in H as [Hd Hv].
        exists "", (String c r). split; [reflexivity|]. split; [auto|].
        split; [exact Hd | exact Hv].
  - intros (sign & body & -> & Hsign & Hd & Hv).
    destruct Hsign as [->|[->| ->]].
    + (* no sign: the first byte is a digit *)
      change ("" +:+ body) with body.
      destruct body as [|c r]; [discriminate Hd|].
      assert (Hc : GoStr.is_digit c = true).
      { unfold spec_digits_only in Hd. simpl in Hd. apply andb_prop in Hd as [Hc _]. exact Hc. }
      unfold strconv.Atoi.
      destruct (Ascii.eqb_spec c "-") as [->|_]; [discriminate Hc|].
      destruct (Ascii.eqb_spec c "+") as [->|_]; [discriminate Hc|]. cbn [orb].
      apply (Atoi_after_sign false). split; [exact Hd | exact Hv].
    + change ("+" +:+ body) with (String "+" body). unfold strconv.Atoi.
      change (Ascii.eqb "+" "-") with false. change (Ascii.eqb "+" "+") with true.
      cbn [orb]. apply (Atoi_after_sign false). split; [exact Hd | exact Hv].
    + change ("-" +:+ body) with (String "-" body). unfold strconv.Atoi.
      change (Ascii.eqb "-" "-") with true. cbn [orb].
      apply (Atoi_after_sign true). split; [exact Hd | exact Hv].
Qed.


(** ** selectDup: what it returns *)

Lemma heuristics_picks fi1 fi2 p1 p2 :
  heuristics fi1 fi2 p1 p2 = (Sel.Left, None)
  \/ heuristics fi1 fi2 p1 p2 = (Sel.Right, None).
Proof.
  destruct p1 as [[b1 c1] e1], p2 as [[b2 c2] e2]. unfold heuristics.
  repeat match goal with
         | |- context [if ?b then _ else _] => destruct b
         end; auto.
Qed.

(** A call that returns without error went through the checks and the
    heuristics. *)
Lemma selectDup_no_error f1 f2 sel :
  selectDup f1 f2 = Done (sel, None) ->
  exists fi1 fi2 p1 p2,
    Stat f1 = inr fi1 /\ Stat f2 = inr fi2 /\ passes_checks fi1 fi2
    /\ SplitFileBaseName (Name fi1) = Done p1
    /\ SplitFileBaseName (Name fi2) = Done p2
    /\ heuristics fi1 fi2 p1 p2 = (sel, None).
Proof.
  unfold selectDup. intros Hrun.
  destruct (Stat f1) as [e1|fi1]; [discriminate|].
  destruct (Stat f2) as [e2|fi2]; [discriminate|].
  destruct (Z.eqb_spec (Size fi1) (Size fi2)) as [Hs|Hs]; [|discriminate]. cbn [negb] in Hrun.
  destruct (Z.eqb_spec (Size fi1) 0) as [?|Hz1]; [discriminate|].
  destruct (Z.eqb_spec (Size fi2) 0) as [?|Hz2]; [discriminate|]. cbn [orb] in Hrun.
  destruct (IsDir fi1) eqn:Hd1; [discriminate|].
  destruct (IsDir fi2) eqn:Hd2; [discriminate|]. cbn [orb] in Hrun.
  destruct (IsSymlink fi1) eqn:Hl1; [discriminate|].
  destruct (IsSymlink fi2) eqn:Hl2; [discriminate|]. cbn [orb] in Hrun.
  destruct (SplitFileBaseName (Name fi1)) as [p1| |] eqn:Hp1; try discriminate.
  destruct (SplitFileBaseName (Name fi2)) as [p2| |] eqn:Hp2; try discriminate.
  exists fi1, fi2, p1, p2. unfold passes_checks.
  repeat split; try assumption; try reflexivity. congruence.
Qed.

Lemma selectDup_checked f1 f2 fi1 fi2 :
  Stat f1 = inr fi1 -> Stat f2 = inr fi2 -> passes_checks fi1 fi2 ->
  exists p1 p2,
    SplitFileBaseName (Name fi1) = Done p1
    /\ SplitFileBaseName (Name fi2) = Done p2
    /\ selectDup f1 f2 = Done (heuristics fi1 fi2 p1 p2).
Proof.
  intros H1 H2 (Hs & Hz & Hd1 & Hd2 & Hl1 & Hl2).
  destruct f1 as [st1 c1], f2 as [st2 c2]. simpl in H1, H2. subst st1 st2.
  apply selectDup_heuristics; assumption.
Qed.

(** X6: [selectDup] always returns, and it returns a duplicate or an error,
    never both and never neither: with a nil error the selection is [Left]
    or [Right]; with an error the selection is [None]. *)
Theorem selectDup_selection_or_error f1 f2 :
  exists sel err,
    selectDup f1 f2 = Done (sel, err)
    /\ (err = None -> sel = Sel.Left \/ sel = Sel.Right)
    /\ (forall e, err = Some e -> sel = Sel.None).
Proof.
  unfold selectDup.
  destruct (Stat f1) as [e1|fi1].
  { exists Sel.None, (Some e1). split; [reflexivity|]. split; [discriminate | reflexivity]. }
  destruct (Stat f2) as [e2|fi2].
  { exists Sel.None, (Some e2). split; [reflexivity|]. split; [discriminate | reflexivity]. }
  destruct (negb (Size fi1 =? Size fi2)).
  { eexists _, _. split; [reflexivity|]. split; [discriminate | reflexivity]. }
  destruct ((Size fi1 =? 0) || (Size fi2 =? 0)).
  { eexists _, _. split; [reflexivity|]. split; [discriminate | reflexivity]. }
  destruct (IsDir fi1 || IsDir fi2).
  { eexists _, _. split; [reflexivity|]. split; [discriminate | reflexivity]. }
  destruct (IsSymlink fi1 || IsSymlink fi2).
  { eexists _, _. split; [reflexivity|]. split; [discriminate | reflexivity]. }
  destruct (SplitFileBaseName_total (Name fi1)) as (b1 & c1 & e1 & ->).
  destruct (SplitFileBaseName_total (Name fi2)) as (b2 & c2 & e2 & ->).
  destruct (heuristics_picks fi1 fi2 (b1, c1, e1) (b2, c2, e2)) as [-> | ->].
  - exists Sel.Left, None. split; [reflexivity|]. split; [auto | discriminate].
  - exists Sel.Right, None. split; [reflexivity|]. split; [auto | discriminate].
Qed.

(** X7: on two files whose [Stat] succeeds, [selectDup] returns an
    impossible-precondition error exactly when a defensive check fails: the
    sizes differ, a size is zero, or one of the two is a directory or a
    symlink. *)
Theorem selectDup_impossible_iff fi1 fi2 content1 content2 :
  (exists e, selectDup (mkFile (inr fi1) content1) (mkFile (inr fi2) content2)
             = Done (Sel.None, Some (errImpossible e)))
  <-> (Size fi1 <> Size fi2 \/ Size fi1 = 0 \/ Size fi2 = 0
       \/ IsDir fi1 = true \/ IsDir fi2 = true
       \/ IsSymlink fi1 = true \/ IsSymlink fi2 = true).
Proof.
  unfold selectDup. cbn [Stat].
  destruct (Z.eqb_spec (Size fi1) (Size fi2)) as [Hs|Hs]; cbn [negb].
  2:{ split; [intros _; left; exact Hs | intros _; eexists; reflexivity]. }
  destruct (Z.eqb_spec (Size fi1) 0) as [Hz1|Hz1]; cbn [orb].
  { split; [intros _; right; left; exact Hz1 | intros _; eexists; reflexivity]. }
  destruct (Z.eqb_spec (Size fi2) 0) as [Hz2|Hz2]; cbn [orb].
  { split; [intros _; right; right; left; exact Hz2 | intros _; eexists; reflexivity]. }
  destruct (IsDir fi1) eqn:Hd1; cbn [orb].
  { split; [intros _; tauto | intros _; eexists; reflexivity]. }
  destruct (IsDir fi2) eqn:Hd2; cbn [orb].
  { split; [intros _; tauto | intros _; eexists; reflexivity]. }
  destruct (IsSymlink fi1) eqn:Hl1; cbn [orb].
  { split; [intros _; tauto | intros _; eexists; reflexivity]. }
  destruct (IsSymlink fi2) eqn:Hl2; cbn [orb].
  { split; [intros _; tauto | intros _; eexists; reflexivity]. }
  destruct (SplitFileBaseName_total (Name fi1)) as (b1 & c1 & e1 & ->).
  destruct (SplitFileBaseName_total (Name fi2)) as (b2 & c2 & e2 & ->).
  split.
  - intros [e He].
    destruct (heuristics_picks fi1 fi2 (b1, c1, e1) (b2, c2, e2)) as [H | H];
      rewrite H in He; discriminate He.
  - intros [?|[?|[?|[?|[?|[?|?]]]]]]; try contradiction; discriminate.
Qed.

Lemma heuristics_swap fi1 fi2 p1 p2 :
  (heuristics fi1 fi2 p1 p2 = (Sel.Left, None) ->
   heuristics fi2 fi1 p2 p1 = (Sel.Right, None))
  /\ (heuristics fi1 fi2 p1 p2 = (Sel.Right, None) ->
      heuristics fi2 fi1 p2 p1 = (Sel.Left, None)
      \/ (heuristics fi2 fi1 p2 p1 = (Sel.Right, None)
          /\ no_rule_separates fi1 fi2 p1 p2)).
Proof.
  destruct p1 as [[b1 c1] e1], p2 as [[b2 c2] e2].
  unfold heuristics, no_rule_separates. simpl.
  destruct (Z.ltb_spec c2 c1), (Z.ltb_spec c1 c2);
    destruct (String.eqb e1 ""), (String.eqb e2 "");
    destruct (isDigits b1), (isDigits b2);
    destruct (Z.ltb_spec (ModTime fi1) (ModTime fi2)),
             (Z.ltb_spec (ModTime fi2) (ModTime fi1));
    simpl; split; intros Hsel; try discriminate Hsel; try lia; auto;
    right; repeat split; lia.
Qed.

(** When no rule separates the files, the heuristics fall through to their
    last line. *)
Lemma heuristics_tie fi1 fi2 p1 p2 :
  no_rule_separates fi1 fi2 p1 p2 -> heuristics fi1 fi2 p1 p2 = (Sel.Right, None).
Proof.
  destruct p1 as [[b1 c1] e1], p2 as [[b2 c2] e2].
  unfold heuristics, no_rule_separates. simpl. intros (-> & -> & -> & ->).
  rewrite !Z.ltb_irrefl.
  destruct (String.eqb e2 ""), (isDigits b2); reflexivity.
Qed.

(** X8: which of two files is the duplicate does not depend on the order of
    the arguments, unless no rule separates them. If [selectDup f1 f2] says
    the first, [selectDup f2 f1] says the second; if it says the second, the
    swapped call says the first, or no rule separates the files: the
    counters are equal, the extensions both empty or both not, the prefixes
    both digits or both not, and the modification times equal. In that case,
    and for files that pass the checks only in that case, each call names
    its own second argument. *)
Theorem selectDup_swap f1 f2 :
  (selectDup f1 f2 = Done (Sel.Left, None) -> selectDup f2 f1 = Done (Sel.Right, None))
  /\ (selectDup f1 f2 = Done (Sel.Right, None) ->
      selectDup f2 f1 = Done (Sel.Left, None)
      \/ (selectDup f2 f1 = Done (Sel.Right, None)
          /\ exists fi1 fi2 p1 p2, Stat f1 = inr fi1 /\ Stat f2 = inr fi2
               /\ SplitFileBaseName (Name fi1) = Done p1
               /\ SplitFileBaseName (Name fi2) = Done p2
               /\ no_rule_separates fi1 fi2 p1 p2))
  /\ (forall fi1 fi2 p1 p2,
        Stat f1 = inr fi1 -> Stat f2 = inr fi2 -> passes_checks fi1 fi2 ->
        SplitFileBaseName (Name fi1) = Done p1 ->
        SplitFileBaseName (Name fi2) = Done p2 ->
        no_rule_separates fi1 fi2 p1 p2 ->
        selectDup f1 f2 = Done (Sel.Right, None)
        /\ selectDup f2 f1 = Done (Sel.Right, None)).
Proof.
  assert (Hflip : forall sel, selectDup f1 f2 = Done (sel, None) ->
            exists fi1 fi2 p1 p2, Stat f1 = inr fi1 /\ Stat f2 = inr fi2
              /\ SplitFileBaseName (Name fi1) = Done p1
              /\ SplitFileBaseName (Name fi2) = Done p2
              /\ heuristics fi1 fi2 p1 p2 = (sel, None)
              /\ selectDup f2 f1 = Done (heuristics fi2 fi1 p2 p1)).
  { intros sel Hrun.
    apply selectDup_no_error in Hrun
      as (fi1 & fi2 & p1 & p2 & H1 & H2 & Hchk & Hp1 & Hp2 & Hh).
    exists fi1, fi2, p1, p2. repeat split; try assumption.
    destruct Hchk as (Hs & Hz & Hd1 & Hd2 & Hl1 & Hl2).
    destruct (selectDup_checked f2 f1 fi2 fi1 H2 H1) as (q2 & q1 & Hq2 & Hq1 & ->).
    { unfold passes_checks. repeat split; try assumption; congruence. }
    congruence. }
  split; [|split].
  - intros Hrun.
    destruct (Hflip _ Hrun) as (fi1 & fi2 & p1 & p2 & _ & _ & _ & _ & Hh & ->).
    f_equal. apply (proj1 (heuristics_swap fi1 fi2 p1 p2)). exact Hh.
  - intros Hrun.
    destruct (Hflip _ Hrun) as (fi1 & fi2 & p1 & p2 & H1 & H2 & Hp1 & Hp2 & Hh & ->).
    destruct (proj2 (heuristics_swap fi1 fi2 p1 p2) Hh) as [Hl | (Hr & Htie)].
    + left. f_equal. exact Hl.
    + right. split; [f_equal; exact Hr|]. exists fi1, fi2, p1, p2. auto.
  - intros fi1 fi2 p1 p2 H1 H2 Hchk Hp1 Hp2 Htie.
    destruct (selectDup_checked f1 f2 fi1 fi2 H1 H2 Hchk) as (q1 & q2 & Hq1 & Hq2 & ->).
    assert (Hchk' : passes_checks fi2 fi1).
    { destruct Hchk as (Hs & Hz & Hd1 & Hd2 & Hl1 & Hl2).
      unfold passes_checks. repeat split; try assumption; congruence. }
    destruct (selectDup_checked f2 f1 fi2 fi1 H2 H1 Hchk') as (r2 & r1 & Hr2 & Hr1 & ->).
    assert (q1 = p1) by congruence. assert (q2 = p2) by congruence.
    assert (r1 = p1) by congruence. assert (r2 = p2) by congruence. subst.
    split; f_equal; apply heuristics_tie; [exact Htie|].
    destruct Htie as (Hc & He & Hd & Hm). unfold no_rule_separates. auto.
Qed.

Lemma selectDup_swap_witness :
  selectDup (regular_file "a.jpg" 7 "hello") (regular_file "a (2).jpg" 5 "hello")
  = Done (Sel.Right, None).
Proof.
  apply (proj1 (selectDup_swap (regular_file "a (2).jpg" 5 "hello")
                               (regular_file "a.jpg" 7 "hello"))).
  vm_compute. reflexivity.
Defined.


(** ** FilenameFn *)

Lemma selectDup_error_selection f1 f2 sel e :
  selectDup f1 f2 = Done (sel, Some e) -> sel = Sel.None.
Proof.
  unfold selectDup. intros Hrun.
  destruct (Stat f1) as [e1|fi1]; [congruence|].
  destruct (Stat f2) as [e2|fi2]; [congruence|].
  destruct (negb (Size fi1 =? Size fi2)); [congruence|].
  destruct ((Size fi1 =? 0) || (Size fi2 =? 0)); [congruence|].
  destruct (IsDir fi1 || IsDir fi2); [congruence|].
  destruct (IsSymlink fi1 || IsSymlink fi2); [congruence|].
  destruct (SplitFileBaseName (Name fi1)) as [p1| |]; try discriminate.
  destruct (SplitFileBaseName (Name fi2)) as [p2| |]; try discriminate.
  destruct (heuristics_picks fi1 fi2 p1 p2) as [H | H]; rewrite H in Hrun; discriminate.
Qed.

(** X9: as its documentation says, [FilenameFn] never returns a selection
    together with an error: whatever the file system, the context and the
    two paths, when the error is not nil the selection is [None]. *)
Theorem FilenameFn_error_selection fsys fuel ctx l r sel e :
  FilenameFn fsys fuel ctx l r = Done (sel, Some e) -> sel = Sel.None.
Proof.
  unfold FilenameFn. intros Hrun.
  destruct (String.eqb l r); [congruence|].
  destruct (fsys l) as [e1|f1]; [congruence|].
  destruct (fsys r) as [e2|f2]; [congruence|].
  destruct (equalFile fuel ctx (open_stream f1) (open_stream f2))
    as [[[eq err] rs]| |]; try discriminate.
  destruct (negb eq || negb (is_nil err)); [congruence|].
  eapply selectDup_error_selection. exact Hrun.
Qed.

Lemma FilenameFn_error_selection_witness :
  FilenameFn example_fs 8 Background "d/e1" "d/e2"
    = Done (Sel.None, Some (errImpossible (errorString "duplicate selection on empty files")))
  /\ Sel.None = Sel.None.
Proof.
  assert (Hrun : FilenameFn example_fs 8 Background "d/e1" "d/e2"
    = Done (Sel.None, Some (errImpossible (errorString "duplicate selection on empty files"))))
    by (vm_compute; reflexivity).
  split; [exact Hrun|].
  exact (FilenameFn_error_selection example_fs 8 Background "d/e1" "d/e2" _ _ Hrun).
Defined.

(** X10: how the comparator and the heuristic compose. On two different
    paths that open to files of the same length, with a context that is not
    cancelled, [FilenameFn] returns no error from the comparison; it returns
    [None] when the contents differ, and what [selectDup] says when they are
    the same bytes, which for files that pass the defensive checks is
    [Left] or [Right]. *)
Theorem FilenameFn_equal_length fsys fuel l r f1 f2 :
  l <> r -> fsys l = inr f1 -> fsys r = inr f2 ->
  length (Content f1) = length (Content f2) ->
  (length (Content f1) < fuel)%nat ->
  FilenameFn fsys fuel Background l r
  = (if bool_decide (Content f1 = Content f2) then selectDup f1 f2
     else Done (Sel.None, None))
  /\ (forall fi1 fi2, Content f1 = Content f2 ->
        Stat f1 = inr fi1 -> Stat f2 = inr fi2 -> passes_checks fi1 fi2 ->
        FilenameFn fsys fuel Background l r = Done (Sel.Left, None)
        \/ FilenameFn fsys fuel Background l r = Done (Sel.Right, None)).
Proof.
  intros Hlr Hl Hr Hlen Hfuel.
  assert (Hrun : FilenameFn fsys fuel Background l r
    = (if bool_decide (Content f1 = Content f2) then selectDup f1 f2
       else Done (Sel.None, None))).
  { unfold FilenameFn. apply String.eqb_neq in Hlr. rewrite Hlr, Hl, Hr.
    unfold equalFile, open_stream.
    destruct (equalFile_loop_streams Background (fun _ => eq_refl) fuel 0
                (fun n => n) (fun n => n) (Content f1) (Content f2) Hlen Hfuel)
      as (c & _ & -> & _).
    destruct (bool_decide (Content f1 = Content f2)); reflexivity. }
  split; [exact Hrun|].
  intros fi1 fi2 Heq H1 H2 Hchk. rewrite Hrun, (bool_decide_eq_true_2 _ Heq).
  destruct (selectDup_checked f1 f2 fi1 fi2 H1 H2 Hchk) as (p1 & p2 & _ & _ & ->).
  destruct (heuristics_picks fi1 fi2 p1 p2) as [-> | ->]; auto.
Qed.

Lemma FilenameFn_equal_length_witness :
  FilenameFn example_fs 8 Background "d/a.jpg" "d/a (2).jpg" = Done (Sel.Right, None).
Proof.
  assert (Hne : "d/a.jpg" <> "d/a (2).jpg") by discriminate.
  assert (Hfuel : (length (Content (regular_file "a.jpg" 7 "hello")) < 8)%nat)
    by (simpl; lia).
  rewrite (proj1 (FilenameFn_equal_length example_fs 8 "d/a.jpg" "d/a (2).jpg"
                    (regular_file "a.jpg" 7 "hello") (regular_file "a (2).jpg" 5 "hello")
                    Hne eq_refl eq_refl eq_refl Hfuel)).
  vm_compute. reflexivity.
Defined.


(** ** equalFile: files of different length, and cancellation *)

Section EqualFileSteps.

(** [io.ReadFull] on a stream that holds fewer bytes than asked for returns
    them all, with [EOF] when there were none and [ErrUnexpectedEOF]
    otherwise. *)
Lemma stream_ReadAtLeast_short fuel c l k got :
  (length got + length l < k)%nat -> (length l < fuel)%nat ->
  ReadAtLeast fuel (mkStream c l) k k got None
  = Done (got ++ l,
          Some (if (0 <? length (got ++ l))%nat then ErrUnexpectedEOF else EOF),
          mkStream c []).
Proof.
  revert l got. induction fuel as [|fuel IH]; intros l got Hk Hfuel; [lia|].
  simpl. assert (Hlt : (length got <? k)%nat = true) by (apply Nat.ltb_lt; lia).
  rewrite Hlt. simpl.
  destruct l as [|x l].
  - unfold Read, stream_Reader, stream_Read. simpl.
    rewrite app_nil_r.
    destruct fuel; simpl; rewrite Hlt; simpl;
      (assert (Hle : (k <=? length got)%nat = false) by (apply Nat.leb_gt; simpl in Hk; lia));
      rewrite Hle; destruct (0 <? length got)%nat; reflexivity.
  - destruct (stream_Read_some c (x :: l) (k - length got)) as (n & Hn & ->);
      [discriminate | lia |].
    rewrite IH.
    + rewrite <- app_assoc, take_drop. reflexivity.
    + rewrite length_app, length_take, length_drop. lia.
    + rewrite length_drop. simpl in *. lia.
Qed.

Variable ctx : Context.

(** An iteration at the end of the first file: the verdict is "equal",
    whatever is left of the second file. *)
Lemma equalFile_loop_eof fuel iter ca cb b :
  ctx iter = false ->
  equalFile_loop (S fuel) ctx iter (mkStream ca []) (mkStream cb b)
  = Done (true, None, (mkStream ca [], mkStream cb b)).
Proof. intros Hc. simpl. rewrite Hc. reflexivity. Qed.

(** An iteration with bytes left in the first file: a chunk of [n1] bytes is
    read from it; the second file gives as many bytes and the chunks are
    compared, or it falls short and the sizes read differ. *)
Lemma equalFile_loop_chunk fuel iter ca cb a b :
  ctx iter = false -> a <> [] ->
  exists n1, (1 <= n1 <= 4096)%nat /\ (n1 <= length a)%nat
    /\ ((n1 <= length b)%nat -> (n1 <= S fuel)%nat ->
        equalFile_loop (S fuel) ctx iter (mkStream ca a) (mkStream cb b)
        = if bool_decide (take n1 a = take n1 b)
          then equalFile_loop fuel ctx (S iter)
                 (mkStream ca (drop n1 a)) (mkStream cb (drop n1 b))
          else Done (false, None, (mkStream ca (drop n1 a), mkStream cb (drop n1 b))))
    /\ ((length b < n1)%nat -> (length b < S fuel)%nat ->
        equalFile_loop (S fuel) ctx iter (mkStream ca a) (mkStream cb b)
        = Done (false, Some errReadSizeMismatch,
                (mkStream ca (drop n1 a), mkStream cb []))).
Proof.
  intros Hc Ha.
  assert (Hpos : (1 <= length a)%nat) by (destruct a; [contradiction | simpl; lia]).
  destruct (stream_Read_some ca a 4096) as (n & Hn & Hread); [exact Ha | lia |].
  set (n1 := length (take n a)).
  assert (Hn1 : (1 <= n1 <= 4096)%nat /\ (n1 <= length a)%nat).
  { subst n1. rewrite length_take. lia. }
  assert (Htake : take n a = take n1 a).
  { subst n1. rewrite length_take.
    destruct (le_lt_dec n (length a)) as [Hle|Hlt].
    - replace (n `min` length a)%nat with n by lia. reflexivity.
    - replace (n `min` length a)%nat with (length a) by lia.
      rewrite !take_ge by lia. reflexivity. }
  assert (Hdrop : drop n a = drop n1 a).
  { subst n1. rewrite length_take.
    destruct (le_lt_dec n (length a)) as [Hle|Hlt].
    - replace (n `min` length a)%nat with n by lia. reflexivity.
    - replace (n `min` length a)%nat with (length a) by lia.
      rewrite !drop_ge by lia. reflexivity. }
  exists n1. split; [tauto|]. split; [tauto|]. split.
  - intros Hb Hfuel.
    cbn [equalFile_loop]. rewrite Hc, Hread. fold n1.
    rewrite (stream_ReadFull (S fuel) cb b n1) by lia.
    rewrite length_take. replace (n1 `min` length b)%nat with n1 by lia.
    rewrite Nat.eqb_refl. cbn [negb]. rewrite Htake, Hdrop.
    unfold bytes_Equal.
    destruct (bool_decide (take n1 a = take n1 b)); reflexivity.
  - intros Hb Hfuel.
    cbn [equalFile_loop]. rewrite Hc, Hread. fold n1.
    unfold ReadFull. rewrite stream_ReadAtLeast_short by (simpl; lia).
    cbn [app length].
    assert (Hne : (n1 =? length b)%nat = false) by (apply Nat.eqb_neq; lia).
    rewrite Hne. cbn [negb]. rewrite Hdrop. reflexivity.
Qed.

End EqualFileSteps.

(** X11: [equalFile] does not look past the end of its first file. When the
    first file is a beginning of the second, shorter or not, the verdict is
    "equal" with no error, and what follows in the second file is left
    unread. *)
Theorem equalFile_first_is_prefix (ctx : Context) (ca cb : nat -> nat)
    (a extra : list ascii) (fuel : nat) :
  (forall k, ctx k = false) -> (length a < fuel)%nat ->
  equalFile fuel ctx (mkStream ca a) (mkStream cb (a ++ extra))
  = Done (true, None, (mkStream ca [], mkStream cb extra)).
Proof.
  intros Hctx. unfold equalFile. generalize 0%nat as iter.
  revert a. induction fuel as [|fuel IH]; intros a iter Hfuel; [lia|].
  destruct a as [|x a'].
  - apply equalFile_loop_eof. apply Hctx.
  - remember (x :: a') as a eqn:Ea.
    destruct (equalFile_loop_chunk ctx fuel iter ca cb a (a ++ extra) (Hctx iter))
      as (n1 & Hn1 & Hlen & Hstep & _); [subst a; discriminate|].
    rewrite Hstep by (rewrite ?length_app; lia).
    rewrite take_app_le, bool_decide_eq_true_2 by (reflexivity || lia).
    rewrite drop_app_le by lia.
    apply IH. rewrite length_drop. lia.
Qed.

Lemma equalFile_first_is_prefix_witness :
  equalFile 3 Background (mkStream (fun n => n) (GoStr.bytes "ab"))
                         (mkStream (fun n => n) (GoStr.bytes "ab" ++ GoStr.bytes "c"))
  = Done (true, None, (mkStream (fun n => n) [], mkStream (fun n => n) (GoStr.bytes "c"))).
Proof.
  apply (equalFile_first_is_prefix Background (fun n => n) (fun n => n)
           (GoStr.bytes "ab") (GoStr.bytes "c") 3); [reflexivity | simpl; lia].
Defined.

(** X12: the other way round the comparison fails. When the second file is
    a proper beginning of the first, [equalFile] returns the read size
    mismatch error and no verdict "equal", however the reads are chunked. *)
Theorem equalFile_second_is_shorter (ctx : Context) (ca cb : nat -> nat)
    (b extra : list ascii) (fuel : nat) :
  (forall k, ctx k = false) -> extra <> [] -> (length (b ++ extra) < fuel)%nat ->
  exists rest,
    equalFile fuel ctx (mkStream ca (b ++ extra)) (mkStream cb b)
    = Done (false, Some errReadSizeMismatch, (mkStream ca rest, mkStream cb [])).
Proof.
  intros Hctx Hextra. unfold equalFile. generalize 0%nat as iter.
  revert b. induction fuel as [|fuel IH]; intros b iter Hfuel; [lia|].
  rewrite length_app in Hfuel.
  destruct (equalFile_loop_chunk ctx fuel iter ca cb (b ++ extra) b (Hctx iter))
    as (n1 & Hn1 & Hlen & Hstep & Hshort).
  { intros E. apply app_eq_nil in E as [_ E]. contradiction. }
  destruct (le_lt_dec n1 (length b)) as [Hle|Hlt].
  - rewrite Hstep by lia.
    rewrite take_app_le, bool_decide_eq_true_2 by (reflexivity || lia).
    rewrite drop_app_le by lia.
    apply IH. rewrite length_app, length_drop. lia.
  - rewrite Hshort by lia. eauto.
Qed.

Lemma equalFile_second_is_shorter_witness :
  exists rest,
    equalFile 4 Background (mkStream (fun n => n) (GoStr.bytes "ab" ++ GoStr.bytes "c"))
                           (mkStream (fun n => n) (GoStr.bytes "ab"))
    = Done (false, Some errReadSizeMismatch,
            (mkStream (fun n => n) rest, mkStream (fun n => n) [])).
Proof.
  apply (equalFile_second_is_shorter Background (fun n => n) (fun n => n)
           (GoStr.bytes "ab") (GoStr.bytes "c") 4); [reflexivity | discriminate | simpl; lia].
Defined.

(** X13: cancellation. On two files of equal length, whatever the context
    does, [equalFile] returns either the verdict of the contents with no
    error, or [(false, Canceled)]; the latter at the first poll [k] at which
    the context is done, when at most [4096 * k] bytes of each file have been
    read. It returns nothing else. *)
Theorem equalFile_cancellation (ctx : Context) (ca cb : nat -> nat) (a b : list ascii)
    (fuel : nat) :
  length a = length b -> (length a < fuel)%nat ->
  exists v err c,
    equalFile fuel ctx (mkStream ca a) (mkStream cb b)
    = Done (v, err, (mkStream ca (drop c a), mkStream cb (drop c b)))
    /\ ((err = None /\ v = bool_decide (a = b))
        \/ (err = Some Canceled /\ v = false
            /\ exists k, ctx k = true /\ (forall j, (j < k)%nat -> ctx j = false)
                 /\ (c <= 4096 * k)%nat)).
Proof.
  unfold equalFile.
  assert (Hgen : forall fuel iter a b,
    length a = length b -> (length a < fuel)%nat ->
    exists v err c,
      equalFile_loop fuel ctx iter (mkStream ca a) (mkStream cb b)
      = Done (v, err, (mkStream ca (drop c a), mkStream cb (drop c b)))
      /\ ((err = None /\ v = bool_decide (a = b))
          \/ (err = Some Canceled /\ v = false
              /\ exists k, ctx (iter + k)%nat = true
                   /\ (forall j, (j < k)%nat -> ctx (iter + j)%nat = false)
                   /\ (c <= 4096 * k)%nat))).
  { clear a b fuel. induction fuel as [|fuel IH]; intros iter a b Hlen Hfuel; [lia|].
    destruct (ctx iter) eqn:Hc.
    { exists false, (Some Canceled), 0%nat. split.
      - simpl. rewrite Hc. reflexivity.
      - right. split; [reflexivity|]. split; [reflexivity|].
        exists 0%nat. rewrite Nat.add_0_r. split; [exact Hc|]. split; [lia | lia]. }
    destruct a as [|x a'].
    { destruct b; [|discriminate Hlen].
      exists true, None, 0%nat. split; [apply equalFile_loop_eof; exact Hc|].
      left. split; reflexivity. }
    remember (x :: a') as a eqn:Ea.
    destruct (equalFile_loop_chunk ctx fuel iter ca cb a b Hc)
      as (n1 & Hn1 & Hl & Hstep & _); [subst a; discriminate|].
    rewrite Hstep by lia.
    destruct (decide (take n1 a = take n1 b)) as [Heq|Hne].
    - rewrite (bool_decide_eq_true_2 _ Heq).
      destruct (IH (S iter) (drop n1 a) (drop n1 b)) as (v & err & c & Hrun & Hres).
      { rewrite !length_drop. lia. }
      { rewrite length_drop. lia. }
      exists v, err, (n1 + c)%nat. rewrite Hrun, !drop_drop. split; [reflexivity|].
      destruct Hres as [[-> ->] | (-> & -> & k & Hk & Hbefore & Hc')].
      + left. split; [reflexivity|]. apply bool_decide_ext. split.
        * intros E. rewrite <- (take_drop n1 a), <- (take_drop n1 b), Heq, E. reflexivity.
        * intros ->. reflexivity.
      + right. split; [reflexivity|]. split; [reflexivity|].
        exists (S k). replace (iter + S k)%nat with (S iter + k)%nat by lia.
        split; [exact Hk|]. split; [|lia].
        intros [|j] Hj; [rewrite Nat.add_0_r; exact Hc|].
        replace (iter + S j)%nat with (S iter + j)%nat by lia. apply Hbefore. lia.
    - rewrite (bool_decide_eq_false_2 _ Hne).
      exists false, None, n1. split; [reflexivity|]. left. split; [reflexivity|].
      symmetry. apply bool_decide_eq_false_2. intros E. apply Hne. rewrite E. reflexivity. }
  intros Hlen Hfuel.
  destruct (Hgen fuel 0%nat a b Hlen Hfuel) as (v & err & c & Hrun & Hres).
  exists v, err, c. split; [exact Hrun | exact Hres].
Qed.

Lemma equalFile_cancellation_witness :
  exists v err c,
    equalFile 4 (fun k => (0 <? k)%nat)
      (mkStream (fun _ => 1%nat) (GoStr.bytes "abc"))
      (mkStream (fun _ => 1%nat) (GoStr.bytes "abc"))
    = Done (v, err, (mkStream (fun _ => 1%nat) (drop c (GoStr.bytes "abc")),
                     mkStream (fun _ => 1%nat) (drop c (GoStr.bytes "abc")))).
Proof.
  destruct (equalFile_cancellation (fun k => (0 <? k)%nat) (fun _ => 1%nat) (fun _ => 1%nat)
              (GoStr.bytes "abc") (GoStr.bytes "abc") 4)
    as (v & err & c & Hrun & _); [reflexivity | simpl; lia |].
  exists v, err, c. exact Hrun.
Defined.


(** ** The calls of a pass *)

Section PassCalls.
Context {T S : Type}.
Variable compareFn : CompareFuncContext T S.
Variable depth : nat.
Variable input : list T.

Let n : Z := n_of input.

(** What one pair does to the record of the calls and to the result: at most
    one call is added, for this pair, with what the compare function
    returned; the result grows by at most this row or this column. *)
Lemma compare_pair_effect row col (st : pass T S) :
  let '(st', _) := compare_pair compareFn depth input row col st in
  (calls st' = calls st
   \/ exists l r, item input row = Some l /\ item input col = Some r
        /\ skip_get (skipMatrix st) (Offset n row col) = Some false
        /\ calls st' = calls st
             ++ [mkCall row col (fst (compareFn (cmp_state st) l r))])
  /\ (duplicates st' = duplicates st
      \/ duplicates st' = duplicates st ++ [row]
      \/ duplicates st' = duplicates st ++ [col]).
Proof.
  unfold compare_pair. fold n.
  destruct (skip_get (skipMatrix st) (Offset n row col)) as [skip|]; [|auto].
  destruct (item input row) as [l|]; [|auto].
  destruct (item input col) as [r|]; [|auto].
  destruct skip; [simpl; auto|].
  destruct (compareFn (cmp_state st) l r) as [ret s'] eqn:Hcmp. simpl.
  destruct ret as [[dup [e|]]|msg|]; simpl.
  - destruct (Error depth e); simpl; (split; [right; exists l, r; rewrite Hcmp; repeat split | auto]).
  - unfold record_duplicate. fold n. destruct dup as [| | |v]; simpl.
    + split; [right; exists l, r; rewrite Hcmp; repeat split | auto].
    + destruct (mark_row n row (col + 1) (skipMatrix st)); simpl;
        (split; [right; exists l, r; rewrite Hcmp; repeat split | auto]).
    + destruct (mark_row n col (col + 1) (skipMatrix st)); simpl;
        (split; [right; exists l, r; rewrite Hcmp; repeat split | auto]).
    + split; [right; exists l, r; rewrite Hcmp; repeat split | auto].
  - split; [right; exists l, r; rewrite Hcmp; repeat split | auto].
  - split; [right; exists l, r; rewrite Hcmp; repeat split | auto].
Qed.

End PassCalls.

Section SkipFrame.

Lemma skip_set_frame m i m' j :
  skip_set m i = Some m' -> skip_get m' j = Some true ->
  j = i \/ skip_get m j = Some true.
Proof.
  unfold skip_set, skip_get. intros Hs Hg.
  destruct ((0 <=? i) && (i <? Z.of_nat (length m))) eqn:Hr; [|discriminate].
  apply andb_prop in Hr as [H0 H1]. apply Z.leb_le in H0. apply Z.ltb_lt in H1.
  inversion Hs; subst m'. clear Hs.
  destruct (j <? 0) eqn:Hneg; [discriminate|]. apply Z.ltb_ge in Hneg.
  destruct (decide (Z.to_nat i = Z.to_nat j)) as [E|NE].
  - left. lia.
  - right. rewrite list_lookup_insert_ne in Hg by exact NE. exact Hg.
Qed.

(** Marking the rest of a row writes no slot but those of that row. *)
Lemma mark_loop_frame n r k c m m' j :
  mark_loop n r k c m = Some m' -> skip_get m' j = Some true ->
  skip_get m j = Some true
  \/ exists c', c <= c' < c + Z.of_nat k /\ j = Offset n r c'.
Proof.
  revert c m. induction k as [|k IH]; intros c m Hm Hg; simpl in Hm.
  - inversion Hm; subst. left. exact Hg.
  - destruct (skip_set m (Offset n r c)) as [m1|] eqn:Hs; [|discriminate].
    destruct (IH _ _ Hm Hg) as [Hold | (c' & Hc' & ->)].
    + destruct (skip_set_frame _ _ _ _ Hs Hold) as [-> | Hold'].
      * right. exists c. split; [lia | reflexivity].
      * left. exact Hold'.
    + right. exists c'. split; [lia | reflexivity].
Qed.

Lemma mark_row_frame n r from m m' j :
  mark_row n r from m = Some m' -> skip_get m' j = Some true ->
  skip_get m j = Some true \/ exists c', from <= c' < n /\ j = Offset n r c'.
Proof.
  unfold mark_row. intros Hm Hg.
  destruct (mark_loop_frame _ _ _ _ _ _ _ Hm Hg) as [Hold | (c' & Hc' & ->)].
  - left. exact Hold.
  - right. exists c'. split; [lia | reflexivity].
Qed.

End SkipFrame.

Section PassCoverage.
Context {T S : Type}.
Variable compareFn : CompareFuncContext T S.
Variable depth : nat.
Variable input : list T.

Let n : Z := n_of input.

Hypothesis n_exact : n <= Offset_max_n.

Lemma covered_mono (st st' : pass T S) r c :
  (forall x, x ∈ calls st -> x ∈ calls st') ->
  (forall x, x ∈ duplicates st -> x ∈ duplicates st') ->
  covered st r c -> covered st' r c.
Proof.
  intros Hc Hd [[ret Hin] | Hin]; [left; exists ret; auto | right; auto].
Qed.

(** A state with one more call for [(row, col)], the same skip matrix and
    the same result keeps the invariant and covers the pair. *)
Lemma Covers_call row col ret (st st' : pass T S) :
  calls st' = calls st ++ [mkCall row col ret] ->
  duplicates st' = duplicates st -> skipMatrix st' = skipMatrix st ->
  Covers n row col st -> Covers n row (col + 1) st'.
Proof.
  intros Hcalls Hdups Hm [K1 K2]. split.
  - intros r c Hr Hc Hlt.
    destruct (decide (r = row /\ c = col)) as [[-> ->]|Hne].
    + left. exists ret. rewrite Hcalls. apply elem_of_app. right. constructor.
    + eapply covered_mono; [| |apply K1; try assumption; lia].
      * intros x Hx. rewrite Hcalls. apply elem_of_app. left. exact Hx.
      * intros x Hx. rewrite Hdups. exact Hx.
  - intros r c Hr Hc Hg. rewrite Hdups. rewrite Hm in Hg. eapply K2; eauto.
Qed.

(** The same when the call decided the index [d], whose row was marked from
    the next column on. *)
Lemma Covers_decided row col ret d m (st st' : pass T S) :
  0 <= row < col -> col < n -> d = row \/ d = col ->
  mark_row n d (col + 1) (skipMatrix st) = Some m ->
  calls st' = calls st ++ [mkCall row col ret] ->
  duplicates st' = duplicates st ++ [d] -> skipMatrix st' = m ->
  Covers n row col st -> Covers n row (col + 1) st'.
Proof using n_exact.
  intros Hrow Hcol Hd Hmark Hcalls Hdups Hm [K1 K2]. split.
  - intros r c Hr Hc Hlt.
    destruct (decide (r = row /\ c = col)) as [[-> ->]|Hne].
    + left. exists ret. rewrite Hcalls. apply elem_of_app. right. constructor.
    + eapply covered_mono; [| |apply K1; try assumption; lia].
      * intros x Hx. rewrite Hcalls. apply elem_of_app. left. exact Hx.
      * intros x Hx. rewrite Hdups. apply elem_of_app. left. exact Hx.
  - intros r c Hr Hc Hg. rewrite Hm in Hg. rewrite Hdups. apply elem_of_app.
    destruct (mark_row_frame _ _ _ _ _ _ Hmark Hg) as [Hold | (c' & Hc' & Heq)].
    + left. eapply K2; eauto.
    + right. assert (r = d) as ->; [|constructor].
      rewrite !Offset_exact in Heq by lia.
      apply Offset_formula_inj in Heq; [tauto | lia..].
Qed.

Lemma compare_pair_covers row col (st : pass T S) :
  0 <= row < col -> col < n -> Covers n row col st ->
  match compare_pair compareFn depth input row col st with
  | (st', None) => Covers n row (col + 1) st'
  | (_, Some _) => True
  end.
Proof using n_exact.
  intros Hrow Hcol HK. pose proof HK as [K1 K2].
  unfold compare_pair. fold n.
  destruct (skip_get (skipMatrix st) (Offset n row col)) as [skip|] eqn:Hget; [|exact I].
  destruct (item input row) as [l|]; [|exact I].
  destruct (item input col) as [r|]; [|exact I].
  destruct skip.
  { (* skipped: the row index is in the result *)
    split; simpl.
    - intros r0 c0 Hr0 Hc0 Hlt.
      destruct (decide (r0 = row /\ c0 = col)) as [[-> ->]|Hne].
      + right. eapply K2; eauto.
      + apply K1; try assumption. lia.
    - exact K2. }
  destruct (compareFn (cmp_state st) l r) as [ret s']. simpl.
  destruct ret as [[dup [e|]]|msg|]; simpl; try exact I.
  - destruct (Error depth e); simpl; try exact I.
    eapply Covers_call; [| | |exact HK]; reflexivity.
  - unfold record_duplicate. fold n. destruct dup as [| | |v]; simpl; try exact I.
    + eapply Covers_call; [| | |exact HK]; reflexivity.
    + destruct (mark_row n row (col + 1) (skipMatrix st)) as [m|] eqn:Hmark; simpl;
        [|exact I].
      eapply (Covers_decided row col _ row m); try exact HK; try exact Hmark;
        try reflexivity; auto.
    + destruct (mark_row n col (col + 1) (skipMatrix st)) as [m|] eqn:Hmark; simpl;
        [|exact I].
      eapply (Covers_decided row col _ col m); try exact HK; try exact Hmark;
        try reflexivity; auto.
Qed.

(** At the end of a pass that returns, every pair is covered. *)
Lemma pass_covers s0 st :
  IndexesContext_pass compareFn depth input s0 = (st, None) ->
  forall r c, 0 <= r < c -> c < n -> covered st r c.
Proof using n_exact.
  unfold IndexesContext_pass. fold n.
  set (st0 := mkPass _ _ _ _ _).
  destruct (makeslice_panics (matrix_size input)); [discriminate|].
  intros Hrun r c Hr Hc.
  assert (H0 : Covers n 0 (0 + 1) st0).
  { split.
    - intros r0 c0 Hr0 Hc0 Hlt. lia.
    - intros r0 c0 Hr0 Hc0 Hg. exfalso. subst st0. simpl in Hg.
      unfold skip_get in Hg. destruct (Offset n r0 c0 <? 0); [discriminate|].
      apply lookup_replicate in Hg as [Hg _]. discriminate. }
  pose proof (for_range_inv (scan_row compareFn depth input)
                (fun row => Covers n row (row + 1)) (fun _ => True)
                0 (n - 1) st0 ltac:(lia)) as H.
  rewrite Hrun in H.
  destruct H as [K1 _]; [|exact H0|apply K1; try assumption; lia].
  intros row s Hrow Hs. unfold scan_row. fold n.
  pose proof (for_range_inv (compare_pair compareFn depth input row)
                (Covers n row) (fun _ => True) (row + 1) n s ltac:(lia)) as H'.
  destruct (for_range (compare_pair compareFn depth input row) (row + 1) n s)
    as [s' [why|]]; [exact I|].
  assert (HK : Covers n row n s').
  { apply H'; [|exact Hs]. intros j s1 Hj Hs1.
    apply compare_pair_covers; [lia | lia | exact Hs1]. }
  destruct HK as [K1 K2]. split; [|exact K2].
  intros r0 c0 Hr0 Hc0 Hlt. apply K1; try assumption. lia.
Qed.

End PassCoverage.

Section PassCounting.

Lemma ForallOrdPairs_map_lt {A} (R : A -> A -> Prop) (P : A -> Prop) (f : A -> Z) l :
  (forall x y, P x -> P y -> R x y -> f x < f y) ->
  Forall P l -> ForallOrdPairs R l -> ForallOrdPairs Z.lt (map f l).
Proof.
  intros Hf HP HR. induction HR as [|a l Ha Hl IH]; simpl; [constructor|].
  inversion HP as [|? ? Pa Pl]; subst. constructor.
  - apply Forall_map. rewrite Forall_forall in Ha, Pl. apply Forall_forall.
    intros y Hy. apply Hf; auto.
  - apply IH. exact Pl.
Qed.

(** A strictly increasing list of integers of [lo, hi) has at most
    [hi - lo] entries. *)
Lemma increasing_length l : forall lo hi,
  ForallOrdPairs Z.lt l -> Forall (fun x => lo <= x < hi) l ->
  Z.of_nat (length l) <= Z.max 0 (hi - lo).
Proof.
  induction l as [|x l IH]; intros lo hi Hs Hb; simpl length; [lia|].
  inversion Hs as [|? ? Hx Hl]; subst. inversion Hb as [|? ? Hbx Hbl]; subst.
  specialize (IH (x + 1) hi Hl).
  assert (Hb' : Forall (fun y => x + 1 <= y < hi) l).
  { rewrite Forall_forall in Hx, Hbl. apply Forall_forall. intros y Hy.
    specialize (Hx y Hy). specialize (Hbl y Hy). lia. }
  specialize (IH Hb'). lia.
Qed.

Lemma increasing_NoDup l : ForallOrdPairs Z.lt l -> NoDup l.
Proof.
  induction 1 as [|x l Hx Hl IH]; [constructor|].
  constructor; [|exact IH]. intros Hin. rewrite Forall_forall in Hx.
  specialize (Hx x Hin). lia.
Qed.

(** A list that holds every integer of [0, m) has at least [m] entries. *)
Lemma holds_all_length (l : list Z) m :
  (forall k, 0 <= k < m -> k ∈ l) -> m <= Z.of_nat (length l).
Proof.
  intros Hall. destruct (Z.le_gt_cases m 0) as [|Hm]; [lia|].
  assert (Hsub : seqZ 0 m ⊆+ l).
  { apply NoDup_submseteq; [apply NoDup_seqZ|].
    intros k Hk. apply elem_of_seqZ in Hk. apply Hall. lia. }
  apply submseteq_length in Hsub. rewrite length_seqZ in Hsub. lia.
Qed.

End PassCounting.

Section PassCallsOk.
Context {T S : Type}.
Variable compareFn : CompareFuncContext T S.
Variable depth : nat.
Variable input : list T.

Let n : Z := n_of input.

Lemma compare_pair_calls_ok row col (st : pass T S) :
  0 <= row < col -> col < n -> Calls_ok compareFn n row col st ->
  Calls_ok compareFn n row (col + 1)
    (fst (compare_pair compareFn depth input row col st)).
Proof.
  intros Hrow Hcol (Hb & Hs & Hp).
  pose proof (compare_pair_effect compareFn depth input row col st) as He.
  destruct (compare_pair compareFn depth input row col st) as [st' h]. simpl.
  unfold Calls_ok.
  destruct He as [[Hsame | (l & r & _ & _ & _ & Happ)] _].
  - rewrite Hsame. split; [|split; assumption].
    eapply Forall_impl; [exact Hb|]. intros c. apply before_mono. lia.
  - rewrite Happ. split; [|split].
    + apply Forall_app. split.
      * eapply Forall_impl; [exact Hb|]. intros c. apply before_mono. lia.
      * constructor; [|constructor]. unfold before. simpl. fold n. lia.
    + apply ForallOrdPairs_snoc; [exact Hs|].
      eapply Forall_impl; [exact Hb|]. intros c. apply before_scan_lt.
    + apply Forall_app. split; [exact Hp|].
      constructor; [|constructor]. simpl. eauto.
Qed.

(** Wherever a pass stops, the calls it issued are for pairs of the input,
    in scan order, and hold what the compare function returned. *)
Lemma pass_calls_ok s0 :
  exists row col,
    Calls_ok compareFn n row col (fst (IndexesContext_pass compareFn depth input s0)).
Proof.
  unfold IndexesContext_pass. fold n.
  set (st0 := mkPass _ _ _ _ _).
  assert (H0 : Calls_ok compareFn n 0 (0 + 1) st0).
  { split; [constructor | split; constructor]. }
  destruct (makeslice_panics (matrix_size input)); [exists 0, (0 + 1); exact H0|].
  destruct (Z.le_gt_cases 0 (n - 1)) as [Hn|Hn].
  2:{ unfold for_range. replace (Z.to_nat (n - 1 - 0)) with 0%nat by lia.
      exists 0, (0 + 1). exact H0. }
  pose proof (for_range_inv (scan_row compareFn depth input)
                (fun row => Calls_ok compareFn n row (row + 1))
                (fun s => exists row col, Calls_ok compareFn n row col s)
                0 (n - 1) st0 Hn) as H.
  destruct (for_range (scan_row compareFn depth input) 0 (n - 1) st0) as [st' [why|]];
    simpl.
  - apply H; [|exact H0]. clear H. intros row s Hrow Hs.
    unfold scan_row. fold n.
    pose proof (for_range_inv (compare_pair compareFn depth input row)
                  (Calls_ok compareFn n row)
                  (fun s => exists row col, Calls_ok compareFn n row col s)
                  (row + 1) n s ltac:(lia)) as H'.
    destruct (for_range (compare_pair compareFn depth input row) (row + 1) n s)
      as [s' [why'|]].
    + apply H'; [|exact Hs]. intros j s1 Hj Hs1.
      pose proof (compare_pair_calls_ok row j s1 ltac:(lia) ltac:(lia) Hs1) as Hstep.
      destruct (compare_pair compareFn depth input row j s1) as [s2 [w|]]; eauto.
    + assert (Hend : Calls_ok compareFn n row n s').
      { apply H'; [|exact Hs]. intros j s1 Hj Hs1.
        pose proof (compare_pair_calls_ok row j s1 ltac:(lia) ltac:(lia) Hs1) as Hstep.
        destruct (compare_pair compareFn depth input row j s1) as [s2 [w|]]; eauto. }
      destruct Hend as (Hb & Hs' & Hp). split; [|split; assumption].
      eapply Forall_impl; [exact Hb|]. intros c. apply before_mono. lia.
  - exists (n - 1), (n - 1 + 1). apply H; [|exact H0]. clear H. intros row s Hrow Hs.
    unfold scan_row. fold n.
    pose proof (for_range_inv (compare_pair compareFn depth input row)
                  (Calls_ok compareFn n row)
                  (fun s => exists row col, Calls_ok compareFn n row col s)
                  (row + 1) n s ltac:(lia)) as H'.
    destruct (for_range (compare_pair compareFn depth input row) (row + 1) n s)
      as [s' [why'|]].
    + apply H'; [|exact Hs]. intros j s1 Hj Hs1.
      pose proof (compare_pair_calls_ok row j s1 ltac:(lia) ltac:(lia) Hs1) as Hstep.
      destruct (compare_pair compareFn depth input row j s1) as [s2 [w|]]; eauto.
    + assert (Hend : Calls_ok compareFn n row n s').
      { apply H'; [|exact Hs]. intros j s1 Hj Hs1.
        pose proof (compare_pair_calls_ok row j s1 ltac:(lia) ltac:(lia) Hs1) as Hstep.
        destruct (compare_pair compareFn depth input row j s1) as [s2 [w|]]; eauto. }
      destruct Hend as (Hb & Hs' & Hp). split; [|split; assumption].
      eapply Forall_impl; [exact Hb|]. intros c. apply before_mono. lia.
Qed.

End PassCallsOk.


(** No more calls than there are pairs. *)
Lemma IndexesContext_calls_upper {T S : Type}
    (compareFn : CompareFuncContext T S) (depth : nat) (input : list T) (s0 : S) :
  Z.of_nat (length (calls (fst (IndexesContext_pass compareFn depth input s0))))
  <= n_of input * (n_of input - 1) / 2.
Proof.
  destruct (pass_calls_ok compareFn depth input s0) as (row & col & Hb & Hs & _).
  set (tr := calls (fst (IndexesContext_pass compareFn depth input s0))) in *.
  set (n := n_of input) in *.
  assert (Hvalid : Forall (fun c => 0 <= call_row c < call_col c /\ call_col c < n) tr).
  { eapply Forall_impl; [exact Hb|]. intros c [Hv _]. exact Hv. }
  destruct tr as [|c0 tr'] eqn:Etr.
  { simpl. assert (0 <= n) by (subst n; unfold n_of; lia).
    apply Z.div_pos; [|lia]. destruct (decide (n = 0)) as [->|]; [lia | nia]. }
  rewrite <- Etr in *.
  assert (Hn : 2 <= n).
  { rewrite Forall_forall in Hvalid.
    specialize (Hvalid c0 ltac:(rewrite Etr; constructor)). lia. }
  clear Etr c0 tr'.
  set (idx := fun c => call_row c * n + call_col c
                       - call_row c * (call_row c + 1) / 2 - (call_row c + 1)).
  assert (Hinc : ForallOrdPairs Z.lt (map idx tr)).
  { eapply ForallOrdPairs_map_lt; [|exact Hvalid|exact Hs].
    intros x y Hx Hy Hlt. unfold idx. unfold scan_lt in Hlt. simpl in Hx, Hy.
    apply Offset_formula_mono; lia. }
  pose proof (increasing_length (map idx tr) 0 (n * (n - 1) / 2) Hinc) as Hlen.
  rewrite length_map in Hlen.
  assert (Hrange : Forall (fun x => 0 <= x < n * (n - 1) / 2) (map idx tr)).
  { apply Forall_map. eapply Forall_impl; [exact Hvalid|].
    intros c Hc. unfold idx. simpl in Hc. apply Offset_range_formula; lia. }
  specialize (Hlen Hrange).
  assert (0 <= n * (n - 1) / 2) by (apply Z.div_pos; [nia | lia]). lia.
Qed.

(** X14: a pass calls the compare function at most once for a pair, only
    for pairs of indexes 0 <= row < col < n of the input, and so at most
    n(n-1)/2 times; this holds of every pass, whether it returns, panics or
    does not come back. *)
Theorem IndexesContext_calls_bound {T S : Type}
    (compareFn : CompareFuncContext T S) (depth : nat) (input : list T) (s0 : S) :
  Forall (fun c => 0 <= call_row c < call_col c /\ call_col c < n_of input)
         (calls (fst (IndexesContext_pass compareFn depth input s0)))
  /\ NoDup (map call_pair (calls (fst (IndexesContext_pass compareFn depth input s0))))
  /\ Z.of_nat (length (calls (fst (IndexesContext_pass compareFn depth input s0))))
     <= n_of input * (n_of input - 1) / 2.
Proof.
  destruct (pass_calls_ok compareFn depth input s0) as (row & col & Hb & Hs & _).
  split; [|split; [|apply IndexesContext_calls_upper]].
  - eapply Forall_impl; [exact Hb|]. intros c [Hv _]. exact Hv.
  - set (tr := calls (fst (IndexesContext_pass compareFn depth input s0))) in *.
    clearbody tr. clear Hb.
    induction Hs as [|c tr Hc Htr IH]; simpl; [constructor|].
    constructor; [|exact IH].
    intros Hin. apply list_elem_of_fmap in Hin as (c' & Heq & Hin).
    rewrite Forall_forall in Hc. specialize (Hc c' Hin).
    unfold call_pair in Heq. inversion Heq as [[Hrow Hcol]].
    unfold scan_lt in Hc. lia.
Qed.

(** X15: the skip matrix only ever elides a comparison for an index that is
    already in the result. At the end of a pass that returns, with at most
    3037000501 items, every pair 0 <= r < c < n was handed to the compare
    function, or its row index r is in the returned list. *)
Theorem IndexesContext_covers {T S : Type}
    (compareFn : CompareFuncContext T S) (depth : nat) (input : list T) (s0 : S)
    (st : pass T S) (r c : Z) :
  IndexesContext_pass compareFn depth input s0 = (st, None) ->
  n_of input <= Offset_max_n ->
  0 <= r < c -> c < n_of input ->
  covered st r c.
Proof.
  intros Hrun Hn Hr Hc. eapply pass_covers; eauto.
Qed.

Lemma IndexesContext_covers_witness :
  covered (mkPass [false; false; false] [2; 2] 3%nat
             [mkCall 0 1 (Done (Sel.None, None));
              mkCall 0 2 (Done (Sel.Right, None));
              mkCall 1 2 (Done (Sel.Right, None))]
             [Comparison 0%nat 1%nat Sel.None;
              Comparison 0%nat 2%nat Sel.Right;
              Comparison 1%nat 2%nat Sel.Right]) 1 2.
Proof.
  apply (IndexesContext_covers (stub_compare stub_right_twice) 0 [0; 1; 2]%nat 0%nat).
  - vm_compute. reflexivity.
  - vm_compute. discriminate.
  - lia.
  - vm_compute. reflexivity.
Defined.

(** X16: the worst case. With a compare function that never finds a
    duplicate, and at most 23726566 items (the largest skip matrix that
    [make] accepts), the pass returns the empty list
    after exactly n(n-1)/2 calls: every pair is compared, once. *)
Theorem IndexesContext_all_pairs {T S : Type}
    (compareFn : CompareFuncContext T S) (depth : nat) (input : list T) (s0 : S) :
  never_selects compareFn depth -> n_of input <= IndexesContext_max_n ->
  exists st,
    IndexesContext_pass compareFn depth input s0 = (st, None)
    /\ duplicates st = []
    /\ Z.of_nat (length (calls st)) = n_of input * (n_of input - 1) / 2.
Proof.
  intros Hnever Hn.
  assert (Hok : compare_returns compareFn depth).
  { intros s l r. destruct (Hnever s l r) as (err & s' & Hcmp & Herr).
    exists Sel.None, err, s'. split; [exact Hcmp|]. split; [discriminate | exact Herr]. }
  destruct (IndexesContext_pass_returns compareFn depth input Hok Hn s0) as [st Hrun].
  exists st. split; [exact Hrun|].
  (* nothing is decided *)
  pose proof (pass_inv compareFn depth input s0) as HI. rewrite Hrun in HI.
  destruct HI as [row HI]. pose proof (inv_dups _ _ _ _ HI) as Hd.
  destruct (pass_calls_ok compareFn depth input s0) as (row' & col' & Hb & Hs & Hp).
  rewrite Hrun in Hb, Hs, Hp. simpl in Hb, Hs, Hp.
  assert (Hnone : decided (calls st) = []).
  { unfold decided. clear -Hp Hnever. induction Hp as [|c tr Hc Htr IH]; [reflexivity|].
    simpl. rewrite IH, app_nil_r. destruct Hc as (s & l & r & Hret).
    destruct (Hnever s l r) as (err & s' & Hcmp & _). rewrite Hcmp in Hret.
    unfold decided_by. rewrite Hret. simpl. destruct err; reflexivity. }
  rewrite Hnone in Hd. split; [exact Hd|].
  (* at most, and at least, one call per pair *)
  pose proof (IndexesContext_calls_upper compareFn depth input s0) as Hupper.
  rewrite Hrun in Hupper. simpl in Hupper.
  apply Z.le_antisymm; [exact Hupper|].
  set (n := n_of input) in *.
  destruct (Z.le_gt_cases n 1) as [Hsmall|Hbig].
  { assert (0 <= n) by (subst n; unfold n_of; lia).
    assert (Hz : n * (n - 1) = 0) by nia. rewrite Hz, Z.div_0_l by lia. lia. }
  pose proof (holds_all_length
                (map (fun c => Offset n (call_row c) (call_col c)) (calls st))
                (n * (n - 1) / 2)) as Hlow.
  rewrite length_map in Hlow. apply Hlow. intros k Hk.
  destruct (Offset_onto n k) as (r & c & Hr & Hc & Hoff);
    [unfold Offset_max_n, IndexesContext_max_n in *; lia | exact Hk |].
  destruct (pass_covers compareFn depth input
              ltac:(unfold Offset_max_n, IndexesContext_max_n in *; fold n; lia)
              s0 st Hrun r c Hr Hc) as [[ret Hin] | Hin].
  - apply list_elem_of_fmap. exists (mkCall r c ret). split; [symmetry; exact Hoff | exact Hin].
  - rewrite Hd in Hin. inversion Hin.
Qed.

Lemma IndexesContext_all_pairs_witness :
  exists st,
    IndexesContext_pass (stub_compare (fun _ _ => Sel.None)) 0 [0; 1; 2]%nat 0%nat
      = (st, None)
    /\ duplicates st = []
    /\ Z.of_nat (length (calls st)) = 3.
Proof.
  apply (IndexesContext_all_pairs (stub_compare (fun _ _ => Sel.None)) 0 [0; 1; 2]%nat 0%nat).
  - intros s l r. exists None, (S s). split; [reflexivity | discriminate].
  - vm_compute. discriminate.
Defined.


(** ** A pass with a compare function that decides an equivalence *)

Section PassLater.
Context {T S : Type}.
Variable compareFn : CompareFuncContext T S.
Variable depth : nat.
Variable input : list T.
Variable R : T -> T -> Prop.

Let n : Z := n_of input.

Hypothesis n_exact : n <= Offset_max_n.
Hypothesis R_sym : forall x y, R x y -> R y x.
Hypothesis R_trans : forall x y z, R x y -> R y z -> R x z.
Hypothesis compare_ok : selects_right compareFn R.

Lemma related_sym i j : related R input i j -> related R input j i.
Proof. intros (l & r & Hl & Hr & HR). exists r, l. auto. Qed.

Lemma related_trans i j k :
  related R input i j -> related R input j k -> related R input i k.
Proof.
  intros (l & r & Hl & Hr & HR) (l' & r' & Hl' & Hr' & HR').
  rewrite Hr in Hl'. inversion Hl'; subst l'. exists l, r'. eauto.
Qed.

Lemma Later_next_row row (st : pass T S) :
  Later R input row n st -> Later R input (row + 1) (row + 1 + 1) st.
Proof.
  intros (L1 & L2 & L3 & L4). split; [exact L1|]. split; [|split; [|exact L4]].
  - intros j Hj. destruct (L2 j Hj) as (i & Hi & Hjn & Hrel & Hb).
    exists i. repeat split; try assumption; lia.
  - intros i j Hi Hj Hb Hrel. apply (L3 i j); try assumption. fold n in Hj. lia.
Qed.

Lemma compare_pair_later row col (st : pass T S) :
  0 <= row < col -> col < n -> Later R input row col st ->
  match compare_pair compareFn depth input row col st with
  | (st', None) => Later R input row (col + 1) st'
  | (_, Some _) => True
  end.
Proof using n_exact R_sym R_trans compare_ok.
  intros Hrow Hcol (L1 & L2 & L3 & L4). fold n in L2, L3, L4.
  unfold compare_pair. fold n.
  destruct (skip_get (skipMatrix st) (Offset n row col)) as [skip|] eqn:Hget; [|exact I].
  destruct (item input row) as [l|] eqn:Hl; [|exact I].
  destruct (item input col) as [r|] eqn:Hr; [|exact I].
  (* what the result already says of this pair *)
  assert (Hearlier : row ∈ duplicates st -> related R input row col ->
                     col ∈ duplicates st).
  { intros Hin Hrel. destruct (L2 row Hin) as (i & Hi & _ & Hrel' & Hb).
    apply (L3 i col); [lia | lia | lia |]. eapply related_trans; eassumption. }
  destruct skip.
  { (* skipped: the row index is a copy of an earlier one *)
    simpl. split; [exact L1|]. split; [|split; [|exact L4]]; fold n.
    - intros j Hj. destruct (L2 j Hj) as (i & Hi & Hjn & Hrel & Hb).
      exists i. repeat split; try assumption; lia.
    - intros i j Hi Hj Hb Hrel.
      destruct (decide (i = row /\ j = col)) as [[-> ->]|Hne].
      + apply Hearlier; [|exact Hrel]. apply (proj1 (L4 row col Hrow Hcol)), Hget.
      + apply (L3 i j); try assumption. lia. }
  destruct (compare_ok (cmp_state st) l r) as [s' [[HR Hcmp] | [HR Hcmp]]];
    rewrite Hcmp; simpl.
  - (* related: the column index goes to the result *)
    unfold record_duplicate. fold n.
    destruct (mark_row n col (col + 1) (skipMatrix st)) as [m|] eqn:Hmark; simpl;
      [|exact I].
    assert (Hrel : related R input row col) by (exists l, r; auto).
    assert (Hnew : col ∉ duplicates st).
    { intros Hin. destruct (L2 col Hin) as (i & Hi & _ & Hrel' & Hb).
      assert (Hrow_in : row ∈ duplicates st).
      { apply (L3 i row); [lia | lia | lia |].
        eapply related_trans; [exact Hrel' | apply related_sym, Hrel]. }
      apply (proj2 (L4 row col Hrow Hcol)) in Hrow_in. congruence. }
    split; [|split; [|split]]; fold n.
    + apply NoDup_app. split; [exact L1|]. split; [|apply NoDup_singleton].
      intros x Hx Hx'. apply list_elem_of_singleton in Hx'. subst. contradiction.
    + intros j Hj. apply elem_of_app in Hj as [Hj|Hj].
      * destruct (L2 j Hj) as (i & Hi & Hjn & Hrel' & Hb).
        exists i. repeat split; try assumption; lia.
      * apply list_elem_of_singleton in Hj. subst j.
        exists row. repeat split; try assumption; lia.
    + intros i j Hi Hj Hb Hrel'. apply elem_of_app.
      destruct (decide (i = row /\ j = col)) as [[-> ->]|Hne].
      * right. constructor.
      * left. apply (L3 i j); try assumption. lia.
    + intros r0 c0 Hr0 Hc0. simpl. rewrite elem_of_app, list_elem_of_singleton. split.
      * intros Hg.
        destruct (mark_row_frame _ _ _ _ _ _ Hmark Hg) as [Hold | (c' & Hc' & Heq)].
        -- left. apply (proj1 (L4 r0 c0 Hr0 Hc0)), Hold.
        -- right. rewrite !Offset_exact in Heq by lia.
           apply Offset_formula_inj in Heq; [tauto | lia..].
      * intros [Hin | ->].
        -- eapply mark_row_keeps; [exact Hmark|]. apply (proj2 (L4 r0 c0 Hr0 Hc0)), Hin.
        -- eapply mark_row_marks; [exact Hmark|]. lia.
  - (* not related *)
    split; [exact L1|]. split; [|split; [|exact L4]]; simpl; fold n.
    + intros j Hj. destruct (L2 j Hj) as (i & Hi & Hjn & Hrel & Hb).
      exists i. repeat split; try assumption; lia.
    + intros i j Hi Hj Hb (l' & r' & Hl' & Hr' & HR').
      destruct (decide (i = row /\ j = col)) as [[-> ->]|Hne].
      * exfalso. apply HR. congruence.
      * apply (L3 i j); try assumption; [lia|]. exists l', r'. auto.
Qed.

Lemma pass_later s0 st :
  IndexesContext_pass compareFn depth input s0 = (st, None) ->
  Later R input (n - 1) n st.
Proof using n_exact R_sym R_trans compare_ok.
  unfold IndexesContext_pass. fold n.
  set (st0 := mkPass _ _ _ _ _).
  destruct (makeslice_panics (matrix_size input)); [discriminate|].
  intros Hrun.
  assert (Hempty : forall j, skip_get (skipMatrix st0) j = Some true -> False).
  { intros j Hg. subst st0. simpl in Hg. unfold skip_get in Hg.
    destruct (j <? 0); [discriminate|].
    apply lookup_replicate in Hg as [Hg _]. discriminate. }
  assert (Hstart : Later R input 0 (0 + 1) st0).
  { split; [constructor|]. split; [|split].
    - intros j Hj. apply elem_of_nil in Hj. contradiction.
    - intros i j Hi Hj Hb _. lia.
    - intros r c Hr Hc. split.
      + intros Hg. exfalso. eapply Hempty, Hg.
      + intros Hin. apply elem_of_nil in Hin. contradiction. }
  destruct (Z.le_gt_cases 0 (n - 1)) as [Hn|Hn].
  2:{ unfold for_range in Hrun. replace (Z.to_nat (n - 1 - 0)) with 0%nat in Hrun by lia.
      simpl in Hrun. inversion Hrun; subst st.
      destruct Hstart as (L1 & L2 & L3 & L4). split; [exact L1|].
      split; [|split; [|exact L4]].
      - intros j Hj. apply elem_of_nil in Hj. contradiction.
      - intros i j Hi Hj. fold n in Hj. lia. }
  pose proof (for_range_inv (scan_row compareFn depth input)
                (fun row => Later R input row (row + 1)) (fun _ => True)
                0 (n - 1) st0 Hn) as H.
  rewrite Hrun in H.
  assert (Hend : Later R input (n - 1) (n - 1 + 1) st).
  { apply H; [|exact Hstart]. clear H. intros row s Hrow Hs.
    unfold scan_row. fold n.
    pose proof (for_range_inv (compare_pair compareFn depth input row)
                  (Later R input row) (fun _ => True) (row + 1) n s ltac:(lia)) as H'.
    destruct (for_range (compare_pair compareFn depth input row) (row + 1) n s)
      as [s' [why|]]; [exact I|].
    assert (HK : Later R input row n s').
    { apply H'; [|exact Hs]. intros j s1 Hj Hs1.
      apply compare_pair_later; [lia | lia | exact Hs1]. }
    apply Later_next_row, HK. }
  replace (n - 1 + 1) with n in Hend by lia. exact Hend.
Qed.

End PassLater.

(** X21: with a compare function that decides an equivalence of the items
    and always takes the second one, [IndexesContext] returns the indexes of
    the later copies: an index is in the result exactly when its item is
    equivalent to the item at a smaller index, and no index is in the
    result twice. The skip matrix saves calls without changing the result.
    The input has at most 23726566 items, the largest skip matrix that
    [make] accepts. *)
Theorem IndexesContext_later_copies {T S : Type}
    (compareFn : CompareFuncContext T S) (depth : nat) (input : list T) (s0 : S)
    (R : T -> T -> Prop) :
  (forall x y, R x y -> R y x) -> (forall x y z, R x y -> R y z -> R x z) ->
  selects_right compareFn R ->
  n_of input <= IndexesContext_max_n ->
  exists dups,
    IndexesContext compareFn depth input s0 = Done dups
    /\ NoDup dups
    /\ forall j, j ∈ dups <-> exists i, 0 <= i < j /\ related R input i j.
Proof.
  intros Hsym Htrans Hcmp Hn.
  assert (Hok : compare_returns compareFn depth).
  { intros s l r. destruct (Hcmp s l r) as [s' [[_ H] | [_ H]]].
    - exists Sel.Right, None, s'. split; [exact H|]. split; [discriminate | discriminate].
    - exists Sel.None, None, s'. split; [exact H|]. split; [discriminate | discriminate]. }
  destruct (IndexesContext_pass_returns compareFn depth input Hok Hn s0) as [st Hrun].
  assert (Hn' : n_of input <= Offset_max_n)
    by (unfold Offset_max_n, IndexesContext_max_n in *; lia).
  destruct (pass_later compareFn depth input R Hn' Hsym Htrans Hcmp s0 st Hrun)
    as (L1 & L2 & L3 & L4).
  exists (duplicates st). unfold IndexesContext. rewrite Hrun.
  split; [reflexivity|]. split; [exact L1|].
  intros j. split.
  - intros Hj. destruct (L2 j Hj) as (i & Hi & _ & Hrel & _). exists i. auto.
  - intros (i & Hi & Hrel). assert (Hj : j < n_of input).
    { destruct Hrel as (l & r & _ & Hr & _). unfold item in Hr.
      destruct (j <? 0); [discriminate|]. apply lookup_lt_Some in Hr.
      unfold n_of. lia. }
    apply (L3 i j); [lia | exact Hj | lia | exact Hrel].
Qed.

Lemma IndexesContext_later_copies_witness :
  exists dups,
    IndexesContext (stub_compare equal_takes_right) 0 [7; 8; 8; 7]%nat 0%nat = Done dups
    /\ NoDup dups
    /\ forall j, j ∈ dups <-> exists i, 0 <= i < j /\ related eq [7; 8; 8; 7]%nat i j.
Proof.
  apply (IndexesContext_later_copies (stub_compare equal_takes_right) 0
           [7; 8; 8; 7]%nat 0%nat eq).
  - intros x y Hxy. symmetry. exact Hxy.
  - intros x y z Hxy Hyz. rewrite Hxy. exact Hyz.
  - intros s l r. exists (Datatypes.S s). unfold stub_compare, equal_takes_right.
    destruct (Nat.eqb_spec l r); [left | right]; split; auto.
  - vm_compute. discriminate.
Defined.

Section PassEarlier.
Context {T S : Type}.
Variable compareFn : CompareFuncContext T S.
Variable depth : nat.
Variable input : list T.
Variable R : T -> T -> Prop.

Let n : Z := n_of input.

Hypothesis n_exact : n <= Offset_max_n.
Hypothesis compare_ok : selects_left compareFn R.

Lemma Earlier_next_row row (st : pass T S) :
  Earlier R input row n st -> Earlier R input (row + 1) (row + 1 + 1) st.
Proof.
  intros (E1 & E2 & E3 & E4). split; [exact E1|]. split; [|split; [|exact E4]].
  - intros i Hi. destruct (E2 i Hi) as (j & Hij & Hjn & Hrel & Hb & Hm).
    exists j. repeat split; try assumption; lia.
  - intros i j Hi Hj Hb Hrel. apply (E3 i j); try assumption. fold n in Hj. lia.
Qed.

Lemma compare_pair_earlier row col (st : pass T S) :
  0 <= row < col -> col < n -> Earlier R input row col st ->
  match compare_pair compareFn depth input row col st with
  | (st', None) => Earlier R input row (col + 1) st'
  | (_, Some _) => True
  end.
Proof using n_exact compare_ok.
  intros Hrow Hcol (E1 & E2 & E3 & E4). fold n in E2, E3, E4.
  unfold compare_pair. fold n.
  destruct (skip_get (skipMatrix st) (Offset n row col)) as [skip|] eqn:Hget; [|exact I].
  destruct (item input row) as [l|] eqn:Hl; [|exact I].
  destruct (item input col) as [r|] eqn:Hr; [|exact I].
  destruct skip.
  { (* skipped: the row index is in the result already *)
    simpl. split; [exact E1|]. split; [|split; [|exact E4]]; fold n.
    - intros i Hi. destruct (E2 i Hi) as (j & Hij & Hjn & Hrel & Hb & Hm).
      exists j. repeat split; try assumption; lia.
    - intros i j Hi Hj Hb Hrel.
      destruct (decide (i = row /\ j = col)) as [[-> ->]|Hne].
      + apply (E4 row col); assumption.
      + apply (E3 i j); try assumption. lia. }
  destruct (compare_ok (cmp_state st) l r) as [s' [[HR Hcmp] | [HR Hcmp]]];
    rewrite Hcmp; simpl.
  - (* related: the row index goes to the result *)
    unfold record_duplicate. fold n.
    destruct (mark_row n row (col + 1) (skipMatrix st)) as [m|] eqn:Hmark; simpl;
      [|exact I].
    assert (Hrel : related R input row col) by (exists l, r; auto).
    assert (Hbelow : Forall (fun i => i < row) (duplicates st)).
    { apply Forall_forall. intros i Hi.
      destruct (E2 i Hi) as (j & Hij & Hjn & _ & Hb & Hm).
      destruct Hb as [Hb | [-> Hb]]; [exact Hb|].
      exfalso. rewrite (Hm col) in Hget by lia. discriminate. }
    split; [|split; [|split]]; fold n.
    + apply ForallOrdPairs_snoc; assumption.
    + intros i Hi. apply elem_of_app in Hi as [Hi|Hi].
      * destruct (E2 i Hi) as (j & Hij & Hjn & Hrel' & Hb & Hm).
        exists j. repeat split; try assumption; try lia.
        intros c Hc. eapply mark_row_keeps; [exact Hmark|]. apply Hm, Hc.
      * apply list_elem_of_singleton in Hi. subst i.
        exists col. repeat split; try assumption; try lia.
        intros c Hc. eapply mark_row_marks; [exact Hmark|]. lia.
    + intros i j Hi Hj Hb Hrel'. apply elem_of_app.
      destruct (decide (i = row /\ j = col)) as [[-> ->]|Hne].
      * right. constructor.
      * left. apply (E3 i j); try assumption. lia.
    + intros r0 c0 Hr0 Hc0 Hg. simpl. apply elem_of_app.
      destruct (mark_row_frame _ _ _ _ _ _ Hmark Hg) as [Hold | (c' & Hc' & Heq)].
      * left. apply (E4 r0 c0); assumption.
      * right. rewrite !Offset_exact in Heq by lia.
        apply Offset_formula_inj in Heq; [|lia..].
        destruct Heq as [-> _]. constructor.
  - (* not related *)
    split; [exact E1|]. split; [|split; [|exact E4]]; simpl; fold n.
    + intros i Hi. destruct (E2 i Hi) as (j & Hij & Hjn & Hrel & Hb & Hm).
      exists j. repeat split; try assumption; lia.
    + intros i j Hi Hj Hb (l' & r' & Hl' & Hr' & HR').
      destruct (decide (i = row /\ j = col)) as [[-> ->]|Hne].
      * exfalso. apply HR. congruence.
      * apply (E3 i j); try assumption; [lia|]. exists l', r'. auto.
Qed.

Lemma pass_earlier s0 st :
  IndexesContext_pass compareFn depth input s0 = (st, None) ->
  Earlier R input (n - 1) n st.
Proof using n_exact compare_ok.
  unfold IndexesContext_pass. fold n.
  set (st0 := mkPass _ _ _ _ _).
  destruct (makeslice_panics (matrix_size input)); [discriminate|].
  intros Hrun.
  assert (Hempty : forall j, skip_get (skipMatrix st0) j = Some true -> False).
  { intros j Hg. subst st0. simpl in Hg. unfold skip_get in Hg.
    destruct (j <? 0); [discriminate|].
    apply lookup_replicate in Hg as [Hg _]. discriminate. }
  assert (Hstart : forall row col, (forall i j, 0 <= i < j -> j < n ->
                      i < row \/ (i = row /\ j < col) -> False) ->
                   Earlier R input row col st0).
  { intros row col Hnone. split; [constructor|]. split; [|split].
    - intros j Hj. apply elem_of_nil in Hj. contradiction.
    - intros i j Hi Hj Hb _. exfalso. eapply Hnone; eauto.
    - intros r c Hr Hc Hg. exfalso. eapply Hempty, Hg. }
  destruct (Z.le_gt_cases 0 (n - 1)) as [Hn|Hn].
  2:{ unfold for_range in Hrun. replace (Z.to_nat (n - 1 - 0)) with 0%nat in Hrun by lia.
      simpl in Hrun. inversion Hrun; subst st. apply Hstart. intros; lia. }
  pose proof (for_range_inv (scan_row compareFn depth input)
                (fun row => Earlier R input row (row + 1)) (fun _ => True)
                0 (n - 1) st0 Hn) as H.
  rewrite Hrun in H.
  assert (Hend : Earlier R input (n - 1) (n - 1 + 1) st).
  { apply H; [|apply Hstart; intros; lia]. clear H. intros row s Hrow Hs.
    unfold scan_row. fold n.
    pose proof (for_range_inv (compare_pair compareFn depth input row)
                  (Earlier R input row) (fun _ => True) (row + 1) n s ltac:(lia)) as H'.
    destruct (for_range (compare_pair compareFn depth input row) (row + 1) n s)
      as [s' [why|]]; [exact I|].
    assert (HK : Earlier R input row n s').
    { apply H'; [|exact Hs]. intros j s1 Hj Hs1.
      apply compare_pair_earlier; [lia | lia | exact Hs1]. }
    apply Earlier_next_row, HK. }
  replace (n - 1 + 1) with n in Hend by lia. exact Hend.
Qed.

End PassEarlier.

Lemma related_in_range {T : Type} (R : T -> T -> Prop) (input : list T) i j :
  related R input i j -> 0 <= i < n_of input /\ 0 <= j < n_of input.
Proof.
  intros (l & r & Hl & Hr & _). unfold item in Hl, Hr. unfold n_of.
  destruct (Z.ltb_spec i 0); [discriminate|]. destruct (Z.ltb_spec j 0); [discriminate|].
  apply lookup_lt_Some in Hl, Hr. lia.
Qed.

(** X22: with a compare function that decides a relation of the items and
    always takes the first one, [IndexesContext] returns, in ascending
    order, the indexes whose item is related to the item at a larger
    index. The input has at most 23726566 items, the largest skip matrix
    that [make] accepts. *)
Theorem IndexesContext_earlier_copies {T S : Type}
    (compareFn : CompareFuncContext T S) (depth : nat) (input : list T) (s0 : S)
    (R : T -> T -> Prop) :
  selects_left compareFn R ->
  n_of input <= IndexesContext_max_n ->
  exists dups,
    IndexesContext compareFn depth input s0 = Done dups
    /\ ForallOrdPairs Z.lt dups
    /\ forall i, i ∈ dups <-> exists j, i < j /\ related R input i j.
Proof.
  intros Hcmp Hn.
  assert (Hok : compare_returns compareFn depth).
  { intros s l r. destruct (Hcmp s l r) as [s' [[_ H] | [_ H]]].
    - exists Sel.Left, None, s'. split; [exact H|]. split; [discriminate | discriminate].
    - exists Sel.None, None, s'. split; [exact H|]. split; [discriminate | discriminate]. }
  destruct (IndexesContext_pass_returns compareFn depth input Hok Hn s0) as [st Hrun].
  assert (Hn' : n_of input <= Offset_max_n)
    by (unfold Offset_max_n, IndexesContext_max_n in *; lia).
  destruct (pass_earlier compareFn depth input R Hn' Hcmp s0 st Hrun)
    as (E1 & E2 & E3 & E4).
  exists (duplicates st). unfold IndexesContext. rewrite Hrun.
  split; [reflexivity|]. split; [exact E1|].
  intros i. split.
  - intros Hi. destruct (E2 i Hi) as (j & Hij & _ & Hrel & _). exists j. split; [lia|exact Hrel].
  - intros (j & Hij & Hrel). pose proof (related_in_range _ _ _ _ Hrel) as [Hi Hj].
    apply (E3 i j); [lia | lia | lia | exact Hrel].
Qed.

Lemma IndexesContext_earlier_copies_witness :
  exists dups,
    IndexesContext (stub_compare equal_takes_left) 0 [7; 8; 7; 8; 7]%nat 0%nat = Done dups
    /\ ForallOrdPairs Z.lt dups
    /\ forall i, i ∈ dups <-> exists j, i < j /\ related eq [7; 8; 7; 8; 7]%nat i j.
Proof.
  apply (IndexesContext_earlier_copies (stub_compare equal_takes_left) 0
           [7; 8; 7; 8; 7]%nat 0%nat eq).
  - intros s l r. exists (Datatypes.S s). unfold stub_compare, equal_takes_left.
    destruct (Nat.eqb_spec l r); [left | right]; split; auto.
  - vm_compute. discriminate.
Defined.


(** ** The loop of run: handlers *)

Section HandlerFacts.
Context {H : Type}.
Variable handle : H -> string -> option error * H.
Variable depth : nat.

Lemma handle_dups_all sizeBucket dups h acc :
  Forall (fun i => 0 <= i < Z.of_nat (length sizeBucket)) dups ->
  (forall h0 p e h1, handle h0 p = (Some e, h1) -> exists msg, Error depth e = Done msg) ->
  exists paths h',
    handle_dups handle depth sizeBucket dups h acc = (acc ++ paths, h', None)
    /\ Forall2 (fun i p => sizeBucket !! Z.to_nat i = Some p) dups paths.
Proof.
  intros Hvalid Herr. revert h acc.
  induction Hvalid as [|i dups Hi Hrest IH]; intros h acc; simpl.
  - exists [], h. rewrite app_nil_r. split; [reflexivity | constructor].
  - destruct (Z.ltb_spec i 0) as [?|_]; [lia|].
    destruct (lookup_lt_is_Some_2 sizeBucket (Z.to_nat i)) as [p Hp]; [lia|].
    rewrite Hp. destruct (handle h p) as [err h1] eqn:Hh.
    destruct (IH h1 (acc ++ [p])) as (paths & h' & Hrun & Hall).
    exists (p :: paths), h'. rewrite <- app_assoc in Hrun. simpl in Hrun.
    split; [|constructor; assumption].
    destruct err as [e|]; [|exact Hrun].
    destruct (Herr _ _ _ _ Hh) as [msg ->]. exact Hrun.
Qed.

End HandlerFacts.

(** X17: a handler that fails does not stop the run. When the pass over a
    bucket returns and the errors of the handler can be logged, the handler
    is called for every entry of the result, failures included, in the
    order of the result, and the loop runs to its end. *)
Theorem run_bucket_handles_all {H S : Type}
    (handle : H -> string -> option error * H) (depth : nat)
    (compareFn : CompareFuncContext string S) (s0 : S)
    (sizeBucket : list string) (h : H) (st : pass string S) :
  IndexesContext_pass compareFn depth sizeBucket s0 = (st, None) ->
  (forall h0 p e h1, handle h0 p = (Some e, h1) -> exists msg, Error depth e = Done msg) ->
  exists handled h',
    run_bucket handle depth compareFn s0 sizeBucket h = (handled, h', None)
    /\ Forall2 (fun i p => sizeBucket !! Z.to_nat i = Some p) (duplicates st) handled.
Proof.
  intros Hrun Herr. unfold run_bucket. rewrite Hrun.
  pose proof (pass_inv compareFn depth sizeBucket s0) as HI. rewrite Hrun in HI.
  destruct HI as [row HI]. pose proof (inv_range _ _ _ _ HI) as Hr.
  destruct (handle_dups_all handle depth sizeBucket (duplicates st) h [] Hr Herr)
    as (paths & h' & Hd & Hall).
  exists paths, h'. split; [exact Hd | exact Hall].
Qed.

Lemma run_bucket_handles_all_witness :
  exists handled h',
    run_bucket (fun (n : nat) (_ : string) => (Some (errorString "denied"), S n)) 0
      (FilenameFn_compare example_fs 8) tt
      ["d/a (2).jpg"; "d/a (3).jpg"; "d/a.jpg"] 0%nat = (handled, h', None)
    /\ Forall2 (fun i p => ["d/a (2).jpg"; "d/a (3).jpg"; "d/a.jpg"] !! Z.to_nat i = Some p)
               [1; 0] handled.
Proof.
  apply (run_bucket_handles_all
           (fun (n : nat) (_ : string) => (Some (errorString "denied"), S n)) 0
           (FilenameFn_compare example_fs 8) tt
           ["d/a (2).jpg"; "d/a (3).jpg"; "d/a.jpg"] 0%nat
           (fst (IndexesContext_pass (FilenameFn_compare example_fs 8) 0
                   ["d/a (2).jpg"; "d/a (3).jpg"; "d/a.jpg"] tt))).
  - vm_compute. reflexivity.
  - intros h0 p e h1 Hh. inversion Hh; subst. exists "denied". reflexivity.
Defined.

(** X18: a dry run touches nothing. With the handler that [dryRun] returns,
    whatever handler it was given, the loop over a bucket prints the paths
    of the duplicates, one line each in the order of the result, never
    fails, and leaves the world of the wrapped handler as it was. *)
Theorem run_bucket_dry_run {W S : Type}
    (h : W * list string -> string -> option error * (W * list string)) (depth : nat)
    (compareFn : CompareFuncContext string S) (s0 : S)
    (sizeBucket : list string) (w : W) (out : list string) (st : pass string S) :
  IndexesContext_pass compareFn depth sizeBucket s0 = (st, None) ->
  exists paths,
    run_bucket (dryRun h) depth compareFn s0 sizeBucket (w, out)
    = (paths, (w, out ++ paths), None)
    /\ Forall2 (fun i p => sizeBucket !! Z.to_nat i = Some p) (duplicates st) paths.
Proof.
  intros Hrun. unfold run_bucket. rewrite Hrun.
  pose proof (pass_inv compareFn depth sizeBucket s0) as HI. rewrite Hrun in HI.
  destruct HI as [row HI]. pose proof (inv_range _ _ _ _ HI) as Hr.
  clear HI Hrun.
  assert (Hgen : forall dups, Forall (fun i => 0 <= i < Z.of_nat (length sizeBucket)) dups ->
            forall out acc, exists paths,
              handle_dups (dryRun h) depth sizeBucket dups (w, out) acc
              = (acc ++ paths, (w, out ++ paths), None)
              /\ Forall2 (fun i p => sizeBucket !! Z.to_nat i = Some p) dups paths).
  { clear. induction 1 as [|i dups Hi Hrest IH]; intros out acc; simpl.
    - exists []. rewrite !app_nil_r. split; [reflexivity | constructor].
    - destruct (Z.ltb_spec i 0) as [?|_]; [lia|].
      destruct (lookup_lt_is_Some_2 sizeBucket (Z.to_nat i)) as [p Hp]; [lia|].
      rewrite Hp. destruct (IH (out ++ [p]) (acc ++ [p])) as (paths & Hrun & Hall).
      exists (p :: paths). rewrite <- !app_assoc in Hrun. simpl in Hrun.
      split; [exact Hrun | constructor; assumption]. }
  destruct (Hgen (duplicates st) Hr out []) as (paths & Hd & Hall).
  exists paths. split; [exact Hd | exact Hall].
Qed.

Lemma run_bucket_dry_run_witness :
  exists paths,
    run_bucket (dryRun (fun (st : unit * list string) (_ : string) => (None, st))) 0
      (FilenameFn_compare example_fs 8) tt
      ["d/a (2).jpg"; "d/a (3).jpg"; "d/a.jpg"] (tt, [])
    = (paths, (tt, [] ++ paths), None)
    /\ Forall2 (fun i p => ["d/a (2).jpg"; "d/a (3).jpg"; "d/a.jpg"] !! Z.to_nat i = Some p)
               [1; 0] paths.
Proof.
  apply (run_bucket_dry_run (fun (st : unit * list string) (_ : string) => (None, st)) 0
           (FilenameFn_compare example_fs 8) tt
           ["d/a (2).jpg"; "d/a (3).jpg"; "d/a.jpg"] tt []
           (fst (IndexesContext_pass (FilenameFn_compare example_fs 8) 0
                   ["d/a (2).jpg"; "d/a (3).jpg"; "d/a.jpg"] tt))).
  vm_compute. reflexivity.
Defined.

(** ** stageBuckets *)

Section StageFacts.
Variable MinSize : Z.

Lemma bucket_at_insert buckets sz v sz' :
  bucket_at (<[sz := v]> buckets) sz' = if bool_decide (sz = sz') then v else bucket_at buckets sz'.
Proof.
  unfold bucket_at. case_bool_decide as Heq.
  - subst. rewrite lookup_insert_eq. reflexivity.
  - rewrite lookup_insert_ne by exact Heq. reflexivity.
Qed.

Lemma stage_one_inv seen buckets fr :
  stage_inv MinSize seen buckets -> stage_inv MinSize (seen ++ [fr]) (stage_one MinSize buckets fr).
Proof.
  intros (Hne & Hnd & Hin). destruct fr as [p0 sz0]. unfold stage_one. simpl.
  assert (Hseen : forall p sz, mkFileResult p sz ∈ seen ++ [mkFileResult p0 sz0]
                   <-> mkFileResult p sz ∈ seen \/ (p = p0 /\ sz = sz0)).
  { intros p sz. rewrite elem_of_app, list_elem_of_singleton.
    split; (intros [?|Heq]; [left; assumption|right]).
    - inversion Heq. split; reflexivity.
    - destruct Heq as [-> ->]. reflexivity. }
  destruct (Z.ltb_spec sz0 MinSize) as [Hlt|Hge].
  - split; [exact Hne | split; [exact Hnd | intros sz p]].
    rewrite Hseen, Hin. split.
    + intros [? ?]. auto.
    + intros [Hsz [Hp|[-> ->]]]; [auto | lia].
  - case_bool_decide as Hmem.
    + split; [exact Hne | split; [exact Hnd | intros sz p]].
      rewrite Hseen. split.
      * intros Hp. apply Hin in Hp as [? ?]. auto.
      * intros [Hsz [Hp|[-> ->]]]; [|exact Hmem].
        apply Hin. split; assumption.
    + split; [|split].
      * intros sz v Hv. destruct (decide (sz0 = sz)) as [->|Hd].
        -- rewrite lookup_insert_eq in Hv. inversion Hv; subst.
           intros Habs. apply app_eq_nil in Habs as [_ Habs]. discriminate.
        -- rewrite lookup_insert_ne in Hv by exact Hd. eapply Hne; eassumption.
      * intros sz. rewrite bucket_at_insert. case_bool_decide; [|apply Hnd].
        apply NoDup_app. split; [apply Hnd|]. split; [|apply NoDup_singleton].
        intros x Hx Hx'. apply list_elem_of_singleton in Hx'. subst. contradiction.
      * intros sz p. rewrite bucket_at_insert, Hseen. case_bool_decide as Heq.
        -- subst sz. rewrite elem_of_app, list_elem_of_singleton, Hin. split.
           ++ intros [[? ?]| ->]; split; auto.
           ++ intros [Hsz [Hp | [-> _]]]; auto.
        -- rewrite Hin. split.
           ++ intros [? ?]; split; auto.
           ++ intros [Hsz [Hp | [_ ->]]]; [auto | congruence].
Qed.

Lemma stage_fold_inv frs seen buckets :
  stage_inv MinSize seen buckets ->
  stage_inv MinSize (seen ++ frs) (foldl (stage_one MinSize) buckets frs).
Proof.
  revert seen buckets. induction frs as [|fr frs IH]; intros seen buckets Hinv; simpl.
  - rewrite app_nil_r. exact Hinv.
  - replace (seen ++ fr :: frs) with ((seen ++ [fr]) ++ frs)
      by (rewrite <- app_assoc; reflexivity).
    apply IH, stage_one_inv, Hinv.
Qed.

Lemma stage_fill_inv frs : stage_inv MinSize frs (stage_fill MinSize frs).
Proof.
  apply (stage_fold_inv frs [] ∅). split; [|split].
  - intros sz v Hv. rewrite lookup_empty in Hv. discriminate.
  - intros sz. unfold bucket_at. rewrite lookup_empty. apply NoDup_nil_2.
  - intros sz p. unfold bucket_at. rewrite lookup_empty. simpl. split.
    + intros Hp. apply elem_of_nil in Hp. contradiction.
    + intros [_ Hp]. apply elem_of_nil in Hp. contradiction.
Qed.

End StageFacts.

(** X19: the buckets hold what was listed. After any sequence of records,
    the bucket of a size holds exactly the paths listed with that size,
    provided the size is at least MinSize, each path once however often
    it was listed, and a size below MinSize has no bucket. *)
Theorem stage_fill_buckets (MinSize : Z) (fileResults : list fileResult) (sz : Z) :
  NoDup (bucket_at (stage_fill MinSize fileResults) sz)
  /\ (forall p, p ∈ bucket_at (stage_fill MinSize fileResults) sz
                <-> MinSize <= sz /\ mkFileResult p sz ∈ fileResults)
  /\ (sz < MinSize -> stage_fill MinSize fileResults !! sz = None).
Proof.
  destruct (stage_fill_inv MinSize fileResults) as (Hne & Hnd & Hin).
  split; [apply Hnd|]. split; [apply Hin|].
  intros Hlt. destruct (stage_fill MinSize fileResults !! sz) as [v|] eqn:Hv; [|reflexivity].
  exfalso. destruct v as [|p v]; [eapply Hne; [exact Hv | reflexivity]|].
  assert (Hp : p ∈ bucket_at (stage_fill MinSize fileResults) sz).
  { unfold bucket_at. rewrite Hv. simpl. apply list_elem_of_here. }
  apply Hin in Hp as [? _]. lia.
Qed.

(** X20: what stageBuckets sends on. Every bucket sent has at least two
    paths, all different, and is the set of the listed paths of one size
    not below MinSize; and every size not below MinSize that was listed
    with two different paths has its bucket sent. *)
Theorem stageBuckets_sends (MinSize : Z) (fileResults : list fileResult) :
  (forall b, b ∈ stageBuckets MinSize fileResults ->
     (2 <= length b)%nat /\ NoDup b
     /\ exists sz, MinSize <= sz /\ forall p, p ∈ b <-> mkFileResult p sz ∈ fileResults)
  /\ (forall sz p q, MinSize <= sz -> p <> q ->
        mkFileResult p sz ∈ fileResults -> mkFileResult q sz ∈ fileResults ->
        exists b, b ∈ stageBuckets MinSize fileResults /\ p ∈ b /\ q ∈ b).
Proof.
  destruct (stage_fill_inv MinSize fileResults) as (Hne & Hnd & Hin).
  unfold stageBuckets. split.
  - intros b Hb. apply list_elem_of_filter in Hb as [Hlen Hb].
    apply list_elem_of_fmap in Hb as ([sz v] & -> & Hkv). simpl in *.
    apply elem_of_map_to_list in Hkv.
    assert (Hat : bucket_at (stage_fill MinSize fileResults) sz = v).
    { unfold bucket_at. rewrite Hkv. reflexivity. }
    split; [lia|]. split; [rewrite <- Hat; apply Hnd|].
    exists sz. destruct v as [|p0 v]; [simpl in Hlen; lia|].
    assert (Hsz : MinSize <= sz).
    { assert (Hp0 : p0 ∈ bucket_at (stage_fill MinSize fileResults) sz)
        by (rewrite Hat; apply list_elem_of_here).
      apply Hin in Hp0 as [? _]. assumption. }
    split; [exact Hsz|]. intros p. rewrite <- Hat, Hin. tauto.
  - intros sz p q Hsz Hpq Hp Hq.
    assert (Hp' : p ∈ bucket_at (stage_fill MinSize fileResults) sz) by (apply Hin; auto).
    assert (Hq' : q ∈ bucket_at (stage_fill MinSize fileResults) sz) by (apply Hin; auto).
    unfold bucket_at in Hp', Hq'.
    destruct (stage_fill MinSize fileResults !! sz) as [v|] eqn:Hv; simpl in Hp', Hq';
      [|apply elem_of_nil in Hp'; contradiction].
    exists v. split; [|split; assumption].
    apply list_elem_of_filter. split.
    + destruct v as [|a [|b v]]; simpl; try lia.
      * apply elem_of_nil in Hp'. contradiction.
      * apply list_elem_of_singleton in Hp', Hq'. congruence.
    + apply list_elem_of_fmap. exists (sz, v). split; [reflexivity|].
      apply elem_of_map_to_list. exact Hv.
Qed.

